(** * doom-web: WAD decoding, map geometry and player movement

    A shallow embedding of three JavaScript classes,

      - [WADParser]   (wadParser.js),
      - [MapRenderer] (mapRenderer.js; its text follows QUICK_START.md),
      - [Game]        (game.js; its text follows QUICK_START.md too),

    followed by the properties established about them.

    Conventions of the embedding.
      - An [ArrayBuffer] is a [list byte]; [DataView] and [Uint8Array] are
        windows (offset, length) on it, with the range checks of the
        language written out: an access outside the window throws
        [RangeError].
      - A computation that may throw lives in the [result] monad.
      - Integers read from the file are [Z]; JavaScript numbers used by the
        game loop (positions, heights, distances) are exact rationals [Q]:
        IEEE rounding, overflow and NaN of doubles are not represented,
        except where a NaN arises from [0/0] on an empty polygon, which is
        kept as an explicit case.
      - [Map] and [Set] objects are [gmap] and [gset]. *)

From Stdlib Require Import ZArith QArith Qabs Qminmax Lia Lqa List String Ascii Sorted.
From Stdlib.Strings Require Import Byte.
From stdpp Require Import base option gmap list strings.

Local Open Scope Z_scope.

(** ** The fragment of the JavaScript runtime the sources rely on *)

Inductive exn : Type :=
| RangeError               (* out-of-range ArrayBuffer view or access *)
| TypeError                (* property read on [undefined] *)
| Error (msg : string).    (* [throw new Error(msg)] *)

(** The outcome of running a method: it returns, it throws, or it loops
    forever. *)
Inductive result (A : Type) : Type :=
| Ok (a : A)
| Throw (e : exn)
| Diverge.

Arguments Ok {A} a.
Arguments Throw {A} e.
Arguments Diverge {A}.

#[global] Instance result_ret : MRet result := fun A a => Ok a.

#[global] Instance result_bind : MBind result := fun A B k c =>
  match c with
  | Ok a => k a
  | Throw e => Throw e
  | Diverge => Diverge
  end.

#[global] Instance result_fmap : FMap result := fun A B f c =>
  match c with
  | Ok a => Ok (f a)
  | Throw e => Throw e
  | Diverge => Diverge
  end.

(** A computation that returns. *)
Definition returns {A} (r : result A) : Prop := exists a, r = Ok a.

(** A computation that returns or throws [RangeError], and does nothing
    else. *)
Definition rangeOnly {A} (r : result A) : Prop :=
  match r with
  | Ok _ => True
  | Throw e => e = RangeError
  | Diverge => False
  end.

(** Values of a property read that may be absent. *)
Inductive JSValue : Type :=
| JSUndefined
| JSNumber (z : Z).

(** [Array.prototype.includes] on an array of numbers (SameValueZero):
    [undefined] is not equal to any number. *)
Definition includes (arr : list Z) (v : JSValue) : bool :=
  match v with
  | JSUndefined => false
  | JSNumber z => existsb (Z.eqb z) arr
  end.

(** [arr[i]] for a number [i] read from the file: [undefined] (here [None])
    when [i] is negative or past the end. *)
Definition array_get {A} (arr : list A) (i : Z) : option A :=
  if 0 <=? i then arr !! Z.to_nat i else None.

Definition ArrayBuffer : Type := list byte.

Definition byteValue (b : byte) : Z := Z.of_N (Byte.to_N b).

Definition byteAt (buffer : ArrayBuffer) (i : Z) : Z :=
  byteValue (nth (Z.to_nat i) buffer "000"%byte).

Record DataView : Type := mkDataView {
  dv_buffer : ArrayBuffer;
  dv_byteOffset : Z;
  dv_byteLength : Z
}.

(** [new DataView(buffer, byteOffset, byteLength)] *)
Definition newDataView (buffer : ArrayBuffer) (byteOffset byteLength : Z)
  : result DataView :=
  if (0 <=? byteOffset) && (0 <=? byteLength) &&
     (byteOffset + byteLength <=? Z.of_nat (length buffer))
  then Ok (mkDataView buffer byteOffset byteLength)
  else Throw RangeError.

(** [new DataView(buffer)] *)
Definition wholeView (buffer : ArrayBuffer) : DataView :=
  mkDataView buffer 0 (Z.of_nat (length buffer)).

Definition inView (v : DataView) (i width : Z) : bool :=
  (0 <=? i) && (i + width <=? dv_byteLength v).

Definition getUint8 (v : DataView) (i : Z) : result Z :=
  if inView v i 1 then Ok (byteAt (dv_buffer v) (dv_byteOffset v + i))
  else Throw RangeError.

Definition toSigned (bits : Z) (u : Z) : Z :=
  if u <? 2 ^ (bits - 1) then u else u - 2 ^ bits.

(** [view.getInt16(i, true)]: little-endian, two's complement *)
Definition getInt16 (v : DataView) (i : Z) : result Z :=
  if inView v i 2 then
    let p := dv_byteOffset v + i in
    Ok (toSigned 16 (byteAt (dv_buffer v) p + 256 * byteAt (dv_buffer v) (p + 1)))
  else Throw RangeError.

(** [view.getInt32(i, true)] *)
Definition getInt32 (v : DataView) (i : Z) : result Z :=
  if inView v i 4 then
    let p := dv_byteOffset v + i in
    Ok (toSigned 32 (byteAt (dv_buffer v) p
                     + 256 * byteAt (dv_buffer v) (p + 1)
                     + 65536 * byteAt (dv_buffer v) (p + 2)
                     + 16777216 * byteAt (dv_buffer v) (p + 3)))
  else Throw RangeError.

Record Uint8Array : Type := mkUint8Array {
  u8_buffer : ArrayBuffer;
  u8_byteOffset : Z;
  u8_length : Z
}.

(** [new Uint8Array(buffer, byteOffset, length)] *)
Definition newUint8Array (buffer : ArrayBuffer) (byteOffset len : Z)
  : result Uint8Array :=
  if (0 <=? byteOffset) && (0 <=? len) &&
     (byteOffset + len <=? Z.of_nat (length buffer))
  then Ok (mkUint8Array buffer byteOffset len)
  else Throw RangeError.

(** [a[i]] on a [Uint8Array] *)
Definition u8_get (a : Uint8Array) (i : Z) : option Z :=
  if (0 <=? i) && (i <? u8_length a)
  then Some (byteAt (u8_buffer a) (u8_byteOffset a + i))
  else None.

(** [String.fromCharCode(c)] for a byte *)
Definition fromCharCode (c : Z) : ascii := ascii_of_N (Z.to_N c).

(** The code units below 256 that [String.prototype.trim] strips:
    TAB, LF, VT, FF, CR, SPACE and NBSP. *)
Definition isWhiteSpace (a : ascii) : bool :=
  let n := N_of_ascii a in
  (((9 <=? n) && (n <=? 13)) || (n =? 32) || (n =? 160))%N.

Fixpoint trimStart (s : string) : string :=
  match s with
  | String a s' => if isWhiteSpace a then trimStart s' else s
  | EmptyString => EmptyString
  end.

Fixpoint trimEnd (s : string) : string :=
  match s with
  | String a s' =>
      match trimEnd s' with
      | EmptyString => if isWhiteSpace a then EmptyString else String a EmptyString
      | t => String a t
      end
  | EmptyString => EmptyString
  end.

Definition trim (s : string) : string := trimEnd (trimStart s).

(** ** wadParser.js *)

Module WADParser.

Record Lump : Type := mkLump {
  lump_name : string;
  lump_offset : Z;
  lump_size : Z
}.

#[global] Instance Lump_eq_dec : EqDecision Lump.
Proof. solve_decision. Defined.

Record t : Type := mkWADParser {
  buffer : ArrayBuffer;
  lumps : list Lump;
  lumpMap : gmap string Lump
}.

Definition view (buffer : ArrayBuffer) : DataView := wholeView buffer.

(** [readString(offset, length)]: the bytes up to the first NUL, at most
    [length] of them. *)
Fixpoint readString (v : DataView) (offset : Z) (length : nat) : result string :=
  match length with
  | O => Ok EmptyString
  | S length' =>
      char ← getUint8 v offset;
      if char =? 0 then Ok EmptyString
      else str ← readString v (offset + 1) length';
           Ok (String (fromCharCode char) str)
  end.

(** The directory loop of [parse]: [n] entries remain, the next one at
    [offset]. *)
Fixpoint parseDirectory (v : DataView) (n : nat) (offset : Z)
    (lumps : list Lump) (lumpMap : gmap string Lump)
  : result (list Lump * gmap string Lump) :=
  match n with
  | O => Ok (lumps, lumpMap)
  | S n' =>
      lumpOffset ← getInt32 v offset;
      lumpSize ← getInt32 v (offset + 4);
      raw ← readString v (offset + 8) 8;
      let lumpName := trim raw in
      let lump := mkLump lumpName lumpOffset lumpSize in
      parseDirectory v n' (offset + 16) (lumps ++ [lump]) (<[lumpName := lump]> lumpMap)
  end.

Definition acceptedHeader (header : string) : bool :=
  (header =? "IWAD")%string || (header =? "PWAD")%string.

(** [new WADParser(arrayBuffer)], that is the constructor followed by
    [parse()]. *)
Definition parse (arrayBuffer : ArrayBuffer) : result t :=
  let v := view arrayBuffer in
  header ← readString v 0 4;
  if negb (acceptedHeader header)
  then Throw (Error "Invalid WAD file: must be IWAD or PWAD")
  else
    numLumps ← getInt32 v 4;
    directoryOffset ← getInt32 v 8;
    '(lumps, lumpMap) ← parseDirectory v (Z.to_nat numLumps) directoryOffset [] ∅;
    Ok (mkWADParser arrayBuffer lumps lumpMap).

Definition getLump (w : t) (name : string) : option Lump := lumpMap w !! name.

(** [getLumpData(name)]: [null] when the lump is unknown. *)
Definition getLumpData (w : t) (name : string) : result (option Uint8Array) :=
  match getLump w name with
  | None => Ok None
  | Some lump =>
      a ← newUint8Array (buffer w) (lump_offset lump) (lump_size lump);
      Ok (Some a)
  end.

(** *** Map records *)

Record Thing : Type := mkThing {
  thing_x : Z; thing_y : Z; thing_angle : Z; thing_type : Z; thing_flags : Z
}.

Record Linedef : Type := mkLinedef {
  startVertex : Z; endVertex : Z; flags : Z; lineType : Z; sectorTag : Z;
  frontSidedef : Z; backSidedef : Z
}.

Record Sidedef : Type := mkSidedef {
  xOffset : Z; yOffset : Z;
  upperTexture : string; lowerTexture : string; middleTexture : string;
  sector : Z
}.

Record Vertex : Type := mkVertex { vertex_x : Z; vertex_y : Z }.

Record Sector : Type := mkSector {
  floorHeight : Z; ceilingHeight : Z;
  floorTexture : string; ceilingTexture : string;
  lightLevel : Z; special : Z; tag : Z
}.

Record Seg : Type := mkSeg {
  seg_startVertex : Z; seg_endVertex : Z; seg_angle : Z; seg_linedef : Z;
  seg_direction : Z; seg_offset : Z
}.

Record SSector : Type := mkSSector { segCount : Z; firstSeg : Z }.

Record Box : Type := mkBox { box_top : Z; box_bottom : Z; box_left : Z; box_right : Z }.

Record Node : Type := mkNode {
  node_x : Z; node_y : Z; node_dx : Z; node_dy : Z;
  rightBox : Box; leftBox : Box;
  rightChild : Z; leftChild : Z
}.

(** The property names of the object literal that [parseLinedefs] pushes;
    any other property of such an object reads as [undefined]. *)
Definition Linedef_prop (l : Linedef) (key : string) : JSValue :=
  if (key =? "startVertex")%string then JSNumber (startVertex l)
  else if (key =? "endVertex")%string then JSNumber (endVertex l)
  else if (key =? "flags")%string then JSNumber (flags l)
  else if (key =? "lineType")%string then JSNumber (lineType l)
  else if (key =? "sectorTag")%string then JSNumber (sectorTag l)
  else if (key =? "frontSidedef")%string then JSNumber (frontSidedef l)
  else if (key =? "backSidedef")%string then JSNumber (backSidedef l)
  else JSUndefined.

(** [mapLumps.find(l => l.name === name)] *)
Definition findLump (mapLumps : list Lump) (name : string) : option Lump :=
  List.find (fun l => (lump_name l =? name)%string) mapLumps.

(** The loop shared by the eight record decoders,

      [const count = lump.size / recordSize;]
      [for (let i = 0; i < count; i++) { const offset = i * recordSize; push(read(offset)) }]

    [count] is a JavaScript number, fractional when [size] is not a multiple
    of [recordSize]; the test [i < count] then holds for
    [i = 0 .. ceil(size / recordSize) - 1]. *)
Definition iterations (size recordSize : Z) : nat :=
  Z.to_nat ((size + recordSize - 1) / recordSize).

Fixpoint forRecords {A} (read : Z -> result A) (recordSize : Z)
    (n : nat) (i : Z) (acc : list A) : result (list A) :=
  match n with
  | O => Ok acc
  | S n' =>
      r ← read (i * recordSize);
      forRecords read recordSize n' (i + 1) (acc ++ [r])
  end.

(** [const lump = mapLumps.find(...); if (!lump || lump.size === 0) return [];]
    [const view = new DataView(this.buffer, lump.offset, lump.size); ...] *)
Definition parseRecords {A} (buffer : ArrayBuffer) (mapLumps : list Lump)
    (name : string) (recordSize : Z) (read : Lump -> DataView -> Z -> result A)
  : result (list A) :=
  match findLump mapLumps name with
  | None => Ok []
  | Some lump =>
      if lump_size lump =? 0 then Ok []
      else
        v ← newDataView buffer (lump_offset lump) (lump_size lump);
        forRecords (read lump v) recordSize (iterations (lump_size lump) recordSize) 0 []
  end.

Definition readThing (v : DataView) (offset : Z) : result Thing :=
  x ← getInt16 v offset;
  y ← getInt16 v (offset + 2);
  angle ← getInt16 v (offset + 4);
  type ← getInt16 v (offset + 6);
  flags ← getInt16 v (offset + 8);
  Ok (mkThing x y angle type flags).

Definition parseThings (buffer : ArrayBuffer) (mapLumps : list Lump) : result (list Thing) :=
  parseRecords buffer mapLumps "THINGS" 10 (fun _ v => readThing v).

Definition readLinedef (v : DataView) (offset : Z) : result Linedef :=
  startVertex ← getInt16 v offset;
  endVertex ← getInt16 v (offset + 2);
  flags ← getInt16 v (offset + 4);
  lineType ← getInt16 v (offset + 6);
  sectorTag ← getInt16 v (offset + 8);
  frontSidedef ← getInt16 v (offset + 10);
  backSidedef ← getInt16 v (offset + 12);
  Ok (mkLinedef startVertex endVertex flags lineType sectorTag frontSidedef backSidedef).

Definition parseLinedefs (buffer : ArrayBuffer) (mapLumps : list Lump) : result (list Linedef) :=
  parseRecords buffer mapLumps "LINEDEFS" 14 (fun _ v => readLinedef v).

(** The texture names are read through [this.readString], that is through
    the view on the whole file, at [lump.offset + offset + k]. *)
Definition readSidedef (buffer : ArrayBuffer) (lump : Lump) (v : DataView) (offset : Z)
  : result Sidedef :=
  xOffset ← getInt16 v offset;
  yOffset ← getInt16 v (offset + 2);
  upper ← readString (view buffer) (lump_offset lump + offset + 4) 8;
  lower ← readString (view buffer) (lump_offset lump + offset + 12) 8;
  middle ← readString (view buffer) (lump_offset lump + offset + 20) 8;
  sector ← getInt16 v (offset + 28);
  Ok (mkSidedef xOffset yOffset (trim upper) (trim lower) (trim middle) sector).

Definition parseSidedefs (buffer : ArrayBuffer) (mapLumps : list Lump) : result (list Sidedef) :=
  parseRecords buffer mapLumps "SIDEDEFS" 30 (readSidedef buffer).

Definition readVertex (v : DataView) (offset : Z) : result Vertex :=
  x ← getInt16 v offset;
  y ← getInt16 v (offset + 2);
  Ok (mkVertex x y).

Definition parseVertexes (buffer : ArrayBuffer) (mapLumps : list Lump) : result (list Vertex) :=
  parseRecords buffer mapLumps "VERTEXES" 4 (fun _ v => readVertex v).

Definition readSector (buffer : ArrayBuffer) (lump : Lump) (v : DataView) (offset : Z)
  : result Sector :=
  floorHeight ← getInt16 v offset;
  ceilingHeight ← getInt16 v (offset + 2);
  floorTexture ← readString (view buffer) (lump_offset lump + offset + 4) 8;
  ceilingTexture ← readString (view buffer) (lump_offset lump + offset + 12) 8;
  lightLevel ← getInt16 v (offset + 20);
  special ← getInt16 v (offset + 22);
  tag ← getInt16 v (offset + 24);
  Ok (mkSector floorHeight ceilingHeight (trim floorTexture) (trim ceilingTexture)
        lightLevel special tag).

Definition parseSectors (buffer : ArrayBuffer) (mapLumps : list Lump) : result (list Sector) :=
  parseRecords buffer mapLumps "SECTORS" 26 (readSector buffer).

Definition readSeg (v : DataView) (offset : Z) : result Seg :=
  startVertex ← getInt16 v offset;
  endVertex ← getInt16 v (offset + 2);
  angle ← getInt16 v (offset + 4);
  linedef ← getInt16 v (offset + 6);
  direction ← getInt16 v (offset + 8);
  off ← getInt16 v (offset + 10);
  Ok (mkSeg startVertex endVertex angle linedef direction off).

Definition parseSegs (buffer : ArrayBuffer) (mapLumps : list Lump) : result (list Seg) :=
  parseRecords buffer mapLumps "SEGS" 12 (fun _ v => readSeg v).

Definition readSSector (v : DataView) (offset : Z) : result SSector :=
  segCount ← getInt16 v offset;
  firstSeg ← getInt16 v (offset + 2);
  Ok (mkSSector segCount firstSeg).

Definition parseSSectors (buffer : ArrayBuffer) (mapLumps : list Lump) : result (list SSector) :=
  parseRecords buffer mapLumps "SSECTORS" 4 (fun _ v => readSSector v).

Definition readBox (v : DataView) (offset : Z) : result Box :=
  top ← getInt16 v offset;
  bottom ← getInt16 v (offset + 2);
  left ← getInt16 v (offset + 4);
  right ← getInt16 v (offset + 6);
  Ok (mkBox top bottom left right).

Definition readNode (v : DataView) (offset : Z) : result Node :=
  x ← getInt16 v offset;
  y ← getInt16 v (offset + 2);
  dx ← getInt16 v (offset + 4);
  dy ← getInt16 v (offset + 6);
  rightBox ← readBox v (offset + 8);
  leftBox ← readBox v (offset + 16);
  rightChild ← getInt16 v (offset + 24);
  leftChild ← getInt16 v (offset + 26);
  Ok (mkNode x y dx dy rightBox leftBox rightChild leftChild).

Definition parseNodes (buffer : ArrayBuffer) (mapLumps : list Lump) : result (list Node) :=
  parseRecords buffer mapLumps "NODES" 28 (fun _ v => readNode v).

Record Map : Type := mkMap {
  map_name : string;
  things : list Thing;
  linedefs : list Linedef;
  sidedefs : list Sidedef;
  vertexes : list Vertex;
  sectors : list Sector;
  segs : list Seg;
  ssectors : list SSector;
  nodes : list Node
}.

(** The object literal returned by [getMap], for the slice [mapLumps] of the
    directory that belongs to the map: the eight decoders run in this
    order, and an exception of any of them leaves [getMap]. *)
Definition decodeMap (buffer : ArrayBuffer) (mapName : string) (mapLumps : list Lump)
  : result Map :=
  things ← parseThings buffer mapLumps;
  linedefs ← parseLinedefs buffer mapLumps;
  sidedefs ← parseSidedefs buffer mapLumps;
  vertexes ← parseVertexes buffer mapLumps;
  sectors ← parseSectors buffer mapLumps;
  segs ← parseSegs buffer mapLumps;
  ssectors ← parseSSectors buffer mapLumps;
  nodes ← parseNodes buffer mapLumps;
  Ok (mkMap mapName things linedefs sidedefs vertexes sectors segs ssectors nodes).

(** *** Palette *)

Abbreviation Palette := (list (Z * Z * Z)).

(** The loop counter [for (let i = 0; i < n; i++)] as the list [0 .. n-1]. *)
Definition upto (n : nat) : list Z := map Z.of_nat (seq 0 n).

Definition getDefaultPalette : Palette := map (fun i => (i, i, i)) (upto 256).

(** [playpal[i]] where the guard [playpal.length >= 768] has established
    that the element exists; the [undefined] of an absent element (not
    reachable from [getPalette]) reads as 0 here. *)
Definition u8_elem (a : Uint8Array) (i : Z) : Z := default 0 (u8_get a i).

Definition getPalette (w : t) : result Palette :=
  playpal ← getLumpData w "PLAYPAL";
  match playpal with
  | None => Ok getDefaultPalette
  | Some playpal =>
      if u8_length playpal <? 768 then Ok getDefaultPalette
      else Ok (map (fun i => (u8_elem playpal (i * 3),
                              u8_elem playpal (i * 3 + 1),
                              u8_elem playpal (i * 3 + 2))) (upto 256))
  end.

(** *** Patches *)

Record Patch : Type := mkPatch {
  patch_width : Z;
  patch_height : Z;
  leftOffset : Z;
  topOffset : Z;
  columnOffsets : list Z;
  data : Uint8Array
}.

Record Picture : Type := mkPicture {
  pic_width : Z;
  pic_height : Z;
  pixels : list Z
}.

Fixpoint readColumnOffsets (v : DataView) (n : nat) (i : Z) (acc : list Z)
  : result (list Z) :=
  match n with
  | O => Ok acc
  | S n' =>
      o ← getInt32 v (8 + i * 4);
      readColumnOffsets v n' (i + 1) (acc ++ [o])
  end.

Definition getPatch (w : t) (name : string) : result (option Patch) :=
  match getLump w name with
  | None => Ok None
  | Some lump =>
      v ← newDataView (buffer w) (lump_offset lump) (lump_size lump);
      width ← getInt16 v 0;
      height ← getInt16 v 2;
      leftOffset ← getInt16 v 4;
      topOffset ← getInt16 v 6;
      columnOffsets ← readColumnOffsets v (Z.to_nat width) 0 [];
      data ← newUint8Array (buffer w) (lump_offset lump) (lump_size lump);
      Ok (Some (mkPatch width height leftOffset topOffset columnOffsets data))
  end.

(** The running [offset] of [renderPatch] is a JavaScript number: it is
    [undefined], and [NaN] after arithmetic, when [columnOffsets[x]] does not
    exist ([None] here). [getUint8] converts its argument with ToIndex, and
    ToIndex of [undefined] or [NaN] is 0. *)
Definition toIndex (o : option Z) : Z := default 0 o.

Definition addNum (o : option Z) (k : Z) : option Z := (fun z => z + k) <$> o.

(** [pixels[i] = v] on a [Uint8Array]: the value is stored modulo 256, and a
    store outside the array is ignored. *)
Definition u8_store (pixels : list Z) (i : Z) (v : Z) : list Z :=
  if 0 <=? i then <[Z.to_nat i := v mod 256]> pixels else pixels.

Definition putPixel (pixels : list Z) (pixelOffset : Z) (color : Z * Z * Z) : list Z :=
  let '(r, g, b) := color in
  u8_store (u8_store (u8_store (u8_store pixels pixelOffset r)
                        (pixelOffset + 1) g) (pixelOffset + 2) b) (pixelOffset + 3) 255.

(** The [for (let i = 0; i < pixelCount; i++)] loop over one run; [n]
    iterations remain. *)
Fixpoint drawRun (v : DataView) (palette : Palette) (w h x rowStart : Z)
    (offset : option Z) (n : nat) (i : Z) (pixels : list Z) : result (list Z) :=
  match n with
  | O => Ok pixels
  | S n' =>
      paletteIndex ← getUint8 v (toIndex (addNum offset i));
      let y := rowStart + i in
      pixels' ←
        (if (0 <=? y) && (y <? h) then
           let pixelOffset := (y * w + x) * 4 in
           match array_get palette paletteIndex with
           | None => Throw TypeError
           | Some color => Ok (putPixel pixels pixelOffset color)
           end
         else Ok pixels);
      drawRun v palette w h x rowStart offset n' (i + 1) pixels'
  end.

(** The [while (true)] loop over the runs of column [x]; running out of
    [fuel] stands for a loop that does not end. *)
Fixpoint drawColumn (fuel : nat) (v : DataView) (palette : Palette) (w h x : Z)
    (offset : option Z) (pixels : list Z) : result (list Z) :=
  match fuel with
  | O => Diverge
  | S fuel' =>
      rowStart ← getUint8 v (toIndex offset);
      if rowStart =? 255 then Ok pixels
      else
        pixelCount ← getUint8 v (toIndex (addNum offset 1));
        let offset := addNum offset 3 in
        pixels' ← drawRun v palette w h x rowStart offset (Z.to_nat pixelCount) 0 pixels;
        drawColumn fuel' v palette w h x (addNum offset (pixelCount + 1)) pixels'
  end.

(** The [for (let x = 0; x < patch.width; x++)] loop; [n] columns remain. *)
Fixpoint drawColumns (fuel : nat) (v : DataView) (palette : Palette) (w h : Z)
    (columnOffsets : list Z) (n : nat) (x : Z) (pixels : list Z) : result (list Z) :=
  match n with
  | O => Ok pixels
  | S n' =>
      pixels' ← drawColumn fuel v palette w h x (columnOffsets !! Z.to_nat x) pixels;
      drawColumns fuel v palette w h columnOffsets n' (x + 1) pixels'
  end.

(** Every turn of the [while] loop moves a numeric [offset] forward by at
    least 4 bytes inside the view, so one more turn than the view has bytes
    is never reached by a loop that ends. *)
Definition columnFuel (v : DataView) : nat := S (Z.to_nat (dv_byteLength v)).

Definition renderPatch (patch : option Patch) (palette : Palette)
  : result (option Picture) :=
  match patch with
  | None => Ok None
  | Some patch =>
      let w := patch_width patch in
      let h := patch_height patch in
      if w * h * 4 <? 0 then Throw RangeError
      else
        let pixels := replicate (Z.to_nat (w * h * 4)) 0 in
        v ← newDataView (u8_buffer (data patch)) (u8_byteOffset (data patch))
              (u8_length (data patch));
        pixels ← drawColumns (columnFuel v) v palette w h (columnOffsets patch)
                   (Z.to_nat w) 0 pixels;
        Ok (Some (mkPicture w h pixels))
  end.

(** The eight sub-lumps of a map with their record sizes in bytes. *)
Inductive SubLump : Type :=
| THINGS | LINEDEFS | SIDEDEFS | VERTEXES | SECTORS | SEGS | SSECTORS | NODES.

Definition subLumpName (k : SubLump) : string :=
  match k with
  | THINGS => "THINGS" | LINEDEFS => "LINEDEFS" | SIDEDEFS => "SIDEDEFS"
  | VERTEXES => "VERTEXES" | SECTORS => "SECTORS" | SEGS => "SEGS"
  | SSECTORS => "SSECTORS" | NODES => "NODES"
  end.

Definition recordSize (k : SubLump) : Z :=
  match k with
  | THINGS => 10 | LINEDEFS => 14 | SIDEDEFS => 30 | VERTEXES => 4
  | SECTORS => 26 | SEGS => 12 | SSECTORS => 4 | NODES => 28
  end.

(** How the decoder of sub-lump [k] ends: the number of records it returns,
    or what it throws. *)
Definition decodeSubLump (k : SubLump) (buffer : ArrayBuffer) (mapLumps : list Lump)
  : result nat :=
  match k with
  | THINGS => l ← parseThings buffer mapLumps; Ok (length l)
  | LINEDEFS => l ← parseLinedefs buffer mapLumps; Ok (length l)
  | SIDEDEFS => l ← parseSidedefs buffer mapLumps; Ok (length l)
  | VERTEXES => l ← parseVertexes buffer mapLumps; Ok (length l)
  | SECTORS => l ← parseSectors buffer mapLumps; Ok (length l)
  | SEGS => l ← parseSegs buffer mapLumps; Ok (length l)
  | SSECTORS => l ← parseSSectors buffer mapLumps; Ok (length l)
  | NODES => l ← parseNodes buffer mapLumps; Ok (length l)
  end.

(** *** Notions used to state the properties of the directory *)

(** The lookup table built by the directory loop: every entry overwrites
    the one stored under its name. *)
Definition index (m : gmap string Lump) (new : list Lump) : gmap string Lump :=
  foldl (fun m l => <[lump_name l := l]> m) m new.

(** The directory entries that bear [name]. *)
Definition named (name : string) (l : Lump) : bool := (lump_name l =? name)%string.

(** What the lookup would return under first-match semantics. *)
Definition firstMatch (w : t) (name : string) : option Lump :=
  List.find (named name) (lumps w).


(** The byte range that a directory entry names lies inside the file. *)
Definition inBuffer (buffer : ArrayBuffer) (l : Lump) : Prop :=
  0 <= lump_offset l /\ 0 <= lump_size l /\
  lump_offset l + lump_size l <= Z.of_nat (length buffer).


(** *** Notions used to state the properties of [renderPatch] *)

(** The view that [renderPatch] opens on the data of a patch. *)
Definition viewOf (a : Uint8Array) : DataView :=
  mkDataView (u8_buffer a) (u8_byteOffset a) (u8_length a).

(** The runs of a column, as the patch format lays them out from byte
    [offset] on: a byte [rowStart], a byte [pixelCount], a padding byte,
    [pixelCount] palette indices from [start] on, a padding byte; the row
    255 ends the column. [RunAt v offset rowStart pixelCount start] says that
    the column that begins at [offset] has such a run. *)
Inductive RunAt (v : DataView) : Z -> Z -> Z -> Z -> Prop :=
| run_here offset rowStart pixelCount :
    getUint8 v offset = Ok rowStart -> rowStart <> 255 ->
    getUint8 v (offset + 1) = Ok pixelCount ->
    RunAt v offset rowStart pixelCount (offset + 3)
| run_later offset rowStart0 pixelCount0 rowStart pixelCount start :
    getUint8 v offset = Ok rowStart0 -> rowStart0 <> 255 ->
    getUint8 v (offset + 1) = Ok pixelCount0 ->
    RunAt v (offset + 3 + (pixelCount0 + 1)) rowStart pixelCount start ->
    RunAt v offset rowStart pixelCount start.

(** Row [y] of the column at [offset] is covered by a run, whose palette
    index for that row is [paletteIndex]. *)
Definition Covers (v : DataView) (offset y paletteIndex : Z) : Prop :=
  exists rowStart pixelCount start,
    RunAt v offset rowStart pixelCount start /\
    rowStart <= y < rowStart + pixelCount /\
    getUint8 v (start + (y - rowStart)) = Ok paletteIndex.

(** The four bytes of the pixel at [pixelOffset]. *)
Definition rgbaAt (pixels : list Z) (pixelOffset : Z) : option (Z * Z * Z * Z) :=
  r ← pixels !! Z.to_nat pixelOffset;
  g ← pixels !! Z.to_nat (pixelOffset + 1);
  b ← pixels !! Z.to_nat (pixelOffset + 2);
  a ← pixels !! Z.to_nat (pixelOffset + 3);
  Some (r, g, b, a).

(** [pixelOffset] of [renderPatch] for column [x] and row [y] of a picture
    [w] pixels wide. *)
Definition pixelOffset (w x y : Z) : Z := (y * w + x) * 4.

(** The bytes that a store of [color] leaves in the buffer. *)
Definition stored (color : Z * Z * Z) : Z * Z * Z * Z :=
  let '(r, g, b) := color in (r mod 256, g mod 256, b mod 256, 255).

(** The pixel of row [y] after the column at [offset] has been drawn:
    the colour of a run that covers the row, or what it was [before] when no
    run covers it. *)
Definition columnPixel (v : DataView) (palette : Palette) (offset y : Z)
    (before after : option (Z * Z * Z * Z)) : Prop :=
  (exists paletteIndex color,
     Covers v offset y paletteIndex /\
     array_get palette paletteIndex = Some color /\
     after = Some (stored color))
  \/ ((forall paletteIndex, ~ Covers v offset y paletteIndex) /\ after = before).

(** The pixel in column [x] and row [y] of a picture. *)
Definition rgba (pic : Picture) (x y : Z) : option (Z * Z * Z * Z) :=
  rgbaAt (pixels pic) (pixelOffset (pic_width pic) x y).

Definition isByte (z : Z) : Prop := 0 <= z < 256.

Definition bytePalette (palette : Palette) : Prop :=
  Forall (fun '(r, g, b) => isByte r /\ isByte g /\ isByte b) palette.

(** The number of pixels of an RGBA buffer whose alpha is 255. *)
Fixpoint countOpaque (pixels : list Z) : nat :=
  match pixels with
  | _ :: _ :: _ :: a :: rest =>
      if a =? 255 then S (countOpaque rest) else countOpaque rest
  | _ => O
  end.

(** *** Flats *)

Record Flat : Type := mkFlat {
  flat_width : Z;
  flat_height : Z;
  flat_data : Uint8Array
}.

(** [getFlat(name)]: [null] unless the lump exists and has 4096 bytes. *)
Definition getFlat (w : t) (name : string) : result (option Flat) :=
  match getLump w name with
  | None => Ok None
  | Some lump =>
      if negb (lump_size lump =? 4096) then Ok None
      else
        data ← newUint8Array (buffer w) (lump_offset lump) (lump_size lump);
        Ok (Some (mkFlat 64 64 data))
  end.

(** The loop of [renderFlat] over [flat.data]; [n] bytes remain, the next
    one is number [i]. Indexing the palette with an absent element gives
    [undefined], whose [color[0]] throws. *)
Fixpoint renderFlatFrom (data : Uint8Array) (palette : Palette) (n : nat) (i : Z)
    (pixels : list Z) : result (list Z) :=
  match n with
  | O => Ok pixels
  | S n' =>
      match u8_get data i ≫= array_get palette with
      | None => Throw TypeError
      | Some color => renderFlatFrom data palette n' (i + 1) (putPixel pixels (i * 4) color)
      end
  end.

Definition renderFlat (flat : option Flat) (palette : Palette)
  : result (option Picture) :=
  match flat with
  | None => Ok None
  | Some flat =>
      let size := flat_width flat * flat_height flat * 4 in
      if size <? 0 then Throw RangeError
      else
        pixels ← renderFlatFrom (flat_data flat) palette
                   (Z.to_nat (u8_length (flat_data flat))) 0
                   (replicate (Z.to_nat size) 0);
        Ok (Some (mkPicture (flat_width flat) (flat_height flat) pixels))
  end.

(** *** Textures *)

(** A patch of a texture definition; [patch] is [pnames[index]], which is
    [undefined] ([None]) when the index is not in the table. *)
Record PatchRef : Type := mkPatchRef {
  originX : Z;
  originY : Z;
  patch : option string
}.

Record TextureDef : Type := mkTextureDef {
  tex_name : string;
  tex_width : Z;
  tex_height : Z;
  patches : list PatchRef
}.

(** [pixels[i]] on a [Uint8Array] used as a number: 0 stands for the
    [undefined] of an absent element, which compares and stores as 0
    does. *)
Definition u8_read (pixels : list Z) (i : Z) : Z :=
  if 0 <=? i then default 0 (pixels !! Z.to_nat i) else 0.

(** The body of the two loops that composite a rendered patch: source
    pixel [(x, y)] goes to [(originX + x, originY + y)] when that lies in the
    texture and the source pixel is not transparent. *)
Definition blitPixel (src : Picture) (w h : Z) (ref : PatchRef) (x y : Z)
    (dest : list Z) : list Z :=
  let destX := originX ref + x in
  let destY := originY ref + y in
  if (0 <=? destX) && (destX <? w) && (0 <=? destY) && (destY <? h) then
    let srcOffset := (y * pic_width src + x) * 4 in
    let destOffset := (destY * w + destX) * 4 in
    if 0 <? u8_read (pixels src) (srcOffset + 3) then
      u8_store (u8_store (u8_store (u8_store dest
        destOffset (u8_read (pixels src) srcOffset))
        (destOffset + 1) (u8_read (pixels src) (srcOffset + 1)))
        (destOffset + 2) (u8_read (pixels src) (srcOffset + 2)))
        (destOffset + 3) (u8_read (pixels src) (srcOffset + 3))
    else dest
  else dest.

(** [for (y ...) for (x ...)] over the rendered patch. *)
Definition blit (src : Picture) (w h : Z) (ref : PatchRef) (dest : list Z) : list Z :=
  fold_left (fun dest y =>
               fold_left (fun dest x => blitPixel src w h ref x y dest)
                 (upto (Z.to_nat (pic_width src))) dest)
    (upto (Z.to_nat (pic_height src))) dest.

(** The inner loop of the compositing, over the columns of row [y] of the
    patch. *)
Definition blitRow (src : Picture) (w h : Z) (ref : PatchRef) (y : Z) (dest : list Z)
  : list Z :=
  fold_left (fun dest x => blitPixel src w h ref x y dest)
    (upto (Z.to_nat (pic_width src))) dest.

(** [this.getPatch(patchRef.patch)]: the lookup of [undefined] finds no
    lump. *)
Definition getPatchOf (wad : t) (ref : PatchRef) : result (option Patch) :=
  match patch ref with
  | None => Ok None
  | Some name => getPatch wad name
  end.

(** The loop of [renderTexture] over [textureDef.patches]. *)
Fixpoint renderTextureFrom (wad : t) (palette : Palette) (w h : Z)
    (rest : list PatchRef) (pixels : list Z) : result (list Z) :=
  match rest with
  | [] => Ok pixels
  | ref :: rest' =>
      p ← getPatchOf wad ref;
      match p with
      | None => renderTextureFrom wad palette w h rest' pixels
      | Some _ =>
          patchPixels ← renderPatch p palette;
          match patchPixels with
          | None => renderTextureFrom wad palette w h rest' pixels
          | Some src => renderTextureFrom wad palette w h rest' (blit src w h ref pixels)
          end
      end
  end.

Definition renderTexture (wad : t) (textureDef : option TextureDef) (palette : Palette)
  : result (option Picture) :=
  match textureDef with
  | None => Ok None
  | Some textureDef =>
      let w := tex_width textureDef in
      let h := tex_height textureDef in
      if w * h * 4 <? 0 then Throw RangeError
      else
        pixels ← renderTextureFrom wad palette w h (patches textureDef)
                   (replicate (Z.to_nat (w * h * 4)) 0);
        Ok (Some (mkPicture w h pixels))
  end.

(** *** Maps of a container *)

Definition isDigit (a : ascii) : bool :=
  let n := N_of_ascii a in ((48 <=? n) && (n <=? 57))%N.

(** [/^(E\dM\d|MAP\d{2})$/.test(name)] *)
Definition isMapName (name : string) : bool :=
  match name with
  | String "E" (String d1 (String "M" (String d2 EmptyString))) =>
      isDigit d1 && isDigit d2
  | String "M" (String "A" (String "P" (String d1 (String d2 EmptyString)))) =>
      isDigit d1 && isDigit d2
  | _ => false
  end.

Definition getMapNames (w : t) : list string :=
  map lump_name (List.filter (fun l => isMapName (lump_name l)) (lumps w)).

(** [this.lumps.findIndex(l => l.name === name)]; [None] is -1. *)
Fixpoint findIndex (name : string) (lumps : list Lump) : option nat :=
  match lumps with
  | [] => None
  | l :: lumps' =>
      if (lump_name l =? name)%string then Some O
      else S <$> findIndex name lumps'
  end.

(** The loop that looks for the next map: the number of lumps, from the
    head of [rest] on, before the first one whose name is a map name. *)
Fixpoint lumpsBeforeNextMap (rest : list Lump) : nat :=
  match rest with
  | [] => O
  | l :: rest' => if isMapName (lump_name l) then O else S (lumpsBeforeNextMap rest')
  end.

(** [this.lumps.slice(mapIndex, endIndex)] *)
Definition mapLumpsAt (lumps : list Lump) (mapIndex : nat) : list Lump :=
  let endIndex := (S mapIndex + lumpsBeforeNextMap (drop (S mapIndex) lumps))%nat in
  take (endIndex - mapIndex) (drop mapIndex lumps).

Definition getMap (w : t) (mapName : string) : result (option Map) :=
  match findIndex mapName (lumps w) with
  | None => Ok None
  | Some mapIndex =>
      m ← decodeMap (buffer w) mapName (mapLumpsAt (lumps w) mapIndex);
      Ok (Some m)
  end.

(** *** Lumps between two markers *)

(** [findLumpsBetween(startName, endName)]; the [slice] is empty when the
    end marker does not come after the start marker. *)
Definition findLumpsBetween (w : t) (startName endName : string) : list Lump :=
  match findIndex startName (lumps w), findIndex endName (lumps w) with
  | Some startIndex, Some endIndex =>
      take (endIndex - S startIndex) (drop (S startIndex) (lumps w))
  | _, _ => []
  end.

(** *** Music *)

(** [getMusic(musicName)] *)
Definition getMusic (w : t) (musicName : string) : result (option Uint8Array) :=
  match getLump w musicName with
  | None => Ok None
  | Some lump =>
      if lump_size lump =? 0 then Ok None
      else
        musicData ← newUint8Array (buffer w) (lump_offset lump) (lump_size lump);
        Ok (Some musicData)
  end.

Definition musicMap : list (string * string) :=
  [("E1M1", "D_E1M1"); ("E1M2", "D_E1M2"); ("E1M3", "D_E1M3");
   ("E1M4", "D_E1M4"); ("E1M5", "D_E1M5"); ("E1M6", "D_E1M6");
   ("E1M7", "D_E1M7"); ("E1M8", "D_E1M8"); ("E1M9", "D_E1M9")]%string.

Fixpoint property (key : string) (object : list (string * string)) : option string :=
  match object with
  | [] => None
  | (k, v) :: object' => if (k =? key)%string then Some v else property key object'
  end.

(** [getMusicForMap(mapName)]. For a name such as "constructor", which
    the object literal inherits, [musicMap[mapName]] is an object that is no
    key of [lumpMap]; [getMusic] then returns [null], as the first branch
    does. *)
Definition getMusicForMap (w : t) (mapName : string) : result (option Uint8Array) :=
  match property mapName musicMap with
  | None => Ok None
  | Some musicName => getMusic w musicName
  end.

(** *** Patch names and texture definitions *)

(** [readStringFromBuffer(buffer, offset, length)]: an element outside the
    array is [undefined], which is not [=== 0] and of which
    [String.fromCharCode] makes the character of code 0. *)
Fixpoint readStringFromBuffer (buffer : Uint8Array) (offset : Z) (length : nat)
  : string :=
  match length with
  | O => EmptyString
  | S length' =>
      match u8_get buffer offset with
      | Some char =>
          if char =? 0 then EmptyString
          else String (fromCharCode char) (readStringFromBuffer buffer (offset + 1) length')
      | None => String Ascii.zero (readStringFromBuffer buffer (offset + 1) length')
      end
  end.

(** The loop of [getPNames]: [n] names remain, the next one is number
    [i]. *)
Fixpoint readNames (pnames : Uint8Array) (n : nat) (i : Z) (names : list string)
  : list string :=
  match n with
  | O => names
  | S n' =>
      let offset := 4 + i * 8 in
      let name := trim (readStringFromBuffer pnames offset 8) in
      readNames pnames n' (i + 1) (names ++ [name])
  end.

Definition getPNames (w : t) : result (list string) :=
  pnames ← getLumpData w "PNAMES";
  match pnames with
  | None => Ok []
  | Some pnames =>
      view ← newDataView (u8_buffer pnames) (u8_byteOffset pnames) (u8_length pnames);
      count ← getInt32 view 0;
      Ok (readNames pnames (Z.to_nat count) 0 [])
  end.

(** The inner loop of [parseTextureData]; [pnames[i]] is [undefined] for an
    index outside the list. *)
Fixpoint readPatches (view : DataView) (pnames : list string) (offset : Z)
    (n : nat) (p : Z) (patches : list PatchRef) : result (list PatchRef) :=
  match n with
  | O => Ok patches
  | S n' =>
      let patchOffset := offset + 22 + p * 10 in
      originX ← getInt16 view patchOffset;
      originY ← getInt16 view (patchOffset + 2);
      index ← getInt16 view (patchOffset + 4);
      readPatches view pnames offset n' (p + 1)
        (patches ++ [mkPatchRef originX originY (array_get pnames index)])
  end.

(** The outer loop of [parseTextureData]; [textures] is the [Map] from
    names to definitions. *)
Fixpoint parseTextures (data : Uint8Array) (view : DataView) (pnames : list string)
    (n : nat) (i : Z) (textures : gmap string TextureDef)
  : result (gmap string TextureDef) :=
  match n with
  | O => Ok textures
  | S n' =>
      offset ← getInt32 view (4 + i * 4);
      let name := trim (readStringFromBuffer data offset 8) in
      width ← getInt16 view (offset + 12);
      height ← getInt16 view (offset + 14);
      patchCount ← getInt16 view (offset + 20);
      patches ← readPatches view pnames offset (Z.to_nat patchCount) 0 [];
      parseTextures data view pnames n' (i + 1)
        (<[name := mkTextureDef name width height patches]> textures)
  end.

Definition parseTextureData (data : Uint8Array) (pnames : list string)
    (textures : gmap string TextureDef) : result (gmap string TextureDef) :=
  view ← newDataView (u8_buffer data) (u8_byteOffset data) (u8_length data);
  numTextures ← getInt32 view 0;
  parseTextures data view pnames (Z.to_nat numTextures) 0 textures.

Definition getTextures (w : t) : result (gmap string TextureDef) :=
  pnames ← getPNames w;
  texture1Data ← getLumpData w "TEXTURE1";
  textures ← match texture1Data with
             | Some data => parseTextureData data pnames ∅
             | None => Ok ∅
             end;
  texture2Data ← getLumpData w "TEXTURE2";
  match texture2Data with
  | Some data => parseTextureData data pnames textures
  | None => Ok textures
  end.

(** The string of [n] characters of code 0. *)
Fixpoint nulString (n : nat) : string :=
  match n with
  | O => EmptyString
  | S n' => String Ascii.zero (nulString n')
  end.

(** Every patch name of a texture definition is one of [pnames]. *)
Definition patchesFrom (pnames : list string) (def : TextureDef) : Prop :=
  Forall (fun ref => forall name, patch ref = Some name -> name ∈ pnames) (patches def).

End WADParser.

(** ** mapRenderer.js *)

Module MapRenderer.
Import WADParser.

(** A collision line. The object pushed for a solid wall has the four
    coordinates only: its [isDoor] is [undefined], which every use tests for
    truth, hence [false] here; its [special] and [linedefIndex] are absent. *)
Record CollisionLine : Type := mkCollisionLine {
  x1 : Z; y1 : Z; x2 : Z; y2 : Z;
  isDoor : bool;
  line_special : JSValue;
  linedefIndex : option nat
}.

Record Vector2 : Type := mkVector2 { v2_x : Z; v2_y : Z }.

#[global] Instance Vector2_eq_dec : EqDecision Vector2.
Proof. solve_decision. Defined.

Record FloorSector : Type := mkFloorSector {
  sectorIndex : nat;
  polygon : list Vector2;
  fs_floorHeight : Z;
  fs_ceilingHeight : Z
}.

Definition doorTypes : list Z := [1; 26; 27; 28; 29; 31; 32; 33; 34; 46; 117; 118; 119].

Definition solidLine (v1 v2 : Vertex) : CollisionLine :=
  mkCollisionLine (vertex_x v1) (vertex_y v1) (vertex_x v2) (vertex_y v2)
    false JSUndefined None.

Definition doorLine (v1 v2 : Vertex) (linedef : Linedef) (i : nat) : CollisionLine :=
  mkCollisionLine (vertex_x v1) (vertex_y v1) (vertex_x v2) (vertex_y v2)
    true (Linedef_prop linedef "special") (Some i).

(** One turn of the loop of [buildWalls], for linedef number [i]. The calls
    to [createWall] add meshes to the scene and do not touch
    [collisionLines]; they are left out. Reading [.sector] of a sidedef
    that does not exist throws. *)
Definition wallStep (m : Map) (i : nat) (linedef : Linedef)
    (collisionLines : list CollisionLine) : result (list CollisionLine) :=
  match array_get (vertexes m) (startVertex linedef),
        array_get (vertexes m) (endVertex linedef) with
  | Some v1, Some v2 =>
      let isTwoSided := negb (backSidedef linedef =? -1) in
      if negb (frontSidedef linedef =? -1) then
        match array_get (sidedefs m) (frontSidedef linedef) with
        | None => Throw TypeError
        | Some sidedef =>
            match array_get (sectors m) (sector sidedef) with
            | None => Ok collisionLines
            | Some sector =>
                if isTwoSided && negb (backSidedef linedef =? -1) then
                  match array_get (sidedefs m) (backSidedef linedef) with
                  | None => Throw TypeError
                  | Some backSidedef =>
                      match array_get (sectors m) (WADParser.sector backSidedef) with
                      | None => Ok collisionLines
                      | Some backSector =>
                          if includes doorTypes (Linedef_prop linedef "special")
                          then Ok (collisionLines ++ [doorLine v1 v2 linedef i])
                          else Ok collisionLines
                      end
                  end
                else Ok (collisionLines ++ [solidLine v1 v2])
            end
        end
      else Ok collisionLines
  | _, _ => Ok collisionLines
  end.

Fixpoint buildWallsFrom (m : Map) (i : nat) (rest : list Linedef)
    (collisionLines : list CollisionLine) : result (list CollisionLine) :=
  match rest with
  | [] => Ok collisionLines
  | linedef :: rest' =>
      collisionLines' ← wallStep m i linedef collisionLines;
      buildWallsFrom m (S i) rest' collisionLines'
  end.

(** [buildWalls()], started on the empty [collisionLines] of the
    constructor. *)
Definition buildWalls (m : Map) : result (list CollisionLine) :=
  buildWallsFrom m 0 (linedefs m) [].

(** *** Sector polygons *)

Record SectorLine : Type := mkSectorLine {
  sl_linedef : Linedef;
  sl_index : nat;
  forward : bool
}.

Definition sideOf (m : Map) (sectorIndex : Z) (side : Z) : bool :=
  if side =? -1 then false
  else match array_get (sidedefs m) side with
       | Some sidedef => sector sidedef =? sectorIndex
       | None => false
       end.

Fixpoint collectSectorLines (m : Map) (sectorIndex : Z) (i : nat)
    (rest : list Linedef) : list SectorLine :=
  match rest with
  | [] => []
  | linedef :: rest' =>
      (if sideOf m sectorIndex (frontSidedef linedef)
       then [mkSectorLine linedef i true] else []) ++
      (if sideOf m sectorIndex (backSidedef linedef)
       then [mkSectorLine linedef i false] else []) ++
      collectSectorLines m sectorIndex (S i) rest'
  end.

Definition lineStartV (line : SectorLine) : Z :=
  if forward line then startVertex (sl_linedef line) else endVertex (sl_linedef line).

Definition lineEndV (line : SectorLine) : Z :=
  if forward line then endVertex (sl_linedef line) else startVertex (sl_linedef line).

Definition toVector2 (v : Vertex) : Vector2 := mkVector2 (vertex_x v) (vertex_y v).

(** The variables of the chaining loop. *)
Record Chain : Type := mkChain {
  points : list Vector2;
  used : gset nat;
  currentEndVertex : Z;
  iterations : nat
}.

(** The inner [for] loop: the first line, from number [i] on, that is not
    used and starts at [currentEndVertex]. *)
Fixpoint findNext (rest : list SectorLine) (i : nat) (used : gset nat)
    (currentEndVertex : Z) : option (nat * SectorLine) :=
  match rest with
  | [] => None
  | line :: rest' =>
      if bool_decide (i ∈ used) then findNext rest' (S i) used currentEndVertex
      else if lineStartV line =? currentEndVertex then Some (i, line)
      else findNext rest' (S i) used currentEndVertex
  end.

(** The body of the [while] loop after [iterations++]; [None] is the
    [break] taken when no line connects. *)
Definition chainBody (m : Map) (sectorLines : list SectorLine) (c : Chain)
  : option Chain :=
  match findNext sectorLines 0 (used c) (currentEndVertex c) with
  | Some (i, line) =>
      let points' :=
        match array_get (vertexes m) (lineStartV line) with
        | Some v => points c ++ [toVector2 v]
        | None => points c
        end in
      Some (mkChain points' ({[i]} ∪ used c) (lineEndV line) (iterations c))
  | None => None
  end.

Definition chainGuard (sectorLines : list SectorLine) (c : Chain) : bool :=
  (size (used c) <? length sectorLines)%nat &&
  (iterations c <? length sectorLines * 2)%nat.

Definition tick (c : Chain) : Chain :=
  mkChain (points c) (used c) (currentEndVertex c) (S (iterations c)).

(** [while (used.size < sectorLines.length && iterations < maxIterations)];
    running out of [fuel] stands for a loop that does not end. *)
Fixpoint chainLoop (fuel : nat) (m : Map) (sectorLines : list SectorLine)
    (c : Chain) : result Chain :=
  match fuel with
  | O => Diverge
  | S fuel' =>
      if chainGuard sectorLines c then
        match chainBody m sectorLines (tick c) with
        | Some c' => chainLoop fuel' m sectorLines c'
        | None => Ok (tick c)
        end
      else Ok c
  end.

(** The vertices of the lines without repetition of a coordinate pair, in
    the order of first occurrence (the [Map] keyed by the string "x,y"). *)
Fixpoint uniqueVertices (m : Map) (rest : list SectorLine) (acc : list Vector2)
  : list Vector2 :=
  match rest with
  | [] => acc
  | line :: rest' =>
      let add (o : option Vertex) (acc : list Vector2) :=
        match o with
        | Some v => if bool_decide (toVector2 v ∈ acc) then acc else acc ++ [toVector2 v]
        | None => acc
        end in
      let acc1 := add (array_get (vertexes m) (startVertex (sl_linedef line))) acc in
      let acc2 := add (array_get (vertexes m) (endVertex (sl_linedef line))) acc1 in
      uniqueVertices m rest' acc2
  end.

Section Polygons.

(** [points.sort] by [Math.atan2] of the offset from the centroid: a
    permutation computed in floating point, kept abstract. *)
Variable sortByAngle : list Vector2 -> list Vector2.

Definition getSectorPolygonFallback (m : Map) (sectorLines : list SectorLine)
  : list Vector2 :=
  let points := uniqueVertices m sectorLines [] in
  if (2 <? length points)%nat then sortByAngle points else points.

(** The chaining loop as [getSectorPolygon] starts it: line 0 is used, the
    chain holds its first vertex. *)
Definition chainStart (startV : Vertex) (currentLine : SectorLine) : Chain :=
  mkChain [toVector2 startV] {[0%nat]} (lineEndV currentLine) 0.

Definition getSectorPolygonWith (fuel : nat) (m : Map) (sectorIndex : Z)
  : result (list Vector2) :=
  let sectorLines := collectSectorLines m sectorIndex 0 (linedefs m) in
  match sectorLines with
  | [] => Ok []
  | currentLine :: _ =>
      match array_get (vertexes m) (lineStartV currentLine) with
      | None => Ok []
      | Some startV =>
          c ← chainLoop fuel m sectorLines (chainStart startV currentLine);
          if (length (points c) <? 3)%nat
          then Ok (getSectorPolygonFallback m sectorLines)
          else Ok (points c)
      end
  end.

(** [getSectorPolygon(sectorIndex)]: the loop is given one turn more than
    [maxIterations]. *)
Definition getSectorPolygon (m : Map) (sectorIndex : Z) : result (list Vector2) :=
  getSectorPolygonWith
    (S (length (collectSectorLines m sectorIndex 0 (linedefs m)) * 2)) m sectorIndex.

(** The [floorSectors] part of [buildFloorsAndCeilings]; the meshes built by
    [createSectorFloorCeiling] are left out. *)
Fixpoint buildFloorSectorsFrom (m : Map) (i : nat) (rest : list Sector)
    (floorSectors : list FloorSector) : result (list FloorSector) :=
  match rest with
  | [] => Ok floorSectors
  | sector :: rest' =>
      polygon ← getSectorPolygon m (Z.of_nat i);
      if (length polygon <? 3)%nat
      then buildFloorSectorsFrom m (S i) rest' floorSectors
      else buildFloorSectorsFrom m (S i) rest'
             (floorSectors ++
                [mkFloorSector i polygon (floorHeight sector) (ceilingHeight sector)])
  end.

Definition buildFloorSectors (m : Map) : result (list FloorSector) :=
  buildFloorSectorsFrom m 0 (sectors m) [].

End Polygons.



(** *** Notions used to state the properties of the map renderer *)



(** A point of the map that is an end of one of the lines. *)
Definition endOfLines (m : Map) (sectorLines : list SectorLine) (p : Vector2) : Prop :=
  exists line v,
    line ∈ sectorLines /\
    (array_get (vertexes m) (startVertex (sl_linedef line)) = Some v \/
     array_get (vertexes m) (endVertex (sl_linedef line)) = Some v) /\
    p = toVector2 v.

#[global] Instance JSValue_eq_dec : EqDecision JSValue.
Proof. solve_decision. Defined.

#[global] Instance CollisionLine_eq_dec : EqDecision CollisionLine.
Proof. solve_decision. Defined.

End MapRenderer.

(** ** game.js *)

Module Game.
Import WADParser MapRenderer.

Local Open Scope Q_scope.

(** [a < b] on numbers *)
Definition Qltb (a b : Q) : bool := negb (Qle_bool b a).

Record Vector3 : Type := mkVector3 { px : Q; py : Q; pz : Q }.

Record Player : Type := mkPlayer {
  position : Vector3;
  verticalVelocity : Q;
  onGround : bool
}.

(** [player.height] and [player.radius], set by the constructor and never
    assigned again. *)
Definition height : Q := 41.
Definition radius : Q := 16.

Record t : Type := mkGame {
  player : Player;
  collisionLines : list CollisionLine;
  floorSectors : list FloorSector;
  mapData : option Map
}.

(** The object literal returned by [getCurrentSector]. *)
Record SectorInfo : Type := mkSectorInfo {
  floorHeight : Z;
  ceilingHeight : Z;
  si_sectorIndex : nat
}.

Definition infoOf (floorSector : FloorSector) : SectorInfo :=
  mkSectorInfo (fs_floorHeight floorSector) (fs_ceilingHeight floorSector)
    (sectorIndex floorSector).

(** *** Point location *)

(** [intersect] for the edge from [polygon[i]] to [polygon[j]]. *)
Definition intersect (x y : Q) (pi pj : Vector2) : bool :=
  let xi := inject_Z (v2_x pi) in
  let yi := inject_Z (v2_y pi) in
  let xj := inject_Z (v2_x pj) in
  let yj := inject_Z (v2_y pj) in
  negb (eqb (Qltb y yi) (Qltb y yj)) &&
  Qltb x ((xj - xi) * (y - yi) / (yj - yi) + xi).

(** [for (let i = 0, j = polygon.length - 1; i < polygon.length; j = i++)]:
    [rest] are the points from [polygon[i]] on, [pj] is [polygon[j]]. *)
Fixpoint pointInPolygonFrom (x y : Q) (rest : list Vector2) (pj : Vector2)
    (inside : bool) : bool :=
  match rest with
  | [] => inside
  | pi :: rest' =>
      pointInPolygonFrom x y rest' pi
        (if intersect x y pi pj then negb inside else inside)
  end.

Definition pointInPolygon (x y : Q) (polygon : list Vector2) : bool :=
  match last polygon with
  | Some pl => pointInPolygonFrom x y polygon pl false
  | None => false
  end.

Definition sumBy (f : Vector2 -> Z) (polygon : list Vector2) : Q :=
  fold_left (fun c p => c + inject_Z (f p)) polygon 0.

(** The centre [(cx, cy)] of a polygon; [None] is the [NaN] that [0 / 0]
    gives for a polygon without points. *)
Definition centre (polygon : list Vector2) : option (Q * Q) :=
  match polygon with
  | [] => None
  | _ =>
      let n := inject_Z (Z.of_nat (length polygon)) in
      Some (sumBy v2_x polygon / n, sumBy v2_y polygon / n)
  end.

(** The source compares [dist = Math.sqrt(d)] with [minDist]; the square
    root is increasing, so the embedding compares the squares [d]. *)
Definition dist2 (x y cx cy : Q) : Q := (x - cx) ^ 2 + (y - cy) ^ 2.

(** The fallback loop; [minDist2 = None] is the initial [Infinity], and a
    [NaN] distance is smaller than nothing. *)
Fixpoint nearestFrom (x y : Q) (rest : list FloorSector)
    (nearestSector : option SectorInfo) (minDist2 : option Q) : option SectorInfo :=
  match rest with
  | [] => nearestSector
  | floorSector :: rest' =>
      match centre (polygon floorSector) with
      | None => nearestFrom x y rest' nearestSector minDist2
      | Some (cx, cy) =>
          let d := dist2 x y cx cy in
          if match minDist2 with None => true | Some m => Qltb d m end
          then nearestFrom x y rest' (Some (infoOf floorSector)) (Some d)
          else nearestFrom x y rest' nearestSector minDist2
      end
  end.

Definition getCurrentSector (g : t) : option SectorInfo :=
  let x := px (position (player g)) in
  let y := - pz (position (player g)) in
  match List.find (fun floorSector => pointInPolygon x y (polygon floorSector))
          (floorSectors g) with
  | Some floorSector => Some (infoOf floorSector)
  | None => nearestFrom x y (floorSectors g) None None
  end.

Definition findNearestSector (g : t) : option SectorInfo := getCurrentSector g.

(** *** Collision *)

Definition circleLineCollision (cx cy radius x1 y1 x2 y2 : Q) : bool :=
  let dx := x2 - x1 in
  let dy := y2 - y1 in
  let length2 := dx * dx + dy * dy in
  if Qeq_bool length2 0 then
    let d := (cx - x1) * (cx - x1) + (cy - y1) * (cy - y1) in
    Qltb d (radius * radius)
  else
    let t := ((cx - x1) * dx + (cy - y1) * dy) / length2 in
    let t := Qmax 0 (Qmin 1 t) in
    let closestX := x1 + t * dx in
    let closestY := y1 + t * dy in
    let d := (cx - closestX) * (cx - closestX) + (cy - closestY) * (cy - closestY) in
    Qltb d (radius * radius).

Definition checkCollision (g : t) (position : Vector3) : bool :=
  existsb (fun line =>
             circleLineCollision (px position) (- pz position) radius
               (inject_Z (x1 line)) (inject_Z (y1 line))
               (inject_Z (x2 line)) (inject_Z (y2 line)))
    (collisionLines g).

(** *** Movement *)

Definition setPosition (g : t) (p : Vector3) : t :=
  mkGame (mkPlayer p (verticalVelocity (player g)) (onGround (player g)))
    (collisionLines g) (floorSectors g) (mapData g).

Definition setPlayer (g : t) (p : Player) : t :=
  mkGame p (collisionLines g) (floorSectors g) (mapData g).

Definition withY (p : Vector3) (y : Q) : Vector3 := mkVector3 (px p) y (pz p).

Definition updatePlayerHeight (g : t) : t :=
  match mapData g with
  | None => g
  | Some _ =>
      let p := player g in
      match getCurrentSector g with
      | None =>
          match findNearestSector g with
          | None => g
          | Some nearestSector =>
              let floorHeight := inject_Z (floorHeight nearestSector) in
              let minY := floorHeight + height in
              if Qltb (py (position p)) minY
              then setPlayer g (mkPlayer (withY (position p) minY) (verticalVelocity p) true)
              else g
          end
      | Some sector =>
          let floorHeight := inject_Z (floorHeight sector) in
          let ceilingHeight := inject_Z (ceilingHeight sector) in
          let maxStepHeight := 24 in
          let currentFloorHeight := py (position p) - height in
          let heightDiff := floorHeight - currentFloorHeight in
          let minHeadRoom := 56 in
          if Qltb (ceilingHeight - floorHeight) minHeadRoom then g
          else
            let p1 :=
              if Qle_bool (Qabs heightDiff) maxStepHeight then
                let targetY := floorHeight + height in
                if Qle_bool targetY ceilingHeight
                then mkPlayer (withY (position p) targetY) 0 true
                else p
              else if Qltb heightDiff 0 then
                mkPlayer (position p) (verticalVelocity p) false
              else p in
            let minY := floorHeight + height in
            if Qltb (py (position p1)) minY
            then setPlayer g (mkPlayer (withY (position p1) minY) 0 true)
            else setPlayer g p1
      end
  end.

(** The wall-sliding part of [movePlayer]: the position after the
    collision tests, before [updatePlayerHeight]. *)
Definition slide (g : t) (moveVector : Vector3) : t :=
  let pos := position (player g) in
  let newPosition :=
    mkVector3 (px pos + px moveVector) (py pos + py moveVector) (pz pos + pz moveVector) in
  if negb (checkCollision g newPosition) then setPosition g newPosition
  else
    let xOnly := mkVector3 (px pos + px moveVector) (py pos) (pz pos) in
    let g1 := if negb (checkCollision g xOnly) then setPosition g xOnly else g in
    let pos1 := position (player g1) in
    let zOnly := mkVector3 (px pos1) (py pos1) (pz pos1 + pz moveVector) in
    if negb (checkCollision g1 zOnly) then setPosition g1 zOnly else g1.

Definition movePlayer (g : t) (moveVector : Vector3) : t :=
  updatePlayerHeight (slide g moveVector).

(** *** Floor height under a point *)

(** The fallback loop of [getFloorHeightAt], as [nearestFrom]. *)
Fixpoint nearestFloorFrom (x y : Q) (rest : list FloorSector)
    (nearestFloor : Z) (minDist2 : option Q) : Z :=
  match rest with
  | [] => nearestFloor
  | floorSector :: rest' =>
      match centre (polygon floorSector) with
      | None => nearestFloorFrom x y rest' nearestFloor minDist2
      | Some (cx, cy) =>
          let d := dist2 x y cx cy in
          if match minDist2 with None => true | Some m => Qltb d m end
          then nearestFloorFrom x y rest' (fs_floorHeight floorSector) (Some d)
          else nearestFloorFrom x y rest' nearestFloor minDist2
      end
  end.

Definition getFloorHeightAt (g : t) (x y : Q) : Z :=
  match List.find (fun floorSector => pointInPolygon x y (polygon floorSector))
          (floorSectors g) with
  | Some floorSector => fs_floorHeight floorSector
  | None => nearestFloorFrom x y (floorSectors g) 0%Z None
  end.

(** *** Gravity *)

Definition land (p : Player) (y : Q) : Player :=
  mkPlayer (withY (position p) y) 0 true.

(** [applyVerticalMovement(delta)] *)
Definition applyVerticalMovement (g : t) (delta : Q) : t :=
  let p := player g in
  let ABSOLUTE_MIN_HEIGHT := 0 in
  if match mapData g with None => true | Some _ => false end
     && (length (floorSectors g) =? 0)%nat
  then
    let minY := height in
    if Qltb (py (position p)) minY then setPlayer g (land p minY) else g
  else
    let sector := getCurrentSector g in
    let floorHeight :=
      match sector with Some s => inject_Z (floorHeight s) | None => ABSOLUTE_MIN_HEIGHT end in
    let ceilingHeight :=
      match sector with Some s => inject_Z (ceilingHeight s) | None => 512 end in
    let p1 :=
      mkPlayer (withY (position p) (py (position p) + verticalVelocity p * delta))
        (verticalVelocity p) (onGround p) in
    let minY := floorHeight + height in
    let p2 :=
      if Qle_bool (py (position p1)) minY then land p1 minY
      else mkPlayer (position p1) (verticalVelocity p1) false in
    let maxY := ceilingHeight - 4 in
    let p3 :=
      if Qle_bool maxY (py (position p2))
      then mkPlayer (withY (position p2) maxY) 0 (onGround p2)
      else p2 in
    let p4 := if Qltb (py (position p3)) minY then land p3 minY else p3 in
    let p5 :=
      if Qltb (py (position p4)) (ABSOLUTE_MIN_HEIGHT + height)
      then land p4 (Qmax minY (ABSOLUTE_MIN_HEIGHT + height))
      else p4 in
    setPlayer g p5.

(** *** Doors *)

(** The loop of [tryOpenDoor] over the collision lines; [closestDist2 = None]
    is the initial [Infinity]. As in [nearestFrom], distances are compared
    by their squares: [distToLine > useRange] is [d > 64 * 64]. *)
Fixpoint closestDoorFrom (playerX playerY dirX dirY : Q) (rest : list CollisionLine)
    (closestDoor : option CollisionLine) (closestDist2 : option Q)
  : option CollisionLine :=
  match rest with
  | [] => closestDoor
  | line :: rest' =>
      if negb (isDoor line)
      then closestDoorFrom playerX playerY dirX dirY rest' closestDoor closestDist2
      else
        let lineCenterX := (inject_Z (x1 line) + inject_Z (x2 line)) / 2 in
        let lineCenterY := (inject_Z (y1 line) + inject_Z (y2 line)) / 2 in
        let d := (playerX - lineCenterX) ^ 2 + (playerY - lineCenterY) ^ 2 in
        if Qltb (64 * 64) d
        then closestDoorFrom playerX playerY dirX dirY rest' closestDoor closestDist2
        else
          let toLineX := lineCenterX - playerX in
          let toLineY := lineCenterY - playerY in
          let dot := dirX * toLineX + dirY * toLineY in
          if Qltb dot 0
          then closestDoorFrom playerX playerY dirX dirY rest' closestDoor closestDist2
          else if match closestDist2 with None => true | Some m => Qltb d m end
          then closestDoorFrom playerX playerY dirX dirY rest' (Some line) (Some d)
          else closestDoorFrom playerX playerY dirX dirY rest' closestDoor closestDist2
  end.

(** [lines.splice(lines.indexOf(line), 1)] *)
Fixpoint removeFirst (line : CollisionLine) (lines : list CollisionLine)
  : list CollisionLine :=
  match lines with
  | [] => []
  | l :: lines' => if bool_decide (l = line) then lines' else l :: removeFirst line lines'
  end.

(** [tryOpenDoor()], for a player who faces the direction
    [(dirX, dirY) = (Math.sin(angle), -Math.cos(angle))]; the facing angle and
    its sine and cosine are not part of the embedding. *)
Definition tryOpenDoor (dirX dirY : Q) (g : t) : t :=
  match mapData g with
  | None => g
  | Some _ =>
      let playerX := px (position (player g)) in
      let playerY := - pz (position (player g)) in
      match closestDoorFrom playerX playerY dirX dirY (collisionLines g) None None with
      | Some closestDoor =>
          mkGame (player g) (removeFirst closestDoor (collisionLines g))
            (floorSectors g) (mapData g)
      | None => g
      end
  end.

(** *** Loading a map *)


(** *** A frame *)

(** [player.gravity] *)
Definition gravity : Q := 800.

(** [this.player.verticalVelocity -= this.player.gravity * delta] *)
Definition applyGravity (g : t) (delta : Q) : t :=
  let p := player g in
  setPlayer g (mkPlayer (position p) (verticalVelocity p - gravity * delta) (onGround p)).

(** [update(delta)] on the state of the embedding. What the keys, the
    mouse and the facing angle contribute is given: [openDoor] tells whether
    the space bar triggers [tryOpenDoor] in this frame, [(dirX, dirY)] is the
    facing direction, and [moveVector] is the scaled and rotated move, [None]
    when no movement key is down. The camera, the sprites and the position
    display do not feed back into this state. *)
Definition update (isPaused openDoor : bool) (dirX dirY : Q)
    (moveVector : option Vector3) (delta : Q) (g : t) : t :=
  if isPaused then g
  else
    let g := if openDoor then tryOpenDoor dirX dirY g else g in
    let g := applyGravity g delta in
    let g := match moveVector with
             | Some moveVector => movePlayer g moveVector
             | None => g
             end in
    applyVerticalMovement g delta.

(** *** Notions used to state the properties of the game loop *)



(** The floor under the player as point location sees it: the floor of
    the current sector, 0 when there is none. *)
Definition floorUnder (g : t) : Q :=
  match getCurrentSector g with
  | Some sector => inject_Z (floorHeight sector)
  | None => 0
  end.

(** The player overlaps no collision line. *)
Definition clear (g : t) : Prop := checkCollision g (position (player g)) = false.




(** The axis-aligned rectangle with corners [(x0, y0)] and [(x1, y1)]. *)
Definition rectangle (x0 y0 x1 y1 : Z) : list Vector2 :=
  [mkVector2 x0 y0; mkVector2 x1 y0; mkVector2 x1 y1; mkVector2 x0 y1].



(** The horizontal position that applying each axis component on its own
    test from the position before the move would give. *)
Definition independentSlide (g : t) (moveVector : Vector3) : Q * Q :=
  let pos := position (player g) in
  let xOnly := mkVector3 (px pos + px moveVector) (py pos) (pz pos) in
  let zOnly := mkVector3 (px pos) (py pos) (pz pos + pz moveVector) in
  (if checkCollision g xOnly then px pos else px pos + px moveVector,
   if checkCollision g zOnly then pz pos else pz pos + pz moveVector).

End Game.

(** ** Concrete inputs *)

(** ** mapRenderer.js: the floor under a thing *)

Module Things.
Import WADParser MapRenderer.

Local Open Scope Q_scope.

(** [pointInPolygon(x, y, polygon)] of the map renderer has the text of the
    game's. *)
Definition pointInPolygon (x y : Q) (polygon : list Vector2) : bool :=
  Game.pointInPolygon x y polygon.

Section Polygons.
Variable sortByAngle : list Vector2 -> list Vector2.

(** The loop of [getFloorHeightAt] from sector [i] on; [first] is
    [sectors[0]], whose floor is the default. *)
Fixpoint floorHeightFrom (m : Map) (x y : Q) (i : nat) (rest : list Sector)
    (first : Sector) : result Z :=
  match rest with
  | [] => Ok (floorHeight first)
  | sector :: rest' =>
      polygon ← getSectorPolygon sortByAngle m (Z.of_nat i);
      if (3 <=? length polygon)%nat && pointInPolygon x y polygon
      then Ok (floorHeight sector)
      else floorHeightFrom m x y (S i) rest' first
  end.

(** [getFloorHeightAt(x, y)], which places the things of the map. *)
Definition getFloorHeightAt (m : Map) (x y : Q) : result Z :=
  match sectors m with
  | [] => Ok 0%Z
  | first :: _ => floorHeightFrom m x y 0 (sectors m) first
  end.

End Polygons.

End Things.

(** ** musicPlayer.js *)

Module MusicPlayer.

(** ToInt32, which every operand of a bit operation goes through. *)
Definition int32 (z : Z) : Z := toSigned 32 (z mod 2 ^ 32).

(** [x & y], [x | y], [x >> n] and [x << n] on numbers *)
Definition band (x y : Z) : Z := Z.land (int32 x) (int32 y).
Definition bor (x y : Z) : Z := Z.lor (int32 x) (int32 y).
Definition sar (x n : Z) : Z := Z.shiftr (int32 x) n.
Definition shl (x n : Z) : Z := int32 (Z.shiftl (int32 x) n).

(** [musData[i]] as an operand of a bit operation, where [undefined]
    counts as 0, and where a guard [pos < musData.length] has established
    that the element exists. *)
Definition elem (musData : Uint8Array) (i : Z) : Z := default 0 (u8_get musData i).

(** The [while (value > 0)] loop of [writeVarLen]; each turn shifts a
    positive 32-bit number right by 7. *)
Fixpoint varLenLoop (fuel : nat) (value : Z) (bytes : list Z) : result (list Z) :=
  match fuel with
  | O => Diverge
  | S fuel' =>
      if 0 <? value
      then varLenLoop fuel' (sar value 7) (bytes ++ [bor (band value 127) 128])
      else Ok bytes
  end.

(** [writeVarLen(buffer, value)]; the final loop pushes [bytes] in reverse.
    A delay is a number that the source accumulates in a double; the
    embedding takes it as the exact integer, which it is below 2^53. *)
Definition writeVarLen (buffer : list Z) (value : Z) : result (list Z) :=
  if value <? 128 then Ok (buffer ++ [value])
  else
    bytes ← varLenLoop 32 (sar value 7) [band value 127];
    Ok (buffer ++ rev bytes).

Definition channelMap : list Z := [0; 1; 2; 3; 4; 5; 6; 7; 8; 10; 11; 12; 13; 14; 15].

(** [channelMap[channel] || 0] *)
Definition midiChannelOf (channel : Z) : Z := default 0 (array_get channelMap channel).

(** The [switch] on the event type: the bytes pushed and the position after
    the event. *)
Definition event (musData : Uint8Array) (eventDesc : Z) (midi : list Z) (pos : Z)
  : result (list Z * Z) :=
  let len := u8_length musData in
  let eventType := band (sar eventDesc 4) 7 in
  let channel := band eventDesc 15 in
  let midiChannel := midiChannelOf channel in
  if eventType =? 0 then
    if pos <? len
    then Ok (midi ++ [bor 128 midiChannel; elem musData pos; 64], pos + 1)
    else Ok (midi, pos)
  else if eventType =? 1 then
    if pos <? len then
      let note := elem musData pos in
      let pos := pos + 1 in
      if negb (band note 128 =? 0)
      then Ok (midi ++ [bor 144 midiChannel; band note 127; band (elem musData pos) 127],
               pos + 1)
      else Ok (midi ++ [bor 144 midiChannel; band note 127; band 127 127], pos)
    else Ok (midi, pos)
  else if eventType =? 2 then
    if pos <? len
    then Ok (midi ++ [bor 224 midiChannel; 0; elem musData pos], pos + 1)
    else Ok (midi, pos)
  else if eventType =? 3 then
    if pos <? len then Ok (midi, pos + 1) else Ok (midi, pos)
  else if eventType =? 4 then
    if pos + 1 <? len
    then Ok (midi ++ [bor 176 midiChannel; elem musData pos; elem musData (pos + 1)],
             pos + 2)
    else Ok (midi, pos)
  else if eventType =? 6 then
    midi ← writeVarLen midi 0;
    Ok (midi ++ [255; 47; 0], len)
  else Ok (midi, pos).

(** The [do ... while] loop that reads a delay. *)
Fixpoint readDelay (fuel : nat) (musData : Uint8Array) (pos delay : Z)
  : result (Z * Z) :=
  match fuel with
  | O => Diverge
  | S fuel' =>
      let byte := elem musData pos in
      let pos := pos + 1 in
      let delay := delay * 128 + band byte 127 in
      if (pos <? u8_length musData) && negb (band byte 128 =? 0)
      then readDelay fuel' musData pos delay
      else Ok (pos, delay)
  end.

(** The [while (pos < musData.length)] loop over the events. *)
Fixpoint events (fuel : nat) (musData : Uint8Array) (midi : list Z) (pos deltaTime : Z)
  : result (list Z) :=
  match fuel with
  | O => Diverge
  | S fuel' =>
      if pos <? u8_length musData then
        match u8_get musData pos with
        | None => Ok midi
        | Some eventDesc =>
            let pos := pos + 1 in
            let last := negb (band eventDesc 128 =? 0) in
            midi ← writeVarLen midi deltaTime;
            '(midi, pos) ← event musData eventDesc midi pos;
            if last && (pos <? u8_length musData) then
              '(pos, delay) ← readDelay (Z.to_nat (u8_length musData)) musData pos 0;
              events fuel' musData midi pos delay
            else events fuel' musData midi pos 0
        end
      else Ok midi
  end.

Definition midiHeader : list Z := [77; 84; 104; 100; 0; 0; 0; 6; 0; 0; 0; 1; 0; 70].

Definition trackHeader : list Z := [77; 84; 114; 107; 0; 0; 0; 0].

Definition validHeader (musData : Uint8Array) : bool :=
  bool_decide (u8_get musData 0 = Some 77) && bool_decide (u8_get musData 1 = Some 85) &&
  bool_decide (u8_get musData 2 = Some 83) && bool_decide (u8_get musData 3 = Some 26).

(** [convertMusToMidi(musData)]; the result is the content of the
    [Uint8Array] made of [midi], and [None] is [null]. Nothing in the [try]
    block throws. *)
Definition convertMusToMidi (musData : Uint8Array) : result (option (list Z)) :=
  if negb (validHeader musData) then Ok None
  else
    let scoreStart := bor (elem musData 6) (shl (elem musData 7) 8) in
    let midi := midiHeader in
    let trackStartPos := length midi in
    let midi := midi ++ trackHeader in
    let trackDataStart := Z.of_nat (length midi) in
    midi ← events (S (Z.to_nat (u8_length musData))) musData midi scoreStart 0;
    let trackLength := Z.of_nat (length midi) - trackDataStart in
    let midi := <[(trackStartPos + 4)%nat := band (sar trackLength 24) 255]> midi in
    let midi := <[(trackStartPos + 5)%nat := band (sar trackLength 16) 255]> midi in
    let midi := <[(trackStartPos + 6)%nat := band (sar trackLength 8) 255]> midi in
    let midi := <[(trackStartPos + 7)%nat := band trackLength 255]> midi in
    Ok (Some (map (fun z => z mod 256) midi)).

(** *** Notions used to state the properties of the converter *)

(** The number that a MIDI variable-length quantity stands for. *)
Definition varLenValue (bytes : list Z) : Z :=
  fold_left (fun value byte => value * 128 + Z.land byte 127) bytes 0.

(** A variable-length quantity: bit 7 is set in every byte but the
    last. *)
Fixpoint varLen (bytes : list Z) : Prop :=
  match bytes with
  | [] => False
  | [byte] => 0 <= byte < 128
  | byte :: bytes' => 128 <= byte < 256 /\ varLen bytes'
  end.

(** A 32-bit length, most significant byte first. *)
Definition be32 (n : Z) : list Z :=
  [(n / 16777216) mod 256; (n / 65536) mod 256; (n / 256) mod 256; n mod 256].

End MusicPlayer.

Module Samples.
Import WADParser.

(** Whether a value is there, as a boolean. *)
Definition is_Some_b {A} (o : option A) : bool :=
  match o with Some _ => true | None => false end.

(** Bytes of a buffer given by their values. *)
Definition bytes (l : list Z) : ArrayBuffer :=
  map (fun z => default "000"%byte (Byte.of_N (Z.to_N z))) l.

(** A 32-bit little-endian field. *)
Definition le32 (z : Z) : list Z :=
  let u := z mod 2 ^ 32 in
  [u mod 256; (u / 256) mod 256; (u / 65536) mod 256; (u / 16777216) mod 256].

(** A 16-bit little-endian field. *)
Definition le16 (z : Z) : list Z :=
  let u := z mod 2 ^ 16 in [u mod 256; (u / 256) mod 256].

(** An 8-byte, NUL-padded name. *)
Definition name8 (s : string) : list Z :=
  let l := map (fun a => Z.of_N (N_of_ascii a)) (list_ascii_of_string s) in
  take 8 (l ++ replicate 8 0).

Definition header (tag : string) (numLumps directoryOffset : Z) : list Z :=
  take 4 (map (fun a => Z.of_N (N_of_ascii a)) (list_ascii_of_string tag))
  ++ le32 numLumps ++ le32 directoryOffset.

Definition entry (offset size : Z) (name : string) : list Z :=
  le32 offset ++ le32 size ++ name8 name.

(** A container whose directory names the lump "A" twice. *)
Definition duplicateWad : ArrayBuffer :=
  bytes (header "PWAD" 2 12 ++ entry 0 4 "A" ++ entry 4 8 "A").

(** A 28-byte container whose single entry names bytes 1000 .. 1767. *)
Definition danglingWad : ArrayBuffer :=
  bytes (header "IWAD" 1 12 ++ entry 1000 768 "PLAYPAL").

(** A container whose header announces -1 lumps. *)
Definition negativeCountWad : ArrayBuffer :=
  bytes (header "IWAD" (-1) 12).

(** A map block whose THINGS lump has 15 bytes: one record and a half. *)
Definition truncatedThings : ArrayBuffer :=
  bytes (le16 1 ++ le16 2 ++ le16 90 ++ le16 1 ++ le16 7 ++ [3; 0; 4; 0; 5]).

Definition truncatedThingsLumps : list Lump :=
  [mkLump "E1M1" 0 0; mkLump "THINGS" 0 15].


(** A container with a PLAYPAL lump of 768 bytes, byte [k] of which is
    [k mod 256]. *)
Definition paletteWad : ArrayBuffer :=
  bytes (header "IWAD" 1 780 ++ map (fun k => k mod 256) (upto 768)
         ++ entry 12 768 "PLAYPAL").

(** A patch of one column and one row whose only run has two pixels,
    both of palette index 7: header (width 1, height 1, origin 0 0), one
    column offset 12, the run (row 0, count 2, pad, 7, 7, pad), the end
    mark 255. *)
Definition clippedPatchData : ArrayBuffer :=
  bytes (le16 1 ++ le16 1 ++ le16 0 ++ le16 0 ++ le32 12
         ++ [0; 2; 0; 7; 7; 0; 255]).

Definition clippedPatch : Patch :=
  mkPatch 1 1 0 0 [12] (mkUint8Array clippedPatchData 0 19).

(** The same run in a patch of one column and three rows. *)
Definition fittingPatchData : ArrayBuffer :=
  bytes (le16 1 ++ le16 3 ++ le16 0 ++ le16 0 ++ le32 12
         ++ [0; 2; 0; 7; 7; 0; 255]).

Definition fittingPatch : Patch :=
  mkPatch 1 3 0 0 [12] (mkUint8Array fittingPatchData 0 19).

(** A map of one square sector, 64 units wide, with four one-sided
    walls. *)
Definition squareMap : Map :=
  mkMap "E1M1" []
    [mkLinedef 0 1 1 0 0 0 (-1); mkLinedef 1 2 1 0 0 1 (-1);
     mkLinedef 2 3 1 0 0 2 (-1); mkLinedef 3 0 1 0 0 3 (-1)]
    [mkSidedef 0 0 "-" "-" "WALL" 0; mkSidedef 0 0 "-" "-" "WALL" 0;
     mkSidedef 0 0 "-" "-" "WALL" 0; mkSidedef 0 0 "-" "-" "WALL" 0]
    [mkVertex 0 0; mkVertex 64 0; mkVertex 64 64; mkVertex 0 64]
    [mkSector 0 128 "FLOOR" "CEIL" 160 0 0]
    [] [] [].

(** A LINEDEFS lump of one record: a two-sided line from vertex 0 to
    vertex 1 whose line type is 1 (a door), front sidedef 0, back
    sidedef 1. *)
Definition doorLinedefs : ArrayBuffer :=
  bytes (le16 0 ++ le16 1 ++ le16 4 ++ le16 1 ++ le16 0 ++ le16 0 ++ le16 1).

Definition doorLumps : list Lump := [mkLump "E1M1" 0 0; mkLump "LINEDEFS" 0 14].

(** The map around that line: two sectors, one on each side. *)
Definition doorMap : Map :=
  mkMap "E1M1" []
    [mkLinedef 0 1 4 1 0 0 1]
    [mkSidedef 0 0 "DOOR" "-" "-" 0; mkSidedef 0 0 "DOOR" "-" "-" 1]
    [mkVertex 0 0; mkVertex 64 0]
    [mkSector 0 128 "FLOOR" "CEIL" 160 0 0; mkSector 0 0 "FLOOR" "CEIL" 160 0 0]
    [] [] [].

(** A square room, 200 units wide around the origin, with a short
    one-sided wall from (20, 20) to (40, 40) inside it. *)
Definition cornerMap : Map :=
  mkMap "E1M1" []
    [mkLinedef 0 1 1 0 0 0 (-1); mkLinedef 1 2 1 0 0 1 (-1);
     mkLinedef 2 3 1 0 0 2 (-1); mkLinedef 3 0 1 0 0 3 (-1);
     mkLinedef 4 5 1 0 0 4 (-1)]
    [mkSidedef 0 0 "-" "-" "WALL" 0; mkSidedef 0 0 "-" "-" "WALL" 0;
     mkSidedef 0 0 "-" "-" "WALL" 0; mkSidedef 0 0 "-" "-" "WALL" 0;
     mkSidedef 0 0 "-" "-" "WALL" 0]
    [mkVertex (-100) (-100); mkVertex 100 (-100); mkVertex 100 100;
     mkVertex (-100) 100; mkVertex 20 20; mkVertex 40 40]
    [mkSector 0 128 "FLOOR" "CEIL" 160 0 0]
    [] [] [].

(** The game after [loadMap] for map [m], with the player brought to
    [position], at rest on the ground. On the maps below every polygon is
    chained from its edges, so that the angle sort of the fallback is not
    reached. *)
Definition loaded (m : Map) (position : Game.Vector3) : Game.t :=
  Game.mkGame (Game.mkPlayer position 0%Q true)
    (match MapRenderer.buildWalls m with Ok l => l | _ => [] end)
    (match MapRenderer.buildFloorSectors (fun points => points) m with
     | Ok l => l | _ => [] end)
    (Some m).

(** The player stands in the middle of [cornerMap]. *)
Definition cornerGame : Game.t := loaded cornerMap (Game.mkVector3 0 41 0)%Q.

(** A step of 20 units along x and 20 units along map y (z is -y). *)
Definition cornerMove : Game.Vector3 := (Game.mkVector3 20 0 (-20))%Q.


(** The player inside the region of [squareMap], whose floor is at 0: 16
    units above the floor, and 40 units above it. *)
Definition stepGame : Game.t := loaded squareMap (Game.mkVector3 32 57 (-32))%Q.

(** The player inside the region of [squareMap], 41 units below the
    height at which he stands on its floor. *)
Definition sunkGame : Game.t := loaded squareMap (Game.mkVector3 32 0 (-32))%Q.




(** A picture of one opaque pixel. *)
Definition dotPicture : Picture := mkPicture 1 1 [7; 7; 7; 255].

(** A texture of two by two pixels with the patch "P1" at (1, 1) and a
    patch that the directory does not have at (0, 0). *)
Definition cornerTexture : TextureDef :=
  mkTextureDef "CORNER" 2 2 [mkPatchRef 1 1 (Some "P1"); mkPatchRef 0 0 (Some "P2")].

(** A score of two events, play note 60 on channel 0 and end of music,
    after a MUS header of 16 bytes. *)
Definition scoreData : Uint8Array :=
  let data := bytes ([77; 85; 83; 26] ++ le16 3 ++ le16 16 ++ le16 1
                     ++ [0; 0; 0; 0; 0; 0] ++ [16; 60; 96]) in
  mkUint8Array data 0 19.

(** A container whose only lump is the four bytes of music "D_E1M1". *)
Definition musicWad : ArrayBuffer :=
  bytes (header "IWAD" 1 16 ++ [77; 85; 83; 26] ++ entry 12 4 "D_E1M1").

(** A container with flats between the markers F_START and F_END, and a
    lump after them. *)
Definition flatsWad : ArrayBuffer :=
  bytes (header "PWAD" 5 12 ++ entry 0 0 "F_START" ++ entry 0 0 "FLOOR1"
         ++ entry 0 0 "FLOOR2" ++ entry 0 0 "F_END" ++ entry 0 0 "OTHER").

(** A container whose PNAMES lump has 12 bytes: a count of 2 and the
    single name "P1", so that the second name lies past the end of the
    lump. *)
Definition pnamesWad : ArrayBuffer :=
  bytes (header "PWAD" 1 24 ++ le32 2 ++ name8 "P1" ++ entry 12 12 "PNAMES").

(** A container whose TEXTURE1 lump defines "CORNER", two by two pixels,
    with the patches number 0 at (1, 1) and number 5 at (0, 0), of which
    PNAMES names the first only. *)
Definition texturesWad : ArrayBuffer :=
  bytes (header "PWAD" 2 74
         ++ le32 1 ++ name8 "P1"
         ++ le32 1 ++ le32 8
         ++ name8 "CORNER" ++ le32 0 ++ le16 2 ++ le16 2 ++ le32 0 ++ le16 2
         ++ le16 1 ++ le16 1 ++ le16 0 ++ le16 1 ++ le16 0
         ++ le16 0 ++ le16 0 ++ le16 5 ++ le16 1 ++ le16 0
         ++ entry 12 12 "PNAMES" ++ entry 24 50 "TEXTURE1").

(** A container whose only lump, "P1", is the patch of
    [clippedPatchData]. *)
Definition patchWad : ArrayBuffer :=
  bytes (header "PWAD" 1 31
         ++ le16 1 ++ le16 1 ++ le16 0 ++ le16 0 ++ le32 12 ++ [0; 2; 0; 7; 7; 0; 255]
         ++ entry 12 19 "P1").

(** A container whose only lump, "FLOOR", has 4096 bytes, byte [k] of
    which is [k mod 256]. *)
Definition flatWad : ArrayBuffer :=
  bytes (header "IWAD" 1 4108 ++ map (fun k => k mod 256) (upto 4096)
         ++ entry 12 4096 "FLOOR").

(** A container with two maps, each with a VERTEXES lump: one vertex
    (3, 4) for E1M1, and for E1M2 the 8 bytes from offset 12 on. *)
Definition twoMapsWad : ArrayBuffer :=
  bytes (header "PWAD" 4 16 ++ le16 3 ++ le16 4
         ++ entry 0 0 "E1M1" ++ entry 12 4 "VERTEXES"
         ++ entry 0 0 "E1M2" ++ entry 12 8 "VERTEXES").

End Samples.

(** * Properties *)

(** ** The runtime fragment *)

Lemma bind_Ok_inv {A B} (c : result A) (k : A -> result B) (b : B) :
  c ≫= k = Ok b -> exists a, c = Ok a /\ k a = Ok b.
Proof. destruct c as [a| |]; simpl; intros H; try discriminate. eauto. Qed.

Lemma bind_Throw {A B} (c : result A) (k : A -> result B) (e : exn) :
  c = Throw e -> c ≫= k = Throw e.
Proof. intros ->. reflexivity. Qed.

(** Inverts the hypotheses [c ≫= k = Ok b] one bind at a time. *)
Ltac inv_bind :=
  repeat match goal with
  | H : _ ≫= _ = Ok _ |- _ =>
      let a := fresh "a" in
      let Ha := fresh "Ha" in
      apply bind_Ok_inv in H; destruct H as (a & Ha & H)
  | H : Ok _ = Ok _ |- _ => injection H as H
  end.

Lemma byteValue_range b : (0 <= byteValue b < 256)%Z.
Proof.
  unfold byteValue. pose proof (Byte.to_N_bounded b). lia.
Qed.

Lemma byteAt_range buffer i : (0 <= byteAt buffer i < 256)%Z.
Proof. apply byteValue_range. Qed.

Lemma rangeOnly_bind {A B} (c : result A) (k : A -> result B) :
  rangeOnly c -> (forall a, rangeOnly (k a)) -> rangeOnly (c ≫= k).
Proof. destruct c; simpl; auto. Qed.

(** A sequence whose first part behaves and whose continuation always
    fails with [RangeError] fails with [RangeError]. *)
Lemma bind_fails_later {A B} (c : result A) (k : A -> result B) :
  rangeOnly c -> (forall a, k a = Throw RangeError) -> c ≫= k = Throw RangeError.
Proof. destruct c; simpl; auto; try congruence. intros []. Qed.

Lemma rangeOnly_Throw {A} (r : result A) :
  rangeOnly r -> (forall a, r <> Ok a) -> r = Throw RangeError.
Proof. destruct r; simpl; intros H Hn; [destruct (Hn a eq_refl) | congruence | destruct H]. Qed.

Lemma getUint8_rangeOnly v i : rangeOnly (getUint8 v i).
Proof. unfold getUint8. destruct (inView v i 1); simpl; auto. Qed.

Lemma getInt16_rangeOnly v i : rangeOnly (getInt16 v i).
Proof. unfold getInt16. destruct (inView v i 2); simpl; auto. Qed.

Lemma getInt32_rangeOnly v i : rangeOnly (getInt32 v i).
Proof. unfold getInt32. destruct (inView v i 4); simpl; auto. Qed.

Lemma getInt16_outside v i :
  (dv_byteLength v < i + 2)%Z -> getInt16 v i = Throw RangeError.
Proof.
  intros H. unfold getInt16, inView.
  destruct (0 <=? i)%Z; simpl; [|reflexivity].
  destruct (Z.leb_spec (i + 2) (dv_byteLength v)); [lia | reflexivity].
Qed.

Lemma getInt32_Ok_inView v i z :
  getInt32 v i = Ok z -> (0 <= i /\ i + 4 <= dv_byteLength v)%Z.
Proof.
  unfold getInt32, inView. intros H.
  destruct (Z.leb_spec 0 i); simpl in H; [|discriminate].
  destruct (Z.leb_spec (i + 4) (dv_byteLength v)); [lia | discriminate].
Qed.

Lemma newDataView_rangeOnly buffer o n : rangeOnly (newDataView buffer o n).
Proof. unfold newDataView. destruct (_ && _); simpl; auto. Qed.

Lemma newDataView_Ok buffer o n v :
  newDataView buffer o n = Ok v ->
  v = mkDataView buffer o n /\ (0 <= o /\ 0 <= n /\ o + n <= Z.of_nat (length buffer))%Z.
Proof.
  unfold newDataView. intros H.
  destruct (Z.leb_spec 0 o); simpl in H; [|discriminate].
  destruct (Z.leb_spec 0 n); simpl in H; [|discriminate].
  destruct (Z.leb_spec (o + n) (Z.of_nat (length buffer))); simpl in H; [|discriminate].
  injection H as <-. auto.
Qed.

Create HintDb range.

#[global] Hint Resolve getUint8_rangeOnly getInt16_rangeOnly getInt32_rangeOnly
  newDataView_rangeOnly : range.

Module WADParserFacts.
Import WADParser Samples.

Lemma readString_rangeOnly v n : forall offset, rangeOnly (readString v offset n).
Proof.
  induction n as [|n IH]; intros offset; simpl; [exact I|].
  apply rangeOnly_bind; [apply getUint8_rangeOnly|]. intros c.
  destruct (c =? 0)%Z; [exact I|].
  apply rangeOnly_bind; [apply IH|]. intros; exact I.
Qed.

#[local] Hint Resolve readString_rangeOnly : range.

(** Proves [rangeOnly] of a chain of reads. *)
Ltac range_only :=
  repeat first
    [ exact I
    | solve [auto with range]
    | apply rangeOnly_bind; [ | intros ? ] ].

(** Proves that a chain of reads throws [RangeError] when its last read
    lies outside the view. *)
Ltac fails_at_end :=
  repeat first
    [ apply bind_Throw; apply getInt16_outside; lia
    | apply bind_fails_later; [ solve [range_only] | intros ? ] ].

Lemma parseDirectory_inv v n : forall offset ls m ls' m',
  parseDirectory v n offset ls m = Ok (ls', m') ->
  exists new,
    ls' = ls ++ new /\ length new = n /\ m' = index m new /\
    forall (i : nat) l, new !! i = Some l ->
      getInt32 v (offset + 16 * Z.of_nat i) = Ok (lump_offset l) /\
      getInt32 v (offset + 16 * Z.of_nat i + 4) = Ok (lump_size l).
Proof.
  induction n as [|n IH]; intros offset ls m ls' m' H; simpl in H.
  - injection H as <- <-. exists []. rewrite app_nil_r.
    split; [reflexivity|]. split; [reflexivity|]. split; [reflexivity|].
    intros i l Hi. rewrite lookup_nil in Hi. discriminate.
  - inv_bind. apply IH in H as (new & -> & Hlen & -> & Hrd).
    eexists (_ :: new). rewrite <- app_assoc. simpl.
    split; [reflexivity|]. split; [lia|]. split; [reflexivity|].
    intros [|i] l Hi; simpl in Hi.
    + injection Hi as <-. simpl. rewrite Z.add_0_r. auto.
    + apply Hrd in Hi. replace (offset + 16 * Z.of_nat (S i))%Z
        with (offset + 16 + 16 * Z.of_nat i)%Z by lia. exact Hi.
Qed.

Lemma index_snoc m new l :
  index m (new ++ [l]) = <[lump_name l := l]> (index m new).
Proof. unfold index. rewrite foldl_app. reflexivity. Qed.

Lemma index_lookup name new :
  index ∅ new !! name = last (List.filter (named name) new).
Proof.
  induction new as [|l new IH] using rev_ind.
  - reflexivity.
  - rewrite index_snoc, List.filter_app. simpl. unfold named at 2.
    destruct (String.eqb_spec (lump_name l) name) as [->|Hne].
    + rewrite lookup_insert_eq, last_snoc. reflexivity.
    + rewrite lookup_insert_ne by assumption. rewrite app_nil_r. exact IH.
Qed.

Lemma parse_inv arrayBuffer w :
  parse arrayBuffer = Ok w ->
  exists numLumps directoryOffset,
    getInt32 (view arrayBuffer) 4 = Ok numLumps /\
    getInt32 (view arrayBuffer) 8 = Ok directoryOffset /\
    buffer w = arrayBuffer /\
    parseDirectory (view arrayBuffer) (Z.to_nat numLumps) directoryOffset [] ∅
      = Ok (lumps w, lumpMap w).
Proof.
  unfold parse. intros H. inv_bind.
  destruct (negb (acceptedHeader a)); [discriminate|].
  inv_bind. destruct a2 as [ls m]. injection H as <-.
  exists a0, a1. simpl. auto.
Qed.

Lemma getLump_index arrayBuffer w name :
  parse arrayBuffer = Ok w ->
  getLump w name = last (List.filter (named name) (lumps w)).
Proof.
  intros H. apply parse_inv in H as (n & d & _ & _ & _ & H).
  apply parseDirectory_inv in H as (new & Hls & _ & Hm & _).
  simpl in Hls. unfold getLump. rewrite Hm, Hls. apply index_lookup.
Qed.

(** C2, as stated, fails: in a directory that names "A" twice the lookup
    does not return the first entry named "A". *)
Lemma getLump_not_first_match :
  exists w, parse duplicateWad = Ok w /\
    List.filter (named "A") (lumps w) = [mkLump "A" 0 4; mkLump "A" 4 8] /\
    firstMatch w "A" = Some (mkLump "A" 0 4) /\
    getLump w "A" = Some (mkLump "A" 4 8) /\
    getLump w "A" <> firstMatch w "A".
Proof.
  assert (H : (fun w => (List.filter (named "A") (lumps w), firstMatch w "A", getLump w "A"))
                <$> parse duplicateWad
              = Ok ([mkLump "A" 0 4; mkLump "A" 4 8],
                    Some (mkLump "A" 0 4), Some (mkLump "A" 4 8)))
    by (vm_compute; reflexivity).
  destruct (parse duplicateWad) as [w| |]; try discriminate.
  exists w. simpl in H. injection H as H1 H2 H3.
  rewrite H1, H2, H3. repeat split; try reflexivity. discriminate.
Qed.

(** C2 (amended). The lookup built by [parse] returns, for every name, the
    last directory entry bearing that name; the earlier entries of that
    name are reachable through the ordered directory [lumps] only. *)
Theorem getLump_last_match arrayBuffer w name :
  parse arrayBuffer = Ok w ->
  getLump w name = last (List.filter (named name) (lumps w)).
Proof. apply getLump_index. Qed.

Lemma getLump_last_match_witness :
  exists w, parse duplicateWad = Ok w /\
    getLump w "A" = last (List.filter (named "A") (lumps w)).
Proof.
  destruct (parse duplicateWad) as [w| |] eqn:E.
  - exists w. split; [reflexivity|]. exact (getLump_last_match duplicateWad w "A" E).
  - vm_compute in E. discriminate.
  - vm_compute in E. discriminate.
Defined.


(** *** Record decoders *)

Section Records.
Context {A : Type} (read : Z -> result A).

Lemma forRecords_rangeOnly recordSize :
  (forall offset, rangeOnly (read offset)) ->
  forall n i acc, rangeOnly (forRecords read recordSize n i acc).
Proof.
  intros Hr. induction n as [|n IH]; intros i acc; simpl; [exact I|].
  apply rangeOnly_bind; auto.
Qed.

(** If the read of record number [j] fails, and the loop reaches it, the
    loop fails. *)
Lemma forRecords_fails recordSize (j : Z) :
  (forall offset, rangeOnly (read offset)) ->
  read (j * recordSize)%Z = Throw RangeError ->
  forall n i acc, (i <= j < i + Z.of_nat n)%Z ->
    forRecords read recordSize n i acc = Throw RangeError.
Proof.
  intros Hr Hj. induction n as [|n IH]; intros i acc Hi; [lia|]. simpl.
  destruct (Z.eq_dec i j) as [->|Hne].
  - rewrite Hj. reflexivity.
  - apply bind_fails_later; [apply Hr|]. intros a. apply IH. lia.
Qed.

End Records.

(** The last turn of the loop starts a record that does not fit. *)
Lemma iterations_partial size recordSize :
  (0 < recordSize)%Z -> (0 < size)%Z -> (size mod recordSize <> 0)%Z ->
  let j := (size / recordSize)%Z in
  (0 <= j < 0 + Z.of_nat (iterations size recordSize))%Z /\
  (size < j * recordSize + recordSize)%Z.
Proof.
  intros Hrs Hsz Hmod j. unfold iterations.
  pose proof (Z.div_mod size recordSize ltac:(lia)) as Hdm.
  pose proof (Z.mod_pos_bound size recordSize Hrs) as Hb.
  assert (Hq : ((size + recordSize - 1) / recordSize = j + 1)%Z).
  { symmetry. apply (Z.div_unique _ _ _ (size mod recordSize - 1)); [lia|].
    subst j. lia. }
  rewrite Hq. assert (0 <= j)%Z by (apply Z.div_pos; lia).
  split; [lia|]. subst j. nia.
Qed.

Lemma parseRecords_rangeOnly {A} buffer mapLumps name recordSize
    (read : Lump -> DataView -> Z -> result A) :
  (forall lump v offset, rangeOnly (read lump v offset)) ->
  rangeOnly (parseRecords buffer mapLumps name recordSize read).
Proof.
  intros Hr. unfold parseRecords.
  destruct (findLump mapLumps name) as [lump|]; [|exact I].
  destruct (lump_size lump =? 0)%Z; [exact I|].
  apply rangeOnly_bind; [apply newDataView_rangeOnly|].
  intros v. apply forRecords_rangeOnly. apply Hr.
Qed.

Lemma parseRecords_truncated {A} buffer mapLumps name recordSize
    (read : Lump -> DataView -> Z -> result A) lump :
  (0 < recordSize)%Z ->
  (forall lump v offset, rangeOnly (read lump v offset)) ->
  (forall lump v offset, (dv_byteLength v < offset + recordSize)%Z ->
     read lump v offset = Throw RangeError) ->
  findLump mapLumps name = Some lump ->
  (lump_size lump mod recordSize <> 0)%Z ->
  parseRecords buffer mapLumps name recordSize read = Throw RangeError.
Proof.
  intros Hrs Hr Hout Hfind Hmod. unfold parseRecords. rewrite Hfind.
  destruct (Z.eqb_spec (lump_size lump) 0) as [E|Hnz].
  { rewrite E, Z.mod_0_l in Hmod by lia. congruence. }
  destruct (newDataView buffer (lump_offset lump) (lump_size lump)) as [v|e|] eqn:Ev.
  - apply newDataView_Ok in Ev as (-> & Ho & Hs & _). simpl.
    destruct (iterations_partial (lump_size lump) recordSize) as (Hj & Hlast); try lia.
    eapply forRecords_fails; [apply Hr| |exact Hj].
    apply Hout. simpl. lia.
  - pose proof (newDataView_rangeOnly buffer (lump_offset lump) (lump_size lump)) as H.
    rewrite Ev in H. simpl in H. subst e. reflexivity.
  - pose proof (newDataView_rangeOnly buffer (lump_offset lump) (lump_size lump)) as H.
    rewrite Ev in H. destruct H.
Qed.

Lemma readThing_rangeOnly v offset : rangeOnly (readThing v offset).
Proof. unfold readThing. range_only. Qed.

Lemma readThing_outside v offset :
  (dv_byteLength v < offset + 10)%Z -> readThing v offset = Throw RangeError.
Proof. intros H. unfold readThing. fails_at_end. Qed.

Lemma readLinedef_rangeOnly v offset : rangeOnly (readLinedef v offset).
Proof. unfold readLinedef. range_only. Qed.

Lemma readLinedef_outside v offset :
  (dv_byteLength v < offset + 14)%Z -> readLinedef v offset = Throw RangeError.
Proof. intros H. unfold readLinedef. fails_at_end. Qed.

Lemma readSidedef_rangeOnly buffer lump v offset :
  rangeOnly (readSidedef buffer lump v offset).
Proof. unfold readSidedef. range_only. Qed.

Lemma readSidedef_outside buffer lump v offset :
  (dv_byteLength v < offset + 30)%Z ->
  readSidedef buffer lump v offset = Throw RangeError.
Proof. intros H. unfold readSidedef. fails_at_end. Qed.

Lemma readVertex_rangeOnly v offset : rangeOnly (readVertex v offset).
Proof. unfold readVertex. range_only. Qed.

Lemma readVertex_outside v offset :
  (dv_byteLength v < offset + 4)%Z -> readVertex v offset = Throw RangeError.
Proof. intros H. unfold readVertex. fails_at_end. Qed.

Lemma readSector_rangeOnly buffer lump v offset :
  rangeOnly (readSector buffer lump v offset).
Proof. unfold readSector. range_only. Qed.

Lemma readSector_outside buffer lump v offset :
  (dv_byteLength v < offset + 26)%Z ->
  readSector buffer lump v offset = Throw RangeError.
Proof. intros H. unfold readSector. fails_at_end. Qed.

Lemma readSeg_rangeOnly v offset : rangeOnly (readSeg v offset).
Proof. unfold readSeg. range_only. Qed.

Lemma readSeg_outside v offset :
  (dv_byteLength v < offset + 12)%Z -> readSeg v offset = Throw RangeError.
Proof. intros H. unfold readSeg. fails_at_end. Qed.

Lemma readSSector_rangeOnly v offset : rangeOnly (readSSector v offset).
Proof. unfold readSSector. range_only. Qed.

Lemma readSSector_outside v offset :
  (dv_byteLength v < offset + 4)%Z -> readSSector v offset = Throw RangeError.
Proof. intros H. unfold readSSector. fails_at_end. Qed.

Lemma readBox_rangeOnly v offset : rangeOnly (readBox v offset).
Proof. unfold readBox. range_only. Qed.

#[local] Hint Resolve readBox_rangeOnly : range.

Lemma readNode_rangeOnly v offset : rangeOnly (readNode v offset).
Proof. unfold readNode. range_only. Qed.

Lemma readNode_outside v offset :
  (dv_byteLength v < offset + 28)%Z -> readNode v offset = Throw RangeError.
Proof. intros H. unfold readNode. fails_at_end. Qed.

Lemma decodeSubLump_rangeOnly k buffer mapLumps :
  rangeOnly (decodeSubLump k buffer mapLumps).
Proof.
  destruct k; simpl; apply rangeOnly_bind; try (intros; exact I);
    apply parseRecords_rangeOnly; intros;
    auto using readThing_rangeOnly, readLinedef_rangeOnly, readSidedef_rangeOnly,
      readVertex_rangeOnly, readSector_rangeOnly, readSeg_rangeOnly,
      readSSector_rangeOnly, readNode_rangeOnly.
Qed.

Lemma decodeSubLump_truncated k buffer mapLumps lump :
  findLump mapLumps (subLumpName k) = Some lump ->
  (lump_size lump mod recordSize k <> 0)%Z ->
  decodeSubLump k buffer mapLumps = Throw RangeError.
Proof.
  intros Hfind Hmod.
  destruct k; simpl in *; apply bind_Throw;
    eapply parseRecords_truncated; try exact Hfind; try exact Hmod; try lia; intros;
    auto using readThing_rangeOnly, readLinedef_rangeOnly, readSidedef_rangeOnly,
      readVertex_rangeOnly, readSector_rangeOnly, readSeg_rangeOnly,
      readSSector_rangeOnly, readNode_rangeOnly,
      readThing_outside, readLinedef_outside, readSidedef_outside,
      readVertex_outside, readSector_outside, readSeg_outside,
      readSSector_outside, readNode_outside.
Qed.

(** [decodeMap] runs the eight decoders one after the other. *)
Lemma decodeMap_Ok_inv buffer mapName mapLumps m :
  decodeMap buffer mapName mapLumps = Ok m ->
  forall k, exists n, decodeSubLump k buffer mapLumps = Ok n.
Proof.
  unfold decodeMap. intros H. inv_bind.
  intros []; simpl;
    match goal with
    | E : ?p = Ok _ |- context [?p] => rewrite E
    end; simpl; eauto.
Qed.

Lemma decodeMap_rangeOnly buffer mapName mapLumps :
  rangeOnly (decodeMap buffer mapName mapLumps).
Proof.
  unfold decodeMap.
  repeat (apply rangeOnly_bind;
          [ apply parseRecords_rangeOnly; intros;
            auto using readThing_rangeOnly, readLinedef_rangeOnly, readSidedef_rangeOnly,
              readVertex_rangeOnly, readSector_rangeOnly, readSeg_rangeOnly,
              readSSector_rangeOnly, readNode_rangeOnly
          | intros ? ]).
  exact I.
Qed.

(** C3, as stated, fails: a THINGS lump of 15 bytes (one record and a
    half) is not decoded to the empty sequence; the first record is read,
    the read of the second one throws [RangeError], and so do
    [parseThings] and the whole map load. *)
Lemma parseThings_truncated_throws :
  findLump truncatedThingsLumps "THINGS" = Some (mkLump "THINGS" 0 15) /\
  (15 mod recordSize THINGS <> 0)%Z /\
  readThing (mkDataView truncatedThings 0 15) 0 = Ok (mkThing 1 2 90 1 7) /\
  readThing (mkDataView truncatedThings 0 15) 10 = Throw RangeError /\
  parseThings truncatedThings truncatedThingsLumps = Throw RangeError /\
  parseThings truncatedThings truncatedThingsLumps <> Ok [] /\
  decodeMap truncatedThings "E1M1" truncatedThingsLumps = Throw RangeError.
Proof. vm_compute. repeat split; discriminate. Qed.

(** C3 (amended). When the sub-lump [k] of a map has a byte length that
    is not a multiple of its record size, its decoder throws [RangeError]
    (at the creation of the view when the lump does not lie in the file,
    otherwise at the read of the partial trailing record, after the
    complete records before it have been read); nothing degrades to an
    empty sequence, and the exception leaves the map load as well. *)
Theorem decodeSubLump_truncated_throws k buffer mapName mapLumps lump :
  findLump mapLumps (subLumpName k) = Some lump ->
  (lump_size lump mod recordSize k <> 0)%Z ->
  decodeSubLump k buffer mapLumps = Throw RangeError /\
  decodeMap buffer mapName mapLumps = Throw RangeError.
Proof.
  intros Hfind Hmod.
  pose proof (decodeSubLump_truncated k buffer mapLumps lump Hfind Hmod) as Hk.
  split; [exact Hk|].
  apply rangeOnly_Throw; [apply decodeMap_rangeOnly|].
  intros m Hm. destruct (decodeMap_Ok_inv _ _ _ _ Hm k) as (n & Hn). congruence.
Qed.

Lemma decodeSubLump_truncated_throws_witness :
  decodeSubLump THINGS truncatedThings truncatedThingsLumps = Throw RangeError /\
  decodeMap truncatedThings "E1M1" truncatedThingsLumps = Throw RangeError.
Proof.
  apply (decodeSubLump_truncated_throws THINGS truncatedThings "E1M1"
           truncatedThingsLumps (mkLump "THINGS" 0 15)).
  - reflexivity.
  - vm_compute. discriminate.
Defined.

(** *** Directory *)

(** C4, as stated, fails: the parser accepts a 28-byte container whose
    single entry names the bytes 1000 .. 1767. *)
Lemma parse_accepts_dangling_entry :
  exists w, parse danglingWad = Ok w /\
    length danglingWad = 28%nat /\
    lumps w = [mkLump "PLAYPAL" 1000 768] /\
    ~ Forall (inBuffer danglingWad) (lumps w).
Proof.
  assert (H : lumps <$> parse danglingWad = Ok [mkLump "PLAYPAL" 1000 768])
    by (vm_compute; reflexivity).
  destruct (parse danglingWad) as [w| |]; try discriminate.
  exists w. simpl in H. injection H as H. rewrite H.
  repeat split; try reflexivity.
  intros HF. apply Forall_inv in HF. unfold inBuffer in HF. simpl in HF. lia.
Qed.

(** The other half of C4 fails on a negative lump count: the directory is
    empty, of length 0 and not -1. *)
Lemma parse_accepts_negative_count :
  getInt32 (view negativeCountWad) 4 = Ok (-1)%Z /\
  lumps <$> parse negativeCountWad = Ok [].
Proof. vm_compute. split; reflexivity. Qed.

(** C4 (amended). For every container that the parser accepts, the
    directory has as many entries as the header's lump count, none when
    that count is negative, and the offset and length of entry [i] are the
    two 32-bit little-endian integers stored at bytes 0 and 4 of the [i]-th
    16-byte directory record, read from inside the file. The byte range
    that an entry names is not checked. *)
Theorem parse_directory arrayBuffer w :
  parse arrayBuffer = Ok w ->
  exists numLumps directoryOffset,
    getInt32 (view arrayBuffer) 4 = Ok numLumps /\
    getInt32 (view arrayBuffer) 8 = Ok directoryOffset /\
    Z.of_nat (length (lumps w)) = Z.max 0 numLumps /\
    forall (i : nat) l, lumps w !! i = Some l ->
      let record := (directoryOffset + 16 * Z.of_nat i)%Z in
      getInt32 (view arrayBuffer) record = Ok (lump_offset l) /\
      getInt32 (view arrayBuffer) (record + 4) = Ok (lump_size l) /\
      (0 <= record /\ record + 8 <= Z.of_nat (length arrayBuffer))%Z.
Proof.
  intros H. apply parse_inv in H as (n & d & Hn & Hd & _ & H).
  apply parseDirectory_inv in H as (new & Hls & Hlen & _ & Hrd).
  simpl in Hls. exists n, d. rewrite Hls.
  split; [exact Hn|]. split; [exact Hd|]. split; [lia|].
  intros i l Hi record. destruct (Hrd i l Hi) as (Ho & Hs).
  split; [exact Ho|]. split; [exact Hs|].
  apply getInt32_Ok_inView in Ho, Hs. simpl in Ho, Hs. subst record. lia.
Qed.

Lemma parse_directory_witness :
  exists w, parse duplicateWad = Ok w /\
  exists numLumps directoryOffset,
    getInt32 (view duplicateWad) 4 = Ok numLumps /\
    getInt32 (view duplicateWad) 8 = Ok directoryOffset /\
    Z.of_nat (length (lumps w)) = Z.max 0 numLumps /\
    forall (i : nat) l, lumps w !! i = Some l ->
      let record := (directoryOffset + 16 * Z.of_nat i)%Z in
      getInt32 (view duplicateWad) record = Ok (lump_offset l) /\
      getInt32 (view duplicateWad) (record + 4) = Ok (lump_size l) /\
      (0 <= record /\ record + 8 <= Z.of_nat (length duplicateWad))%Z.
Proof.
  destruct (parse duplicateWad) as [w| |] eqn:E.
  - exists w. split; [reflexivity|]. exact (parse_directory duplicateWad w E).
  - vm_compute in E. discriminate.
  - vm_compute in E. discriminate.
Defined.

(** *** Palette *)


Lemma upto_length n : length (upto n) = n.
Proof. unfold upto. rewrite length_map, length_seq. reflexivity. Qed.








End WADParserFacts.

(** ** Pictures *)

Module PictureFacts.
Import WADParser Samples.

Lemma getUint8_Ok v i z :
  getUint8 v i = Ok z -> (0 <= z < 256)%Z.
Proof.
  unfold getUint8. destruct (inView v i 1); intros H; [|discriminate].
  injection H as <-. apply byteAt_range.
Qed.

Lemma u8_store_length pixels i c : length (u8_store pixels i c) = length pixels.
Proof. unfold u8_store. destruct (0 <=? i)%Z; [apply length_insert | reflexivity]. Qed.

Lemma putPixel_length pixels o color : length (putPixel pixels o color) = length pixels.
Proof. destruct color as [[r g] b]. unfold putPixel. rewrite !u8_store_length. reflexivity. Qed.

Lemma u8_store_same pixels i c :
  (0 <= i < Z.of_nat (length pixels))%Z ->
  u8_store pixels i c !! Z.to_nat i = Some (c mod 256)%Z.
Proof.
  intros H. unfold u8_store. destruct (Z.leb_spec 0 i); [|lia].
  apply list_lookup_insert_eq. lia.
Qed.

Lemma u8_store_other pixels i j c :
  (0 <= j)%Z -> i <> j ->
  u8_store pixels i c !! Z.to_nat j = pixels !! Z.to_nat j.
Proof.
  intros Hj Hne. unfold u8_store. destruct (Z.leb_spec 0 i); [|reflexivity].
  apply list_lookup_insert_ne. lia.
Qed.

Lemma rgbaAt_putPixel_same pixels o color :
  (0 <= o)%Z -> (o + 3 < Z.of_nat (length pixels))%Z ->
  rgbaAt (putPixel pixels o color) o = Some (stored color).
Proof.
  intros Ho Hlen. destruct color as [[r g] b]. unfold rgbaAt, putPixel, stored.
  rewrite (u8_store_other _ (o + 3) o), (u8_store_other _ (o + 2) o),
    (u8_store_other _ (o + 1) o), u8_store_same by (rewrite ?u8_store_length; lia). simpl.
  rewrite (u8_store_other _ (o + 3) (o + 1)), (u8_store_other _ (o + 2) (o + 1)),
    u8_store_same by (rewrite ?u8_store_length; lia). simpl.
  rewrite (u8_store_other _ (o + 3) (o + 2)), u8_store_same
    by (rewrite ?u8_store_length; lia). simpl.
  rewrite u8_store_same by (rewrite ?u8_store_length; lia). reflexivity.
Qed.

Lemma rgbaAt_putPixel_other pixels o o' color :
  (0 <= o')%Z -> (o' + 4 <= o \/ o + 4 <= o')%Z ->
  rgbaAt (putPixel pixels o color) o' = rgbaAt pixels o'.
Proof.
  intros Ho Hd. destruct color as [[r g] b]. unfold rgbaAt, putPixel.
  rewrite !u8_store_other by lia. reflexivity.
Qed.

Lemma rgbaAt_replicate n o :
  (0 <= o)%Z -> (o + 3 < Z.of_nat n)%Z ->
  rgbaAt (replicate n 0%Z) o = Some (0, 0, 0, 0)%Z.
Proof.
  intros Ho Hn. unfold rgbaAt.
  rewrite !lookup_replicate_2 by lia. reflexivity.
Qed.

Section Column.
Context (v : DataView) (palette : Palette) (w h : Z).

#[local] Abbreviation columnPixel := (WADParser.columnPixel v palette).

Lemma pixelOffset_inside x y n :
  (0 <= x < w)%Z -> (0 <= y < h)%Z -> (Z.of_nat n = w * h * 4)%Z ->
  (0 <= pixelOffset w x y /\ pixelOffset w x y + 3 < Z.of_nat n)%Z.
Proof.
  unfold pixelOffset. intros Hx Hy ->.
  assert (0 <= y * w)%Z by (apply Z.mul_nonneg_nonneg; lia).
  assert ((y + 1) * w <= h * w)%Z by (apply Z.mul_le_mono_nonneg_r; lia).
  lia.
Qed.

Lemma pixelOffset_apart x y x' y' :
  (0 <= x < w)%Z -> (0 <= x' < w)%Z -> (0 <= y)%Z -> (0 <= y')%Z ->
  ~ (x' = x /\ y' = y) ->
  (pixelOffset w x' y' + 4 <= pixelOffset w x y \/ pixelOffset w x y + 4 <= pixelOffset w x' y')%Z.
Proof.
  unfold pixelOffset. intros Hx Hx' Hy Hy' Hne.
  destruct (Z.lt_trichotomy y y') as [Hlt|[->|Hgt]].
  - assert ((y + 1) * w <= y' * w)%Z by (apply Z.mul_le_mono_nonneg_r; lia). lia.
  - lia.
  - assert ((y' + 1) * w <= y * w)%Z by (apply Z.mul_le_mono_nonneg_r; lia). lia.
Qed.

(** What one run does to the picture. *)
Lemma drawRun_spec x rowStart start : forall n i pixels pixels',
  drawRun v palette w h x rowStart (Some start) n i pixels = Ok pixels' ->
  (0 <= x < w)%Z -> (0 <= rowStart + i)%Z ->
  (Z.of_nat (length pixels) = w * h * 4)%Z ->
  length pixels' = length pixels /\
  forall x' y', (0 <= x' < w)%Z -> (0 <= y' < h)%Z ->
    ((x' = x /\ rowStart + i <= y' < rowStart + i + Z.of_nat n)%Z ->
     exists paletteIndex color,
       getUint8 v (start + (y' - rowStart)) = Ok paletteIndex /\
       array_get palette paletteIndex = Some color /\
       rgbaAt pixels' (pixelOffset w x' y') = Some (stored color)) /\
    (~ (x' = x /\ rowStart + i <= y' < rowStart + i + Z.of_nat n)%Z ->
     rgbaAt pixels' (pixelOffset w x' y') = rgbaAt pixels (pixelOffset w x' y')).
Proof.
  induction n as [|n IH]; intros i pixels pixels' H Hx Hrow Hlen.
  - simpl in H. injection H as <-. split; [reflexivity|].
    intros x' y' Hx' Hy'. split; [lia | reflexivity].
  - simpl in H. apply bind_Ok_inv in H as (paletteIndex & Hidx & H).
    apply bind_Ok_inv in H as (pixels1 & Hput & H).
    assert (Hput' :
      length pixels1 = length pixels /\
      forall x' y', (0 <= x' < w)%Z -> (0 <= y' < h)%Z ->
        ((x' = x /\ y' = rowStart + i)%Z ->
         exists color, array_get palette paletteIndex = Some color /\
           rgbaAt pixels1 (pixelOffset w x' y') = Some (stored color)) /\
        (~ (x' = x /\ y' = rowStart + i)%Z ->
         rgbaAt pixels1 (pixelOffset w x' y') = rgbaAt pixels (pixelOffset w x' y'))).
    { destruct (Z.leb_spec 0 (rowStart + i)); [|lia]. simpl in Hput.
      destruct (Z.ltb_spec (rowStart + i) h) as [Hin|Hout].
      - destruct (array_get palette paletteIndex) as [color|]; [|discriminate].
        injection Hput as <-. split; [apply putPixel_length|].
        intros x' y' Hx' Hy'. split.
        + intros [-> ->]. exists color. split; [reflexivity|].
          apply rgbaAt_putPixel_same; eapply pixelOffset_inside; eauto.
        + intros Hne. apply rgbaAt_putPixel_other.
          * eapply pixelOffset_inside; eauto.
          * apply pixelOffset_apart; auto; lia.
      - injection Hput as <-. split; [reflexivity|].
        intros x' y' Hx' Hy'. split; [lia | reflexivity]. }
    destruct Hput' as (Hlen1 & Hpix1).
    apply IH in H as (Hlen' & Hpix'); [|assumption|lia|lia].
    split; [lia|].
    intros x' y' Hx' Hy'.
    destruct (Hpix1 x' y' Hx' Hy') as (Hhere & Hkeep).
    destruct (Hpix' x' y' Hx' Hy') as (Hlater & Hrest).
    split.
    + intros (-> & Hy).
      destruct (Z.eq_dec y' (rowStart + i)) as [->|Hny].
      * destruct Hhere as (color & Hc & Hrgba); [auto|].
        exists paletteIndex, color. split.
        { simpl in Hidx. replace (start + (rowStart + i - rowStart))%Z
            with (start + i)%Z by lia. exact Hidx. }
        split; [exact Hc|]. rewrite Hrest by lia. exact Hrgba.
      * apply Hlater. split; [reflexivity | lia].
    + intros Hout. rewrite Hrest by lia. apply Hkeep. lia.
Qed.

Lemma no_run_at_end offset y paletteIndex :
  getUint8 v offset = Ok 255%Z -> ~ Covers v offset y paletteIndex.
Proof.
  intros Hend (r & c & s & HR & _).
  inversion HR; subst; congruence.
Qed.

Lemma drawColumn_spec x : forall fuel offset pixels pixels',
  drawColumn fuel v palette w h x (Some offset) pixels = Ok pixels' ->
  (0 <= x < w)%Z ->
  (Z.of_nat (length pixels) = w * h * 4)%Z ->
  length pixels' = length pixels /\
  forall x' y', (0 <= x' < w)%Z -> (0 <= y' < h)%Z ->
    (x' = x ->
     columnPixel offset y' (rgbaAt pixels (pixelOffset w x' y')) (rgbaAt pixels' (pixelOffset w x' y'))) /\
    (x' <> x -> rgbaAt pixels' (pixelOffset w x' y') = rgbaAt pixels (pixelOffset w x' y')).
Proof.
  induction fuel as [|fuel IH]; intros offset pixels pixels' H Hx Hlen;
    [discriminate|].
  simpl in H. apply bind_Ok_inv in H as (rowStart & Hrow & H).
  destruct (Z.eqb_spec rowStart 255) as [->|Hrun].
  - injection H as <-. split; [reflexivity|].
    intros x' y' Hx' Hy'. split; [|reflexivity].
    intros _. right. split; [|reflexivity].
    intros paletteIndex. apply no_run_at_end. exact Hrow.
  - apply bind_Ok_inv in H as (pixelCount & Hcount & H).
    apply bind_Ok_inv in H as (pixels1 & Hdraw & H).
    simpl in Hcount, Hdraw, H.
    pose proof (getUint8_Ok _ _ _ Hrow) as Hr.
    pose proof (getUint8_Ok _ _ _ Hcount) as Hc.
    apply drawRun_spec in Hdraw as (Hlen1 & Hpix1); [|assumption|lia|assumption].
    apply IH in H as (Hlen' & Hpix'); [|assumption|lia].
    split; [lia|].
    intros x' y' Hx' Hy'.
    destruct (Hpix1 x' y' Hx' Hy') as (Hin & Hout).
    destruct (Hpix' x' y' Hx' Hy') as (Hcol & Hother).
    split.
    + intros ->. destruct (Hcol eq_refl) as [(idx & color & Hcov & Hpal & Hrgba)|(Hnone & Hsame)].
      * left. exists idx, color. split; [|auto].
        destruct Hcov as (r & c & s & HR & Hrange & Hread).
        exists r, c, s. split; [|auto].
        eapply run_later; eauto.
      * destruct (Z_le_dec rowStart y') as [Hle|Hnle];
          [destruct (Z_lt_dec y' (rowStart + pixelCount)) as [Hlt|Hnlt]|].
        -- left. destruct Hin as (idx & color & Hread & Hpal & Hrgba); [lia|].
           exists idx, color. split; [|split; [exact Hpal | congruence]].
           exists rowStart, pixelCount, (offset + 3)%Z.
           split; [apply run_here; auto|]. split; [lia | exact Hread].
        -- right. split; [|rewrite Hsame; apply Hout; lia].
           intros idx (r & c & s & HR & Hrange & Hread).
           inversion HR; subst.
           ++ assert (r = rowStart) by congruence.
              assert (c = pixelCount) by congruence. lia.
           ++ assert (pixelCount0 = pixelCount) by congruence. subst.
              apply (Hnone idx). exists r, c, s. auto.
        -- right. split; [|rewrite Hsame; apply Hout; lia].
           intros idx (r & c & s & HR & Hrange & Hread).
           inversion HR; subst.
           ++ assert (r = rowStart) by congruence. lia.
           ++ assert (pixelCount0 = pixelCount) by congruence. subst.
              apply (Hnone idx). exists r, c, s. auto.
    + intros Hne. rewrite (Hother Hne). apply Hout. lia.
Qed.

(** A column whose offset is not a number draws nothing when its loop
    ends: the byte at index 0 is then the end mark. *)
Lemma drawColumn_NaN x : forall fuel pixels pixels',
  drawColumn fuel v palette w h x None pixels = Ok pixels' ->
  getUint8 v 0 = Ok 255%Z /\ pixels' = pixels.
Proof.
  induction fuel as [|fuel IH]; intros pixels pixels' H; [discriminate|].
  simpl in H. apply bind_Ok_inv in H as (rowStart & Hrow & H).
  simpl in Hrow.
  destruct (Z.eqb_spec rowStart 255) as [->|Hrun].
  - injection H as <-. auto.
  - apply bind_Ok_inv in H as (pixelCount & Hcount & H).
    apply bind_Ok_inv in H as (pixels1 & Hdraw & H).
    simpl in H. apply IH in H as (Hend & _). congruence.
Qed.

Lemma drawColumn_any x fuel offset pixels pixels' :
  drawColumn fuel v palette w h x offset pixels = Ok pixels' ->
  (0 <= x < w)%Z ->
  (Z.of_nat (length pixels) = w * h * 4)%Z ->
  length pixels' = length pixels /\
  forall x' y', (0 <= x' < w)%Z -> (0 <= y' < h)%Z ->
    (x' = x ->
     columnPixel (toIndex offset) y'
       (rgbaAt pixels (pixelOffset w x' y')) (rgbaAt pixels' (pixelOffset w x' y'))) /\
    (x' <> x -> rgbaAt pixels' (pixelOffset w x' y') = rgbaAt pixels (pixelOffset w x' y')).
Proof.
  destruct offset as [offset|]; [apply drawColumn_spec|].
  intros H Hx Hlen. apply drawColumn_NaN in H as (Hend & ->).
  split; [reflexivity|]. intros x' y' Hx' Hy'. split; [|reflexivity].
  intros _. right. split; [|reflexivity].
  intros idx. apply no_run_at_end. exact Hend.
Qed.

Lemma drawColumns_spec fuel columnOffsets : forall n x pixels pixels',
  drawColumns fuel v palette w h columnOffsets n x pixels = Ok pixels' ->
  (0 <= x)%Z -> (x + Z.of_nat n <= w)%Z ->
  (Z.of_nat (length pixels) = w * h * 4)%Z ->
  length pixels' = length pixels /\
  forall x' y', (0 <= x' < w)%Z -> (0 <= y' < h)%Z ->
    ((x <= x' < x + Z.of_nat n)%Z ->
     columnPixel (toIndex (columnOffsets !! Z.to_nat x')) y'
       (rgbaAt pixels (pixelOffset w x' y')) (rgbaAt pixels' (pixelOffset w x' y'))) /\
    (~ (x <= x' < x + Z.of_nat n)%Z ->
     rgbaAt pixels' (pixelOffset w x' y') = rgbaAt pixels (pixelOffset w x' y')).
Proof.
  induction n as [|n IH]; intros x pixels pixels' H Hx Hn Hlen.
  - injection H as <-. split; [reflexivity|].
    intros x' y' Hx' Hy'. split; [lia | reflexivity].
  - simpl in H. apply bind_Ok_inv in H as (pixels1 & Hcol & H).
    apply drawColumn_any in Hcol as (Hlen1 & Hpix1); [|lia|assumption].
    apply IH in H as (Hlen' & Hpix'); [|lia|lia|lia].
    split; [lia|].
    intros x' y' Hx' Hy'.
    destruct (Hpix1 x' y' Hx' Hy') as (Hthis & Hother).
    destruct (Hpix' x' y' Hx' Hy') as (Hlater & Hrest).
    split.
    + intros Hin. destruct (Z.eq_dec x' x) as [->|Hne].
      * rewrite Hrest by lia. apply Hthis. reflexivity.
      * rewrite <- (Hother Hne). apply Hlater. lia.
    + intros Hout. rewrite Hrest by lia. apply Hother. lia.
Qed.

End Column.

Lemma renderPatch_inv patch palette pic :
  renderPatch (Some patch) palette = Ok (Some pic) ->
  let w := patch_width patch in
  let h := patch_height patch in
  pic_width pic = w /\ pic_height pic = h /\
  (0 <= w * h * 4)%Z /\
  exists fuel,
    drawColumns fuel (viewOf (data patch)) palette w h (columnOffsets patch)
      (Z.to_nat w) 0 (replicate (Z.to_nat (w * h * 4)) 0%Z) = Ok (pixels pic).
Proof.
  intros H w h. unfold renderPatch in H. fold w h in H.
  destruct (Z.ltb_spec (w * h * 4) 0) as [|Hsize]; [discriminate|].
  apply bind_Ok_inv in H as (v & Hv & H).
  apply newDataView_Ok in Hv as (-> & _).
  apply bind_Ok_inv in H as (pixels' & Hdraw & H).
  injection H as <-. simpl. repeat split; auto. eexists. exact Hdraw.
Qed.

Lemma stored_bytes palette paletteIndex color :
  bytePalette palette -> array_get palette paletteIndex = Some color ->
  stored color = (color, 255%Z).
Proof.
  intros Hb Hget. unfold array_get in Hget.
  destruct (0 <=? paletteIndex)%Z; [|discriminate].
  apply list_elem_of_lookup_2 in Hget.
  unfold bytePalette in Hb. rewrite Forall_forall in Hb. apply Hb in Hget.
  destruct color as [[r g] b]. destruct Hget as (Hr & Hg & Hbl).
  unfold stored, isByte in *. rewrite !Z.mod_small by lia. reflexivity.
Qed.

(** The pixels of a rendered patch, column by column. *)
Lemma renderPatch_pixels patch palette pic :
  renderPatch (Some patch) palette = Ok (Some pic) ->
  let w := patch_width patch in
  let h := patch_height patch in
  pic_width pic = w /\ pic_height pic = h /\
  Z.of_nat (length (pixels pic)) = (w * h * 4)%Z /\
  forall x y, (0 <= x < w)%Z -> (0 <= y < h)%Z ->
    columnPixel (viewOf (data patch)) palette
      (toIndex (columnOffsets patch !! Z.to_nat x)) y
      (Some (0, 0, 0, 0)%Z) (rgba pic x y).
Proof.
  intros H w h. apply renderPatch_inv in H as (Hw & Hh & Hsize & fuel & Hdraw).
  fold w h in Hw, Hh, Hsize, Hdraw.
  split; [exact Hw|]. split; [exact Hh|].
  destruct (Z_lt_dec 0 w) as [Hpos|Hneg].
  - apply drawColumns_spec in Hdraw as (Hlen & Hpix);
      [|lia|lia|rewrite length_replicate; lia].
    rewrite length_replicate in Hlen. split; [lia|].
    intros x y Hx Hy. destruct (Hpix x y Hx Hy) as (Hcol & _).
    unfold rgba. rewrite Hw. fold (pixelOffset w x y).
    destruct (pixelOffset_inside w h x y (Z.to_nat (w * h * 4)) Hx Hy) as (Ha & Hb); [lia|].
    rewrite <- (rgbaAt_replicate (Z.to_nat (w * h * 4)) (pixelOffset w x y)) by assumption.
    apply Hcol. lia.
  - replace (Z.to_nat w) with 0%nat in Hdraw by lia. simpl in Hdraw.
    injection Hdraw as <-. rewrite length_replicate. split; [lia|].
    intros x y Hx. lia.
Qed.

Lemma getUint8_inside v i z :
  getUint8 v i = Ok z -> (0 <= i /\ i + 1 <= dv_byteLength v)%Z.
Proof.
  unfold getUint8, inView. intros H.
  destruct (Z.leb_spec 0 i); simpl in H; [|discriminate].
  destruct (Z.leb_spec (i + 1) (dv_byteLength v)); [lia | discriminate].
Qed.

Lemma getUint8_between v i j k zi zk :
  getUint8 v i = Ok zi -> getUint8 v k = Ok zk -> (i <= j <= k)%Z ->
  exists zj, getUint8 v j = Ok zj.
Proof.
  intros Hi Hk Hj. apply getUint8_inside in Hi, Hk.
  unfold getUint8, inView.
  destruct (Z.leb_spec 0 j); [|lia].
  destruct (Z.leb_spec (j + 1) (dv_byteLength v)); [|lia].
  simpl. eauto.
Qed.

(** The rows covered in a column that holds one run only. *)
Lemma single_run_covers v offset rowStart pixelCount y :
  getUint8 v offset = Ok rowStart -> rowStart <> 255%Z ->
  getUint8 v (offset + 1) = Ok pixelCount ->
  getUint8 v (offset + 3 + (pixelCount + 1)) = Ok 255%Z ->
  (exists paletteIndex, Covers v offset y paletteIndex) <->
  (rowStart <= y < rowStart + pixelCount)%Z.
Proof.
  intros Hrow Hrun Hcount Hend. split.
  - intros (idx & r & c & s & HR & Hrange & _).
    inversion HR; subst.
    + assert (r = rowStart) by congruence.
      assert (c = pixelCount) by congruence. lia.
    + assert (pixelCount0 = pixelCount) by congruence. subst.
      exfalso. match goal with H : RunAt _ _ _ _ _ |- _ => inversion H; subst end;
        congruence.
  - intros Hrange.
    destruct (getUint8_between v offset (offset + 3 + (y - rowStart))
                (offset + 3 + (pixelCount + 1)) _ _ Hrow Hend) as (idx & Hidx); [lia|].
    exists idx, rowStart, pixelCount, (offset + 3)%Z.
    split; [apply run_here; auto|]. split; [lia | exact Hidx].
Qed.

(** C8, as stated, fails: in a patch of one column and one row, a single
    run of N = 2 pixels starting at row 0 decodes to one opaque pixel, not
    two; the second row of the run lies below the picture and is skipped
    by the test [y < patch.height]. *)
Lemma renderPatch_clips_run :
  let v := viewOf (data clippedPatch) in
  patch_width clippedPatch = 1%Z /\
  getUint8 v 12 = Ok 0%Z /\ getUint8 v 13 = Ok 2%Z /\ getUint8 v 18 = Ok 255%Z /\
  renderPatch (Some clippedPatch) getDefaultPalette
    = Ok (Some (mkPicture 1 1 [7; 7; 7; 255]%Z)) /\
  countOpaque [7; 7; 7; 255]%Z = 1%nat.
Proof. vm_compute. repeat split; reflexivity. Qed.

(** C8 (amended). For a palette of byte triples, the buffer that
    [renderPatch] returns holds exactly width x height RGBA pixels; a pixel
    of the picture whose row is covered by some run of its column has alpha
    255 and the RGB triple of the palette index of a run that covers it; a
    pixel whose row no run covers is 0 in all four bytes. In particular,
    when one column holds a single run of N pixels that starts at row
    [rowStart] and every other column is empty, the opaque pixels are
    exactly the pixels of that column in the rows [rowStart .. rowStart+N-1]
    that lie inside the picture: the rows of the run at or below the height
    are dropped. *)
Theorem renderPatch_decodes patch palette pic :
  bytePalette palette ->
  renderPatch (Some patch) palette = Ok (Some pic) ->
  let w := patch_width patch in
  let h := patch_height patch in
  let v := viewOf (data patch) in
  let column x := toIndex (columnOffsets patch !! Z.to_nat x) in
  (pic_width pic = w /\ pic_height pic = h /\
   Z.of_nat (length (pixels pic)) = (w * h * 4)%Z) /\
  (forall x y, (0 <= x < w)%Z -> (0 <= y < h)%Z ->
     ((exists paletteIndex, Covers v (column x) y paletteIndex) ->
      exists paletteIndex r g b,
        Covers v (column x) y paletteIndex /\
        array_get palette paletteIndex = Some (r, g, b) /\
        rgba pic x y = Some (r, g, b, 255%Z)) /\
     ((forall paletteIndex, ~ Covers v (column x) y paletteIndex) ->
      rgba pic x y = Some (0, 0, 0, 0)%Z)) /\
  (forall x0 offset rowStart N,
     (0 <= x0 < w)%Z ->
     columnOffsets patch !! Z.to_nat x0 = Some offset ->
     getUint8 v offset = Ok rowStart -> rowStart <> 255%Z ->
     getUint8 v (offset + 1) = Ok N ->
     getUint8 v (offset + 3 + (N + 1)) = Ok 255%Z ->
     (forall x, (0 <= x < w)%Z -> x <> x0 -> getUint8 v (column x) = Ok 255%Z) ->
     forall x y, (0 <= x < w)%Z -> (0 <= y < h)%Z ->
       ((x = x0 /\ rowStart <= y < rowStart + N)%Z ->
        exists r g b, rgba pic x y = Some (r, g, b, 255%Z)) /\
       (~ (x = x0 /\ rowStart <= y < rowStart + N)%Z ->
        rgba pic x y = Some (0, 0, 0, 0)%Z)).
Proof.
  intros Hbytes H w h v column.
  destruct (renderPatch_pixels _ _ _ H) as (Hw & Hh & Hlen & Hpix).
  fold w h v in Hw, Hh, Hlen, Hpix.
  assert (Hgen : forall x y, (0 <= x < w)%Z -> (0 <= y < h)%Z ->
     ((exists paletteIndex, Covers v (column x) y paletteIndex) ->
      exists paletteIndex r g b,
        Covers v (column x) y paletteIndex /\
        array_get palette paletteIndex = Some (r, g, b) /\
        rgba pic x y = Some (r, g, b, 255%Z)) /\
     ((forall paletteIndex, ~ Covers v (column x) y paletteIndex) ->
      rgba pic x y = Some (0, 0, 0, 0)%Z)).
  { intros x y Hx Hy.
    destruct (Hpix x y Hx Hy) as [(idx & color & Hcov & Hpal & Hrgba)|(Hnone & Hrgba)].
    - split.
      + intros _. destruct color as [[r g] b] eqn:Ec.
        exists idx, r, g, b. split; [exact Hcov|]. split; [exact Hpal|].
        rewrite Hrgba. rewrite (stored_bytes palette idx _ Hbytes Hpal). reflexivity.
      + intros Hn. destruct (Hn idx Hcov).
    - split.
      + intros (idx & Hcov). destruct (Hnone idx Hcov).
      + intros _. exact Hrgba. }
  split; [auto|]. split; [exact Hgen|].
  intros x0 offset rowStart N Hx0 Hoff Hrow Hrun Hcount Hend Hempty x y Hx Hy.
  destruct (Hgen x y Hx Hy) as (Hcovered & Hfree).
  split.
  - intros (-> & Hrange).
    destruct Hcovered as (idx & r & g & b & _ & _ & Hrgba).
    + unfold column. rewrite Hoff. simpl.
      apply (single_run_covers v offset rowStart N y); auto.
    + eauto.
  - intros Hout. apply Hfree. intros idx Hcov.
    destruct (Z.eq_dec x x0) as [->|Hne].
    + unfold column in Hcov. rewrite Hoff in Hcov. simpl in Hcov.
      apply Hout. split; [reflexivity|].
      apply (single_run_covers v offset rowStart N y); eauto.
    + revert Hcov. apply no_run_at_end. apply Hempty; assumption.
Qed.

Lemma getDefaultPalette_bytes : bytePalette getDefaultPalette.
Proof.
  unfold bytePalette, getDefaultPalette. rewrite Forall_forall.
  intros [[r g] b] Hin. apply list_elem_of_In, in_map_iff in Hin as (i & Heq & Hi).
  injection Heq as <- <- <-.
  unfold upto in Hi. apply in_map_iff in Hi as (n & <- & Hn).
  apply in_seq in Hn. unfold isByte. lia.
Qed.

Lemma renderPatch_decodes_witness :
  exists pic, renderPatch (Some fittingPatch) getDefaultPalette = Ok (Some pic) /\
    Z.of_nat (length (pixels pic)) = 12%Z /\
    (exists r g b, rgba pic 0 1 = Some (r, g, b, 255%Z)) /\
    rgba pic 0 2 = Some (0, 0, 0, 0)%Z.
Proof.
  destruct (renderPatch (Some fittingPatch) getDefaultPalette) as [[pic|]| |] eqn:E;
    try (vm_compute in E; discriminate).
  exists pic. split; [reflexivity|].
  destruct (renderPatch_decodes fittingPatch getDefaultPalette pic
              getDefaultPalette_bytes E) as ((_ & _ & Hlen) & _ & Hrun).
  split; [exact Hlen|].
  assert (Hrows : forall y, (0 <= y < 3)%Z ->
            ((0 = 0 /\ 0 <= y < 0 + 2)%Z -> exists r g b, rgba pic 0 y = Some (r, g, b, 255%Z)) /\
            (~ (0 = 0 /\ 0 <= y < 0 + 2)%Z -> rgba pic 0 y = Some (0, 0, 0, 0)%Z)).
  { intros y Hy.
    apply (Hrun 0%Z 12%Z 0%Z 2%Z); try (vm_compute; reflexivity);
      try discriminate; simpl; try lia. }
  split.
  - apply (Hrows 1%Z); lia.
  - apply (Hrows 2%Z); lia.
Defined.

(** *** The loops of [renderPatch] end *)

Lemma drawRun_ends v palette w h x rowStart offset : forall n i pixels,
  drawRun v palette w h x rowStart offset n i pixels <> Diverge.
Proof.
  induction n as [|n IH]; intros i pixels; simpl; [discriminate|].
  destruct (getUint8 v (toIndex (addNum offset i))) as [idx|e|] eqn:E; simpl;
    [|discriminate|].
  - destruct ((0 <=? rowStart + i)%Z && (rowStart + i <? h)%Z); simpl; [|apply IH].
    destruct (array_get palette idx); simpl; [apply IH | discriminate].
  - pose proof (getUint8_rangeOnly v (toIndex (addNum offset i))) as Hr.
    rewrite E in Hr. destruct Hr.
Qed.

Lemma drawColumn_S fuel v palette w h x offset pixels :
  drawColumn (S fuel) v palette w h x (Some offset) pixels =
  (rowStart ← getUint8 v offset;
   if (rowStart =? 255)%Z then Ok pixels
   else
     pixelCount ← getUint8 v (offset + 1)%Z;
     pixels' ← drawRun v palette w h x rowStart (Some (offset + 3)%Z)
                 (Z.to_nat pixelCount) 0 pixels;
     drawColumn fuel v palette w h x (Some (offset + 3 + (pixelCount + 1))%Z) pixels').
Proof. reflexivity. Qed.

Lemma drawColumn_ends v palette w h x : forall fuel offset pixels,
  (0 <= offset -> dv_byteLength v <= offset + 4 * Z.of_nat fuel)%Z ->
  drawColumn (S fuel) v palette w h x (Some offset) pixels <> Diverge.
Proof.
  induction fuel as [|fuel IH]; intros offset pixels Hfuel; rewrite drawColumn_S.
  - destruct (getUint8 v offset) as [r|e|] eqn:E; [|discriminate|].
    + apply getUint8_inside in E. exfalso. lia.
    + pose proof (getUint8_rangeOnly v offset) as Hr. rewrite E in Hr. destruct Hr.
  - destruct (getUint8 v offset) as [r|e|] eqn:E; [|discriminate|].
    + unfold mbind at 1, result_bind at 1.
      destruct (r =? 255)%Z; [discriminate|].
      destruct (getUint8 v (offset + 1)) as [c|e|] eqn:Ec; [|discriminate|].
      * unfold mbind at 1, result_bind at 1.
        destruct (drawRun v palette w h x r (Some (offset + 3)%Z) (Z.to_nat c) 0 pixels)
          as [pixels1|e|] eqn:Ed; [|discriminate|].
        -- unfold mbind, result_bind. apply IH.
           apply getUint8_inside in E. apply getUint8_Ok in Ec. lia.
        -- destruct (drawRun_ends _ _ _ _ _ _ _ _ _ _ Ed).
      * pose proof (getUint8_rangeOnly v (offset + 1)) as Hr. rewrite Ec in Hr.
        destruct Hr.
    + pose proof (getUint8_rangeOnly v offset) as Hr. rewrite E in Hr. destruct Hr.
Qed.

Lemma drawColumns_ends v palette w h columnOffsets : forall n x pixels,
  (0 <= x)%Z ->
  (Z.to_nat x + n <= length columnOffsets)%nat ->
  drawColumns (columnFuel v) v palette w h columnOffsets n x pixels <> Diverge.
Proof.
  induction n as [|n IH]; intros x pixels Hx Hn; [discriminate|].
  cbn [drawColumns].
  destruct (columnOffsets !! Z.to_nat x) as [offset|] eqn:Eo.
  - destruct (drawColumn (columnFuel v) v palette w h x (Some offset) pixels)
      as [pixels1|e|] eqn:Ed; unfold mbind, result_bind; [|discriminate|].
    + apply IH; lia.
    + unfold columnFuel in Ed. exfalso.
      eapply (drawColumn_ends v palette w h x _ offset pixels); [|exact Ed]. lia.
  - apply lookup_ge_None in Eo. lia.
Qed.

(** [renderPatch] returns or throws on every patch that has a column
    offset for each of its columns. *)
Lemma renderPatch_ends patch palette :
  (Z.to_nat (patch_width patch) <= length (columnOffsets patch))%nat ->
  renderPatch (Some patch) palette <> Diverge.
Proof.
  intros Hcols. unfold renderPatch.
  destruct (patch_width patch * patch_height patch * 4 <? 0)%Z; [discriminate|].
  destruct (newDataView _ _ _) as [v|e|] eqn:Ev; simpl; [|discriminate|].
  - apply newDataView_Ok in Ev as (-> & _).
    destruct (drawColumns _ _ _ _ _ _ _ _ _) as [pixels1|e|] eqn:Ed; simpl;
      try discriminate.
    exfalso. eapply drawColumns_ends; [| |exact Ed]; simpl; lia.
  - pose proof (newDataView_rangeOnly (u8_buffer (data patch))
                  (u8_byteOffset (data patch)) (u8_length (data patch))) as Hr.
    rewrite Ev in Hr. destruct Hr.
Qed.

Lemma readColumnOffsets_length v : forall n i acc offsets,
  readColumnOffsets v n i acc = Ok offsets ->
  length offsets = (length acc + n)%nat.
Proof.
  induction n as [|n IH]; intros i acc offsets H; simpl in H.
  - injection H as <-. lia.
  - apply bind_Ok_inv in H as (o & _ & H). apply IH in H.
    rewrite length_app in H. simpl in H. lia.
Qed.

(** Every patch that [getPatch] returns has a column offset for each of
    its columns, so [renderPatch] ends on it. *)
Lemma getPatch_columns w name patch :
  getPatch w name = Ok (Some patch) ->
  length (columnOffsets patch) = Z.to_nat (patch_width patch).
Proof.
  unfold getPatch. destruct (getLump w name) as [lump|]; [|discriminate].
  intros H. inv_bind. simplify_eq. simpl.
  match goal with H : readColumnOffsets _ _ _ _ = _ |- _ =>
    apply readColumnOffsets_length in H; simpl in H; exact H end.
Qed.

End PictureFacts.

(** ** Map geometry *)

Module MapRendererFacts.
Import WADParser MapRenderer Samples.

(** *** Collision lines *)

(** The objects that [parseLinedefs] builds have no property [special]. *)
Lemma Linedef_no_special linedef : Linedef_prop linedef "special" = JSUndefined.
Proof. reflexivity. Qed.

(** A linedef with a front side only, whose vertices, sidedef and sector
    resolve, adds one solid line. *)
Lemma wallStep_one_sided m i linedef collisionLines v1 v2 sidedef sector :
  array_get (vertexes m) (startVertex linedef) = Some v1 ->
  array_get (vertexes m) (endVertex linedef) = Some v2 ->
  frontSidedef linedef <> (-1)%Z -> backSidedef linedef = (-1)%Z ->
  array_get (sidedefs m) (frontSidedef linedef) = Some sidedef ->
  array_get (sectors m) (WADParser.sector sidedef) = Some sector ->
  wallStep m i linedef collisionLines = Ok (collisionLines ++ [solidLine v1 v2]).
Proof.
  intros Hv1 Hv2 Hfront Hback Hside Hsector. unfold wallStep.
  rewrite Hv1, Hv2, Hback, Hside, Hsector.
  destruct (Z.eqb_spec (frontSidedef linedef) (-1)); [contradiction|]. reflexivity.
Qed.

(** A linedef with a back side never adds a line, whatever its line
    type. *)
Lemma wallStep_two_sided m i linedef collisionLines collisionLines' :
  backSidedef linedef <> (-1)%Z ->
  wallStep m i linedef collisionLines = Ok collisionLines' ->
  collisionLines' = collisionLines.
Proof.
  intros Hback. unfold wallStep. rewrite Linedef_no_special.
  destruct (Z.eqb_spec (backSidedef linedef) (-1)); [contradiction|]. simpl.
  repeat match goal with
         | |- context [match ?o with _ => _ end] => destruct o
         end; intros H; congruence.
Qed.

(** No line that [buildWalls] returns is a door. *)
Lemma buildWallsFrom_no_door m : forall rest i collisionLines collisionLines',
  buildWallsFrom m i rest collisionLines = Ok collisionLines' ->
  Forall (fun line => isDoor line = false) collisionLines ->
  Forall (fun line => isDoor line = false) collisionLines'.
Proof.
  induction rest as [|linedef rest IH]; intros i cl cl' H Hcl; simpl in H.
  - injection H as <-. exact Hcl.
  - apply bind_Ok_inv in H as (cl1 & Hstep & H). apply IH in H; [exact H|].
    revert Hstep. unfold wallStep. rewrite Linedef_no_special. simpl.
    repeat match goal with
           | |- context [match ?o with _ => _ end] => destruct o
           end; intros Hstep; try discriminate; injection Hstep as <-; auto.
    apply Forall_app. split; [exact Hcl|]. repeat constructor.
Qed.

Lemma buildWalls_no_door m collisionLines :
  buildWalls m = Ok collisionLines ->
  Forall (fun line => isDoor line = false) collisionLines.
Proof. intros H. eapply buildWallsFrom_no_door; [exact H | constructor]. Qed.

(** C1: the code at the failing input. The LINEDEFS record of a
    two-sided line of type 1, a door type, is decoded with that type in
    [lineType]; [buildWalls] tests [linedef.special], which such an object
    does not have, so the map around that line gets no collision line at
    all. *)
Theorem buildWalls_drops_door :
  parseLinedefs doorLinedefs doorLumps = Ok (linedefs doorMap) /\
  linedefs doorMap = [mkLinedef 0 1 4 1 0 0 1] /\
  includes doorTypes (JSNumber (lineType (mkLinedef 0 1 4 1 0 0 1))) = true /\
  includes doorTypes (Linedef_prop (mkLinedef 0 1 4 1 0 0 1) "special") = false /\
  buildWalls doorMap = Ok [].
Proof. vm_compute. repeat split; reflexivity. Qed.

(** *** Sector polygons *)

Lemma chainBody_step m sectorLines c c' :
  chainBody m sectorLines c = Some c' ->
  iterations c' = iterations c /\
  (length (points c') <= S (length (points c)))%nat.
Proof.
  unfold chainBody.
  destruct (findNext sectorLines 0 (used c) (currentEndVertex c)) as [[i line]|];
    [|discriminate].
  intros H. injection H as <-. simpl. split; [reflexivity|].
  destruct (array_get (vertexes m) (lineStartV line)); [|lia].
  rewrite length_app. simpl. lia.
Qed.

Lemma chainGuard_true sectorLines c :
  chainGuard sectorLines c = true ->
  (iterations c < length sectorLines * 2)%nat.
Proof.
  unfold chainGuard. intros H. apply andb_prop in H as (_ & H).
  apply Nat.ltb_lt in H. exact H.
Qed.

(** The loop ends within the turns that [maxIterations] leaves. *)
Lemma chainLoop_bounded m sectorLines : forall fuel c,
  (iterations c <= length sectorLines * 2)%nat ->
  (length sectorLines * 2 - iterations c < fuel)%nat ->
  exists c',
    chainLoop fuel m sectorLines c = Ok c' /\
    (iterations c <= iterations c' <= length sectorLines * 2)%nat /\
    (length (points c') + iterations c <= length (points c) + iterations c')%nat.
Proof.
  induction fuel as [|fuel IH]; intros c Hit Hfuel; [lia|].
  simpl. destruct (chainGuard sectorLines c) eqn:Hg.
  - apply chainGuard_true in Hg.
    destruct (chainBody m sectorLines (tick c)) as [c2|] eqn:Hb.
    + apply chainBody_step in Hb as (Hit2 & Hpts2). simpl in Hit2, Hpts2.
      destruct (IH c2) as (c' & Hrun & Hbound & Hpts); [lia|lia|].
      exists c'. split; [exact Hrun|]. split; lia.
    + exists (tick c). split; [reflexivity|]. simpl. split; lia.
  - exists c. split; [reflexivity|]. split; lia.
Qed.

(** More fuel does not change the result of a loop that ends. *)
Lemma chainLoop_more_fuel m sectorLines : forall fuel fuel' c c',
  chainLoop fuel m sectorLines c = Ok c' -> (fuel <= fuel')%nat ->
  chainLoop fuel' m sectorLines c = Ok c'.
Proof.
  induction fuel as [|fuel IH]; intros fuel' c c' H Hle; [discriminate|].
  destruct fuel' as [|fuel']; [lia|]. simpl in *.
  destruct (chainGuard sectorLines c); [|exact H].
  destruct (chainBody m sectorLines (tick c)); [|exact H].
  apply IH; [exact H | lia].
Qed.

Lemma getSectorPolygon_total sortByAngle m sectorIndex :
  exists polygon, getSectorPolygon sortByAngle m sectorIndex = Ok polygon.
Proof.
  unfold getSectorPolygon, getSectorPolygonWith.
  destruct (collectSectorLines m sectorIndex 0 (linedefs m)) as [|line rest] eqn:E;
    [eauto|].
  destruct (array_get (vertexes m) (lineStartV line)) as [startV|]; [|eauto].
  destruct (chainLoop_bounded m (line :: rest) (S (length (line :: rest) * 2))
              (chainStart startV line)) as (c' & Hrun & _); [simpl; lia | simpl; lia|].
  rewrite Hrun. simpl. destruct (length (points c') <? 3)%nat; eauto.
Qed.

(** C9. Started by [getSectorPolygon] (no turn counted yet) on any set of
    collected edges, the chaining loop ends, whatever fuel beyond twice the
    edge count it is given and with the same result; it has then run at
    most twice-the-edge-count turns; one turn appends at most one point, so
    the chain has grown by at most one point per turn; and
    [getSectorPolygon] returns a polygon for every map and sector index. *)
Theorem chainLoop_terminates m sectorLines c fuel :
  iterations c = 0%nat ->
  (length sectorLines * 2 < fuel)%nat ->
  (exists c',
     chainLoop fuel m sectorLines c = Ok c' /\
     chainLoop (S (length sectorLines * 2)) m sectorLines c = Ok c' /\
     (iterations c' <= length sectorLines * 2)%nat /\
     (length (points c') <= length (points c) + iterations c')%nat) /\
  (forall c1 c2, chainBody m sectorLines c1 = Some c2 ->
     (length (points c2) <= S (length (points c1)))%nat) /\
  (forall sortByAngle sectorIndex,
     exists polygon, getSectorPolygon sortByAngle m sectorIndex = Ok polygon).
Proof.
  intros Hzero Hfuel. split; [|split].
  - destruct (chainLoop_bounded m sectorLines (S (length sectorLines * 2)) c)
      as (c' & Hrun & Hbound & Hpts); [lia|lia|].
    exists c'. split; [|split; [exact Hrun|split; lia]].
    eapply chainLoop_more_fuel; [exact Hrun | lia].
  - intros c1 c2 Hb. apply chainBody_step in Hb. tauto.
  - intros sortByAngle sectorIndex. apply getSectorPolygon_total.
Qed.

Lemma chainLoop_terminates_witness :
  let sectorLines := collectSectorLines squareMap 0 0 (linedefs squareMap) in
  let c := mkChain [mkVector2 0 0] {[0%nat]} 1 0 in
  (exists c',
     chainLoop 9 squareMap sectorLines c = Ok c' /\
     chainLoop (S (length sectorLines * 2)) squareMap sectorLines c = Ok c' /\
     (iterations c' <= length sectorLines * 2)%nat /\
     (length (points c') <= length (points c) + iterations c')%nat) /\
  (forall c1 c2, chainBody squareMap sectorLines c1 = Some c2 ->
     (length (points c2) <= S (length (points c1)))%nat) /\
  (forall sortByAngle sectorIndex,
     exists polygon, getSectorPolygon sortByAngle squareMap sectorIndex = Ok polygon).
Proof.
  intros sectorLines c.
  apply (chainLoop_terminates squareMap sectorLines c 9).
  - reflexivity.
  - vm_compute. lia.
Defined.



End MapRendererFacts.

(** ** The game loop *)

Module GameFacts.
Import WADParser MapRenderer Game Samples.

Local Open Scope Q_scope.

Lemma Qltb_true a b : Qltb a b = true <-> a < b.
Proof.
  unfold Qltb. rewrite negb_true_iff, <- not_true_iff_false, Qle_bool_iff.
  split; [apply Qnot_le_lt | apply Qlt_not_le].
Qed.

Lemma Qltb_false a b : Qltb a b = false <-> b <= a.
Proof.
  unfold Qltb. rewrite negb_false_iff, Qle_bool_iff. reflexivity.
Qed.

Lemma Qle_bool_false a b : Qle_bool a b = false <-> b < a.
Proof.
  rewrite <- not_true_iff_false, Qle_bool_iff.
  split; [apply Qnot_le_lt | apply Qlt_not_le].
Qed.

(** *** Point location *)






(** *** Vertical movement *)



(** *** Horizontal movement *)

Lemma checkCollision_setPosition g p q :
  checkCollision (setPosition g p) q = checkCollision g q.
Proof. reflexivity. Qed.

(** The collision test reads the x and z of a position only. *)
Lemma checkCollision_xz g x y y' z :
  checkCollision g (mkVector3 x y z) = checkCollision g (mkVector3 x y' z).
Proof. reflexivity. Qed.

Lemma updatePlayerHeight_xz g :
  px (position (player (updatePlayerHeight g))) = px (position (player g)) /\
  pz (position (player (updatePlayerHeight g))) = pz (position (player g)).
Proof.
  unfold updatePlayerHeight, findNearestSector.
  repeat match goal with
         | |- context [match ?o with _ => _ end] => destruct o
         end; simpl; auto.
Qed.

Lemma slide_blocked_position g moveVector :
  let pos := position (player g) in
  let newPosition :=
    mkVector3 (px pos + px moveVector) (py pos + py moveVector) (pz pos + pz moveVector) in
  let xOnly := mkVector3 (px pos + px moveVector) (py pos) (pz pos) in
  let zOnly := mkVector3 (px pos) (py pos) (pz pos + pz moveVector) in
  checkCollision g newPosition = true ->
  position (player (slide g moveVector)) =
    if checkCollision g xOnly
    then (if checkCollision g zOnly then pos else zOnly)
    else xOnly.
Proof.
  intros pos newPosition xOnly zOnly Hblocked. unfold slide.
  fold pos. fold newPosition xOnly. rewrite Hblocked. simpl.
  destruct (checkCollision g xOnly) eqn:Hx; simpl.
  - fold pos. fold zOnly. destruct (checkCollision g zOnly); reflexivity.
  - rewrite checkCollision_setPosition.
    rewrite (checkCollision_xz g _ _ (py pos + py moveVector)).
    fold newPosition. rewrite Hblocked. reflexivity.
Qed.

(** C7, as stated, fails: with a wall end at the corner of the step, the
    full displacement is blocked and each axis component alone is free from
    the position before the move, yet only the X-component is applied: the
    Z-component is retried from the position that the X-component has
    reached, where it is the blocked full displacement. *)
Lemma movePlayer_not_independent :
  let pos := position (player cornerGame) in
  checkCollision cornerGame
    (mkVector3 (px pos + px cornerMove) (py pos + py cornerMove) (pz pos + pz cornerMove))
    = true /\
  checkCollision cornerGame (mkVector3 (px pos + px cornerMove) (py pos) (pz pos)) = false /\
  checkCollision cornerGame (mkVector3 (px pos) (py pos) (pz pos + pz cornerMove)) = false /\
  position (player (movePlayer cornerGame cornerMove)) = mkVector3 20 41 0 /\
  independentSlide cornerGame cornerMove = (20, -(20)) /\
  ~ (pz (position (player (movePlayer cornerGame cornerMove)))
     == snd (independentSlide cornerGame cornerMove)).
Proof.
  vm_compute. repeat split; try reflexivity. intros H. discriminate H.
Qed.

(** C7 (amended). When the full displacement is blocked, the resolver
    first retries the X-component alone from the position before the move
    and applies it if that test is free; it then retries the Z-component
    alone from the position reached so far. After an applied X-component
    that retry is the blocked full displacement, so the Z-component is
    applied exactly when the X-component alone is blocked and the
    Z-component alone, from the position before the move, is free. *)
Theorem movePlayer_slides g moveVector :
  let pos := position (player g) in
  let xOnly := mkVector3 (px pos + px moveVector) (py pos) (pz pos) in
  let zOnly := mkVector3 (px pos) (py pos) (pz pos + pz moveVector) in
  let p' := position (player (movePlayer g moveVector)) in
  checkCollision g
    (mkVector3 (px pos + px moveVector) (py pos + py moveVector) (pz pos + pz moveVector))
    = true ->
  (px p', pz p') =
    if checkCollision g xOnly
    then (if checkCollision g zOnly then (px pos, pz pos) else (px pos, pz pos + pz moveVector))
    else (px pos + px moveVector, pz pos).
Proof.
  intros pos xOnly zOnly p' Hblocked. subst p'. unfold movePlayer.
  destruct (updatePlayerHeight_xz (slide g moveVector)) as (-> & ->).
  rewrite (slide_blocked_position g moveVector Hblocked).
  fold pos. fold xOnly zOnly.
  destruct (checkCollision g xOnly); [destruct (checkCollision g zOnly)|]; reflexivity.
Qed.

Lemma movePlayer_slides_witness :
  (px (position (player (movePlayer cornerGame cornerMove))),
   pz (position (player (movePlayer cornerGame cornerMove))))
  = (0 + 20, 0).
Proof.
  rewrite (movePlayer_slides cornerGame cornerMove).
  - vm_compute. reflexivity.
  - vm_compute. reflexivity.
Defined.

End GameFacts.

(** ** Further properties of the container decoder *)

Module ContainerFacts.
Import WADParser Samples WADParserFacts.

Lemma returns_bind {A B} (c : result A) (k : A -> result B) :
  returns c -> (forall a, returns (k a)) -> returns (c ≫= k).
Proof. intros (a & ->) Hk. apply Hk. Qed.

Lemma returns_Ok {A} (a : A) : returns (Ok a).
Proof. exists a. reflexivity. Qed.

Lemma fromCharCode_code c :
  (0 <= c < 256)%Z -> Z.of_N (N_of_ascii (fromCharCode c)) = c.
Proof.
  intros H. unfold fromCharCode. rewrite N_ascii_embedding by lia. lia.
Qed.

(** The bytes that [readString] has read, one per character of its
    result. *)
Lemma readString_bytes v : forall n offset s,
  readString v offset n = Ok s ->
  (String.length s <= n)%nat /\
  forall (i : nat) a, String.get i s = Some a ->
    getUint8 v (offset + Z.of_nat i) = Ok (Z.of_N (N_of_ascii a)).
Proof.
  induction n as [|n IH]; intros offset s H; simpl in H.
  - injection H as <-. split; [simpl; lia|]. intros i a Hi. destruct i; discriminate.
  - apply bind_Ok_inv in H as (c & Hc & H).
    destruct (c =? 0)%Z.
    + injection H as <-. split; [simpl; lia|]. intros i a Hi. destruct i; discriminate.
    + apply bind_Ok_inv in H as (str & Hstr & H). injection H as <-.
      apply IH in Hstr as (Hlen & Hget). split; [simpl; lia|].
      intros [|i] a Hi; simpl in Hi.
      * injection Hi as <-. rewrite Z.add_0_r, Hc. f_equal.
        symmetry. apply fromCharCode_code. eapply PictureFacts.getUint8_Ok; eauto.
      * apply Hget in Hi. rewrite <- Hi. f_equal. lia.
Qed.

Lemma trimStart_length s : (String.length (trimStart s) <= String.length s)%nat.
Proof.
  induction s as [|a s IH]; simpl; [lia|].
  destruct (isWhiteSpace a); simpl; lia.
Qed.

Lemma trimEnd_length s : (String.length (trimEnd s) <= String.length s)%nat.
Proof.
  induction s as [|a s IH]; simpl; [lia|].
  destruct (trimEnd s); [destruct (isWhiteSpace a)|]; simpl in *; lia.
Qed.

Lemma trim_length s : (String.length (trim s) <= String.length s)%nat.
Proof.
  unfold trim. etransitivity; [apply trimEnd_length | apply trimStart_length].
Qed.

Lemma parseDirectory_names v n : forall offset ls m ls' m',
  parseDirectory v n offset ls m = Ok (ls', m') ->
  Forall (fun l => (String.length (lump_name l) <= 8)%nat) ls ->
  Forall (fun l => (String.length (lump_name l) <= 8)%nat) ls'.
Proof.
  induction n as [|n IH]; intros offset ls m ls' m' H Hls; cbn [parseDirectory] in H.
  - injection H as <- <-. exact Hls.
  - apply bind_Ok_inv in H as (o & _ & H). apply bind_Ok_inv in H as (sz & _ & H).
    apply bind_Ok_inv in H as (raw & Hraw & H).
    eapply IH; [exact H|]. apply Forall_app. split; [exact Hls|].
    constructor; [|constructor]. simpl.
    apply readString_bytes in Hraw as (Hlen & _).
    pose proof (trim_length raw). lia.
Qed.

(** X1. A container is accepted only if it has the 12 bytes of a header
    and its first four bytes spell IWAD or PWAD; the names of its directory
    then have at most 8 characters. *)
Theorem parse_accepts_only_wads arrayBuffer w :
  parse arrayBuffer = Ok w ->
  (12 <= length arrayBuffer)%nat /\
  (byteAt arrayBuffer 0 = 73 \/ byteAt arrayBuffer 0 = 80)%Z /\
  (byteAt arrayBuffer 1 = 87 /\ byteAt arrayBuffer 2 = 65 /\ byteAt arrayBuffer 3 = 68)%Z /\
  Forall (fun l => (String.length (lump_name l) <= 8)%nat) (lumps w).
Proof.
  intros H. pose proof (parse_inv _ _ H) as (n & d & _ & Hd & _ & Hdir).
  apply getInt32_Ok_inView in Hd. simpl in Hd.
  split; [lia|].
  unfold parse in H. apply bind_Ok_inv in H as (header & Hheader & H).
  destruct (acceptedHeader header) eqn:Hacc; [|discriminate]. clear H.
  apply readString_bytes in Hheader as (_ & Hget).
  assert (Hbyte : forall (i : nat) a, String.get i header = Some a ->
            byteAt arrayBuffer (Z.of_nat i) = Z.of_N (N_of_ascii a)).
  { intros i a Hi. apply Hget in Hi. unfold getUint8 in Hi.
    destruct (inView _ _ _); [|discriminate]. injection Hi as Hi. exact Hi. }
  split; [|split].
  - unfold acceptedHeader in Hacc. apply orb_prop in Hacc as [Hh|Hh];
      apply String.eqb_eq in Hh; subst header.
    + left. apply (Hbyte 0%nat "I"%char). reflexivity.
    + right. apply (Hbyte 0%nat "P"%char). reflexivity.
  - unfold acceptedHeader in Hacc. apply orb_prop in Hacc as [Hh|Hh];
      apply String.eqb_eq in Hh; subst header;
      (split; [apply (Hbyte 1%nat "W"%char) | split;
               [apply (Hbyte 2%nat "A"%char) | apply (Hbyte 3%nat "D"%char)]]);
      reflexivity.
  - eapply parseDirectory_names; [exact Hdir | constructor].
Qed.

Lemma parse_accepts_only_wads_witness :
  exists w, parse duplicateWad = Ok w /\
    (12 <= length duplicateWad)%nat /\
    (byteAt duplicateWad 0 = 73 \/ byteAt duplicateWad 0 = 80)%Z.
Proof.
  destruct (parse duplicateWad) as [w| |] eqn:E.
  - exists w. split; [reflexivity|].
    destruct (parse_accepts_only_wads duplicateWad w E) as (H1 & H2 & _). auto.
  - vm_compute in E. discriminate.
  - vm_compute in E. discriminate.
Defined.

(** *** Lookup *)

Lemma last_filter_Some {A} (f : A -> bool) (l : list A) (a : A) :
  last (List.filter f l) = Some a -> a ∈ l /\ f a = true.
Proof.
  intros H. apply last_Some in H as (l' & Hl').
  assert (Hin : In a (List.filter f l)) by (rewrite Hl'; apply in_or_app; simpl; auto).
  apply filter_In in Hin as (Hin & Hf). split; [apply list_elem_of_In; exact Hin | exact Hf].
Qed.

Lemma last_filter_None {A} (f : A -> bool) (l : list A) :
  last (List.filter f l) = None <-> forall a, a ∈ l -> f a = false.
Proof.
  rewrite last_None. split.
  - intros Hnil a Hin. destruct (f a) eqn:Hf; [|reflexivity].
    assert (Hf' : In a (List.filter f l))
      by (apply filter_In; split; [apply list_elem_of_In; exact Hin | exact Hf]).
    rewrite Hnil in Hf'. destruct Hf'.
  - intros Hall. destruct (List.filter f l) as [|a l'] eqn:E; [reflexivity|].
    assert (Hin : In a (List.filter f l)) by (rewrite E; simpl; auto).
    apply filter_In in Hin as (Hin & Hf).
    rewrite (Hall a) in Hf; [discriminate | apply list_elem_of_In; exact Hin].
Qed.

(** X2. On an accepted container the lookup answers from the directory
    and from nothing else: a lump that [getLump] returns is an entry of the
    directory with the name asked for, and [getLump] finds nothing exactly
    when no entry of the directory has that name. *)
Theorem getLump_sound_complete arrayBuffer w name :
  parse arrayBuffer = Ok w ->
  (forall l, getLump w name = Some l -> l ∈ lumps w /\ lump_name l = name) /\
  (getLump w name = None <-> forall l, l ∈ lumps w -> lump_name l <> name).
Proof.
  intros H. rewrite (getLump_index _ _ name H). split.
  - intros l Hl. apply last_filter_Some in Hl as (Hin & Hn).
    split; [exact Hin|]. apply String.eqb_eq. exact Hn.
  - rewrite last_filter_None. split.
    + intros Hall l Hin Heq. specialize (Hall l Hin). unfold named in Hall.
      apply String.eqb_neq in Hall. contradiction.
    + intros Hall l Hin. unfold named. apply String.eqb_neq. auto.
Qed.

Lemma getLump_sound_complete_witness :
  exists w, parse duplicateWad = Ok w /\
    (getLump w "B" = None <-> forall l, l ∈ lumps w -> lump_name l <> "B"%string).
Proof.
  destruct (parse duplicateWad) as [w| |] eqn:E.
  - exists w. split; [reflexivity|].
    apply (getLump_sound_complete duplicateWad w "B" E).
  - vm_compute in E. discriminate.
  - vm_compute in E. discriminate.
Defined.

(** *** Record decoders on well-formed lumps *)

Lemma getInt16_returns v i :
  (0 <= i)%Z -> (i + 2 <= dv_byteLength v)%Z -> returns (getInt16 v i).
Proof.
  intros H0 H1. unfold getInt16, inView.
  destruct (Z.leb_spec 0 i); [|lia].
  destruct (Z.leb_spec (i + 2) (dv_byteLength v)); [|lia]. simpl. eexists. reflexivity.
Qed.

Lemma getUint8_returns v i :
  (0 <= i)%Z -> (i + 1 <= dv_byteLength v)%Z -> returns (getUint8 v i).
Proof.
  intros H0 H1. unfold getUint8, inView.
  destruct (Z.leb_spec 0 i); [|lia].
  destruct (Z.leb_spec (i + 1) (dv_byteLength v)); [|lia]. simpl. eexists. reflexivity.
Qed.

Lemma readString_returns v : forall n offset,
  (0 <= offset)%Z -> (offset + Z.of_nat n <= dv_byteLength v)%Z ->
  returns (readString v offset n).
Proof.
  induction n as [|n IH]; intros offset H0 H1; simpl; [apply returns_Ok|].
  apply returns_bind; [apply getUint8_returns; lia|]. intros c.
  destruct (c =? 0)%Z; [apply returns_Ok|].
  apply returns_bind; [apply IH; lia|]. intros; apply returns_Ok.
Qed.

(** Proves that a chain of reads inside the view returns. *)
Ltac reads_return :=
  repeat first
    [ apply returns_Ok
    | apply getInt16_returns; simpl; lia
    | apply (readString_returns _ 8); simpl; lia
    | apply returns_bind; [ | intros ? ] ].

Lemma forRecords_returns {A} (read : Z -> result A) recordSize : forall n i acc,
  (forall j, (i <= j < i + Z.of_nat n)%Z -> returns (read (j * recordSize)%Z)) ->
  exists l, forRecords read recordSize n i acc = Ok l /\
            length l = (length acc + n)%nat.
Proof.
  induction n as [|n IH]; intros i acc Hread; simpl.
  - exists acc. split; [reflexivity | lia].
  - destruct (Hread i) as (r & Hr); [lia|]. rewrite Hr. simpl.
    destruct (IH (i + 1)%Z (acc ++ [r])) as (l & Hl & Hlen).
    + intros j Hj. apply Hread. lia.
    + exists l. split; [exact Hl|]. rewrite length_app in Hlen. simpl in Hlen. lia.
Qed.

Lemma iterations_exact n recordSize :
  (0 < recordSize)%Z -> iterations (Z.of_nat n * recordSize) recordSize = n.
Proof.
  intros Hrs. unfold iterations.
  replace (Z.of_nat n * recordSize + recordSize - 1)%Z
    with (Z.of_nat n * recordSize + (recordSize - 1))%Z by lia.
  rewrite Z.div_add_l by lia. rewrite Z.div_small by lia. lia.
Qed.

Lemma parseRecords_exact {A} buffer mapLumps name recordSize
    (read : Lump -> DataView -> Z -> result A) lump (n : nat) :
  (0 < recordSize)%Z ->
  findLump mapLumps name = Some lump ->
  inBuffer buffer lump ->
  lump_size lump = (Z.of_nat n * recordSize)%Z ->
  (forall offset, (0 <= offset)%Z -> (offset + recordSize <= lump_size lump)%Z ->
     returns (read lump (mkDataView buffer (lump_offset lump) (lump_size lump)) offset)) ->
  exists l, parseRecords buffer mapLumps name recordSize read = Ok l /\ length l = n.
Proof.
  intros Hrs Hfind (Ho & Hs & Hin) Hsize Hread. unfold parseRecords. rewrite Hfind.
  destruct (Z.eqb_spec (lump_size lump) 0) as [E|Hnz].
  - exists []. split; [reflexivity|]. simpl. nia.
  - unfold newDataView.
    destruct (Z.leb_spec 0 (lump_offset lump)); [|lia].
    destruct (Z.leb_spec 0 (lump_size lump)); [|lia].
    destruct (Z.leb_spec (lump_offset lump + lump_size lump) (Z.of_nat (length buffer)));
      [|lia].
    simpl. replace (iterations (lump_size lump) recordSize) with n
      by (rewrite Hsize; symmetry; apply iterations_exact; lia).
    destruct (forRecords_returns
                (read lump (mkDataView buffer (lump_offset lump) (lump_size lump)))
                recordSize n 0 []) as (l & Hl & Hlen).
    + intros j Hj. apply Hread; nia.
    + exists l. split; [exact Hl | exact Hlen].
Qed.

Lemma decodeSubLump_absent k buffer mapLumps :
  (forall lump, findLump mapLumps (subLumpName k) = Some lump -> lump_size lump = 0%Z) ->
  decodeSubLump k buffer mapLumps = Ok 0%nat.
Proof.
  intros H.
  destruct k; simpl in *;
    unfold parseThings, parseLinedefs, parseSidedefs, parseVertexes, parseSectors,
      parseSegs, parseSSectors, parseNodes, parseRecords;
    match goal with
    | |- context [findLump mapLumps ?n] =>
        destruct (findLump mapLumps n) as [lump|]; [rewrite (H lump eq_refl)|]
    end; reflexivity.
Qed.

(** X3. A sub-lump that is missing or has no bytes decodes to the empty
    sequence, for each of the eight record kinds; a sub-lump that lies in
    the file and whose length is [n] times the record size decodes, without
    an exception, to exactly [n] records. *)
Theorem decodeSubLump_whole_records k buffer mapLumps :
  ((forall lump, findLump mapLumps (subLumpName k) = Some lump -> lump_size lump = 0%Z) ->
   decodeSubLump k buffer mapLumps = Ok 0%nat) /\
  (forall lump (n : nat),
     findLump mapLumps (subLumpName k) = Some lump ->
     inBuffer buffer lump ->
     lump_size lump = (Z.of_nat n * recordSize k)%Z ->
     decodeSubLump k buffer mapLumps = Ok n).
Proof.
  split; [apply decodeSubLump_absent|].
  intros lump n Hfind Hin Hsize.
  assert (Hin' := Hin). destruct Hin' as (Ho & Hs & Hend).
  destruct k; simpl in *;
    match goal with
    | |- ?p ≫= _ = _ =>
        let H := fresh in
        assert (H : exists l, p = Ok l /\ length l = n);
        [ eapply parseRecords_exact; try exact Hfind; try exact Hin; try exact Hsize;
          [lia|]; intros offset H0 H1 | destruct H as (l & -> & <-); reflexivity ]
    end.
  - unfold readThing. reads_return.
  - unfold readLinedef. reads_return.
  - unfold readSidedef, view, wholeView. reads_return.
  - unfold readVertex. reads_return.
  - unfold readSector, view, wholeView. reads_return.
  - unfold readSeg. reads_return.
  - unfold readSSector. reads_return.
  - unfold readNode, readBox. reads_return.
Qed.

Lemma decodeSubLump_whole_records_witness :
  decodeSubLump THINGS truncatedThings [mkLump "THINGS" 0 10] = Ok 1%nat.
Proof.
  destruct (decodeSubLump_whole_records THINGS truncatedThings [mkLump "THINGS" 0 10])
    as (_ & H).
  apply (H (mkLump "THINGS" 0 10) 1%nat).
  - reflexivity.
  - unfold inBuffer. simpl. lia.
  - reflexivity.
Defined.

(** *** Palette and pictures *)

Lemma u8_elem_byte a i : isByte (u8_elem a i).
Proof.
  unfold u8_elem, u8_get, isByte. destruct (_ && _); simpl; [apply byteAt_range | lia].
Qed.

Lemma lump_palette_bytes playpal :
  let palette := map (fun i => (u8_elem playpal (i * 3),
                                u8_elem playpal (i * 3 + 1),
                                u8_elem playpal (i * 3 + 2)))%Z (upto 256) in
  length palette = 256%nat /\ bytePalette palette.
Proof.
  intros palette. subst palette. split; [rewrite length_map; apply upto_length|].
  unfold bytePalette. rewrite Forall_forall. intros [[r g] b] Hin.
  apply list_elem_of_In, in_map_iff in Hin as (i & Heq & _).
  injection Heq as <- <- <-. auto using u8_elem_byte.
Qed.

(** X4. Whatever [getPalette] returns has 256 entries whose three
    components are bytes: it satisfies what [renderPatch] and [renderFlat]
    ask of a palette. *)
Theorem getPalette_bytes w palette :
  getPalette w = Ok palette ->
  length palette = 256%nat /\ bytePalette palette.
Proof.
  unfold getPalette. intros H. apply bind_Ok_inv in H as ([playpal|] & _ & H).
  - destruct (u8_length playpal <? 768)%Z.
    + replace palette with getDefaultPalette by congruence.
      split; [reflexivity | apply PictureFacts.getDefaultPalette_bytes].
    + pose proof (lump_palette_bytes playpal) as Hp. cbv zeta in Hp.
      match type of Hp with length ?p = _ /\ _ =>
        replace palette with p by congruence end. exact Hp.
  - replace palette with getDefaultPalette by congruence.
    split; [reflexivity | apply PictureFacts.getDefaultPalette_bytes].
Qed.

Lemma getPalette_bytes_witness :
  exists palette, (parse paletteWad ≫= getPalette) = Ok palette /\
    length palette = 256%nat /\ bytePalette palette.
Proof.
  destruct (parse paletteWad) as [w| |] eqn:E; try (vm_compute in E; discriminate).
  simpl.
  destruct (getPalette w) as [palette| |] eqn:Ep.
  - exists palette. split; [reflexivity|]. exact (getPalette_bytes w palette Ep).
  - exfalso.
    assert (H : (parse paletteWad ≫= fun w => (fun _ => tt) <$> getPalette w) = Ok tt)
      by (vm_compute; reflexivity).
    rewrite E in H. simpl in H. rewrite Ep in H. discriminate.
  - exfalso.
    assert (H : (parse paletteWad ≫= fun w => (fun _ => tt) <$> getPalette w) = Ok tt)
      by (vm_compute; reflexivity).
    rewrite E in H. simpl in H. rewrite Ep in H. discriminate.
Defined.

Section FullPalette.
Context (v : DataView) (palette : Palette) (w h : Z).
Hypothesis Hfull : length palette = 256%nat.

Lemma palette_defined paletteIndex :
  (0 <= paletteIndex < 256)%Z -> exists color, array_get palette paletteIndex = Some color.
Proof.
  intros H. unfold array_get. destruct (Z.leb_spec 0 paletteIndex); [|lia].
  apply lookup_lt_is_Some. lia.
Qed.

Lemma drawRun_rangeOnly x rowStart offset : forall n i pixels,
  rangeOnly (drawRun v palette w h x rowStart offset n i pixels).
Proof.
  induction n as [|n IH]; intros i pixels; simpl; [exact I|].
  destruct (getUint8 v (toIndex (addNum offset i))) as [idx|e|] eqn:E; simpl.
  - destruct (palette_defined idx) as (color & ->); [eapply PictureFacts.getUint8_Ok; eauto|].
    destruct (_ && _); simpl; apply IH.
  - pose proof (getUint8_rangeOnly v (toIndex (addNum offset i))) as Hr.
    rewrite E in Hr. exact Hr.
  - pose proof (getUint8_rangeOnly v (toIndex (addNum offset i))) as Hr.
    rewrite E in Hr. exact Hr.
Qed.

Lemma drawColumn_rangeOnly x : forall fuel offset pixels,
  (0 <= offset -> dv_byteLength v <= offset + 4 * Z.of_nat fuel)%Z ->
  rangeOnly (drawColumn (S fuel) v palette w h x (Some offset) pixels).
Proof.
  induction fuel as [|fuel IH]; intros offset pixels Hfuel;
    rewrite PictureFacts.drawColumn_S;
    pose proof (getUint8_rangeOnly v offset) as Hr;
    destruct (getUint8 v offset) as [r|e|] eqn:E; try exact Hr.
  - apply PictureFacts.getUint8_inside in E. exfalso. lia.
  - unfold mbind at 1, result_bind at 1.
    destruct (r =? 255)%Z; [exact I|].
    pose proof (getUint8_rangeOnly v (offset + 1)) as Hc.
    destruct (getUint8 v (offset + 1)) as [c|e|] eqn:Ec; try exact Hc.
    unfold mbind at 1, result_bind at 1.
    apply rangeOnly_bind; [apply drawRun_rangeOnly|]. intros pixels1.
    apply IH. apply PictureFacts.getUint8_inside in E.
    apply PictureFacts.getUint8_Ok in Ec. lia.
Qed.

Lemma drawColumns_rangeOnly columnOffsets : forall n x pixels,
  (0 <= x)%Z ->
  (Z.to_nat x + n <= length columnOffsets)%nat ->
  rangeOnly (drawColumns (columnFuel v) v palette w h columnOffsets n x pixels).
Proof.
  induction n as [|n IH]; intros x pixels Hx Hn; [exact I|].
  cbn [drawColumns].
  destruct (columnOffsets !! Z.to_nat x) as [offset|] eqn:Eo.
  - apply rangeOnly_bind; [|intros; apply IH; lia].
    unfold columnFuel. apply drawColumn_rangeOnly. lia.
  - apply lookup_ge_None in Eo. lia.
Qed.

End FullPalette.

(** X5. On every patch that [getPatch] returns, and with a palette of
    256 entries, [renderPatch] returns a picture or throws [RangeError]:
    its [while (true)] loop ends, and no palette lookup fails. *)
Theorem renderPatch_returns_or_RangeError wad name patch palette :
  getPatch wad name = Ok (Some patch) ->
  length palette = 256%nat ->
  rangeOnly (renderPatch (Some patch) palette).
Proof.
  intros Hpatch Hfull. apply PictureFacts.getPatch_columns in Hpatch.
  unfold renderPatch.
  destruct (patch_width patch * patch_height patch * 4 <? 0)%Z; [reflexivity|].
  pose proof (newDataView_rangeOnly (u8_buffer (data patch))
                (u8_byteOffset (data patch)) (u8_length (data patch))) as Hv.
  destruct (newDataView _ _ _) as [v|e|] eqn:Ev; try exact Hv.
  unfold mbind at 1, result_bind at 1.
  apply rangeOnly_bind; [|intros; exact I].
  apply drawColumns_rangeOnly; [exact Hfull | lia | simpl; lia].
Qed.

Lemma renderPatch_returns_or_RangeError_witness :
  exists patch, (parse patchWad ≫= fun w => getPatch w "P1") = Ok (Some patch) /\
    rangeOnly (renderPatch (Some patch) getDefaultPalette).
Proof.
  assert (H : (parse patchWad ≫= fun w => p ← getPatch w "P1"; Ok (is_Some_b p)) = Ok true)
    by (vm_compute; reflexivity).
  destruct (parse patchWad) as [w| |] eqn:E; [|discriminate H|discriminate H].
  simpl in H.
  destruct (getPatch w "P1") as [[patch|]| |] eqn:Ep; try discriminate H.
  exists patch. split; [exact Ep|].
  apply (renderPatch_returns_or_RangeError w "P1" patch getDefaultPalette Ep).
  reflexivity.
Defined.

(** *** Flats *)

Lemma newUint8Array_Ok buffer o n a :
  newUint8Array buffer o n = Ok a ->
  a = mkUint8Array buffer o n /\ (0 <= o /\ 0 <= n /\ o + n <= Z.of_nat (length buffer))%Z.
Proof.
  unfold newUint8Array. intros H.
  destruct (Z.leb_spec 0 o); simpl in H; [|discriminate].
  destruct (Z.leb_spec 0 n); simpl in H; [|discriminate].
  destruct (Z.leb_spec (o + n) (Z.of_nat (length buffer))); simpl in H; [|discriminate].
  injection H as <-. auto.
Qed.

Lemma getFlat_inv w name flat :
  getFlat w name = Ok (Some flat) ->
  flat_width flat = 64%Z /\ flat_height flat = 64%Z /\ u8_length (flat_data flat) = 4096%Z.
Proof.
  unfold getFlat. destruct (getLump w name) as [lump|]; [|discriminate].
  destruct (Z.eqb_spec (lump_size lump) 4096) as [Hs|]; simpl; [|discriminate].
  intros H. apply bind_Ok_inv in H as (a & Ha & H). injection H as <-.
  apply newUint8Array_Ok in Ha as (-> & _). simpl. auto.
Qed.

Lemma renderFlatFrom_spec data palette :
  length palette = 256%nat ->
  forall n i pixels,
  (0 <= i)%Z -> (i + Z.of_nat n <= u8_length data)%Z ->
  ((i + Z.of_nat n) * 4 <= Z.of_nat (length pixels))%Z ->
  exists pixels',
    renderFlatFrom data palette n i pixels = Ok pixels' /\
    length pixels' = length pixels /\
    forall j, (0 <= j)%Z -> (j * 4 + 3 < Z.of_nat (length pixels))%Z ->
      ((i <= j < i + Z.of_nat n)%Z ->
       exists color,
         array_get palette (byteAt (u8_buffer data) (u8_byteOffset data + j)) = Some color /\
         rgbaAt pixels' (j * 4) = Some (stored color)) /\
      (~ (i <= j < i + Z.of_nat n)%Z -> rgbaAt pixels' (j * 4) = rgbaAt pixels (j * 4)).
Proof.
  intros Hfull. induction n as [|n IH]; intros i pixels Hi Hn Hlen.
  - exists pixels. split; [reflexivity|]. split; [reflexivity|].
    intros j Hj Hjl. split; [lia | reflexivity].
  - cbn [renderFlatFrom].
    assert (Hget : u8_get data i = Some (byteAt (u8_buffer data) (u8_byteOffset data + i))).
    { unfold u8_get. destruct (Z.leb_spec 0 i); [|lia].
      destruct (Z.ltb_spec i (u8_length data)); [reflexivity | lia]. }
    rewrite Hget. cbn [mbind option_bind].
    destruct (palette_defined palette Hfull
                (byteAt (u8_buffer data) (u8_byteOffset data + i))) as (color & Hcolor);
      [apply byteAt_range|].
    rewrite Hcolor.
    destruct (IH (i + 1)%Z (putPixel pixels (i * 4) color)) as (pixels' & Hrun & Hlen' & Hpix);
      [lia | lia | rewrite PictureFacts.putPixel_length; lia |].
    rewrite PictureFacts.putPixel_length in Hlen', Hpix.
    exists pixels'. split; [exact Hrun|]. split; [exact Hlen'|].
    intros j Hj Hjl. destruct (Hpix j Hj Hjl) as (Hin & Hout). split.
    + intros Hrange. destruct (Z.eq_dec j i) as [->|Hne].
      * exists color. split; [exact Hcolor|].
        rewrite Hout by lia. apply PictureFacts.rgbaAt_putPixel_same; lia.
      * apply Hin. lia.
    + intros Hrange. rewrite Hout by lia.
      apply PictureFacts.rgbaAt_putPixel_other; lia.
Qed.

(** X6. A flat that [getFlat] returns is 64 by 64, and with a palette of
    256 byte triples [renderFlat] decodes it to a picture of 64 x 64 pixels,
    every one of them opaque: pixel [i] has the RGB triple of the palette
    entry that byte [i] of the flat names and alpha 255. *)
Theorem renderFlat_opaque wad name flat palette :
  getFlat wad name = Ok (Some flat) ->
  length palette = 256%nat ->
  bytePalette palette ->
  exists pic,
    renderFlat (Some flat) palette = Ok (Some pic) /\
    pic_width pic = 64%Z /\ pic_height pic = 64%Z /\
    Z.of_nat (length (pixels pic)) = 16384%Z /\
    forall i, (0 <= i < 4096)%Z ->
      exists r g b,
        array_get palette
          (byteAt (u8_buffer (flat_data flat)) (u8_byteOffset (flat_data flat) + i))
          = Some (r, g, b) /\
        rgbaAt (pixels pic) (i * 4) = Some (r, g, b, 255%Z).
Proof.
  intros Hflat Hfull Hbytes. apply getFlat_inv in Hflat as (Hw & Hh & Hlen).
  unfold renderFlat. rewrite Hw, Hh, Hlen.
  change (64 * 64 * 4 <? 0)%Z with false. cbv iota.
  destruct (renderFlatFrom_spec (flat_data flat) palette Hfull (Z.to_nat 4096) 0
              (replicate (Z.to_nat (64 * 64 * 4)) 0%Z))
    as (pixels' & Hrun & Hlen' & Hpix);
    [lia | rewrite Hlen; lia | rewrite length_replicate; lia |].
  rewrite Hrun. simpl. eexists. split; [reflexivity|]. simpl.
  rewrite length_replicate in Hlen', Hpix.
  split; [reflexivity|]. split; [reflexivity|]. split; [rewrite Hlen'; lia|].
  intros i Hi. destruct (Hpix i) as (Hin & _); [lia|lia|].
  destruct Hin as (color & Hcolor & Hrgba); [lia|].
  destruct color as [[r g] b] eqn:Ec. exists r, g, b. split; [exact Hcolor|].
  rewrite Hrgba. rewrite (PictureFacts.stored_bytes palette _ _ Hbytes Hcolor). reflexivity.
Qed.

Lemma renderFlat_opaque_witness :
  exists flat, (parse flatWad ≫= fun w => getFlat w "FLOOR") = Ok (Some flat) /\
    exists pic, renderFlat (Some flat) getDefaultPalette = Ok (Some pic) /\
      pic_width pic = 64%Z /\ pic_height pic = 64%Z.
Proof.
  assert (H : (parse flatWad ≫= fun w => f ← getFlat w "FLOOR"; Ok (is_Some_b f)) = Ok true)
    by (vm_compute; reflexivity).
  destruct (parse flatWad) as [w| |] eqn:E; [|discriminate H|discriminate H].
  simpl in H.
  destruct (getFlat w "FLOOR") as [[flat|]| |] eqn:Ef; try discriminate H.
  exists flat. split; [exact Ef|].
  destruct (renderFlat_opaque w "FLOOR" flat getDefaultPalette Ef)
    as (pic & Hpic & Hw & Hh & _).
  - reflexivity.
  - exact PictureFacts.getDefaultPalette_bytes.
  - exists pic. auto.
Defined.

(** *** Maps *)

Lemma findIndex_None name lumps :
  findIndex name lumps = None <-> forall l, l ∈ lumps -> lump_name l <> name.
Proof.
  induction lumps as [|l lumps IH]; simpl.
  - split; [intros _ l Hl; inversion Hl | reflexivity].
  - destruct (String.eqb_spec (lump_name l) name) as [Heq|Hne].
    + split; [discriminate|]. intros H. destruct (H l); [left | exact Heq].
    + destruct (findIndex name lumps) as [i|]; simpl.
      * split; [discriminate|]. intros H. exfalso.
        assert (Hn : Some i = None); [|discriminate].
        apply IH. intros l' Hl'. apply H. right. exact Hl'.
      * split; [|reflexivity]. intros _ l' Hl'.
        inversion Hl' as [|? ? ? Hl'']; subst; [exact Hne|]. rename Hl'' into Hin'.
        apply IH; [reflexivity | exact Hin'].
Qed.

Lemma findIndex_first name before marker rest :
  (forall l, l ∈ before -> lump_name l <> name) ->
  lump_name marker = name ->
  findIndex name (before ++ marker :: rest) = Some (length before).
Proof.
  intros Hbefore Hmarker. induction before as [|l before IH]; simpl.
  - rewrite Hmarker, String.eqb_refl. reflexivity.
  - destruct (String.eqb_spec (lump_name l) name) as [Heq|Hne].
    + destruct (Hbefore l); [left | exact Heq].
    + rewrite IH; [reflexivity|]. intros l' Hl'. apply Hbefore. right. exact Hl'.
Qed.

Lemma lumpsBeforeNextMap_block block rest :
  Forall (fun l => isMapName (lump_name l) = false) block ->
  match rest with [] => True | next :: _ => isMapName (lump_name next) = true end ->
  lumpsBeforeNextMap (block ++ rest) = length block.
Proof.
  intros Hblock Hrest. induction Hblock as [|l block Hl _ IH]; simpl.
  - destruct rest as [|next rest]; [reflexivity|]. simpl. rewrite Hrest. reflexivity.
  - rewrite Hl, IH. reflexivity.
Qed.

Lemma drop_past (before : list Lump) n tl :
  drop (length before + n) (before ++ tl) = drop n tl.
Proof. induction before as [|l before IH]; simpl; [reflexivity | exact IH]. Qed.

(** X7. [getMap] returns [null] exactly when no directory entry has the
    name asked for, hence never for a name that [getMapNames] lists.
    Otherwise it decodes the block of the first entry with that name: the
    marker and the lumps after it up to the next entry whose name is a map
    name, or to the end of the directory. Lumps outside that block are not
    looked at. *)
Theorem getMap_block w mapName :
  (getMap w mapName = Ok None <-> forall l, l ∈ lumps w -> lump_name l <> mapName) /\
  (In mapName (getMapNames w) -> getMap w mapName <> Ok None) /\
  (forall before marker block rest,
     lumps w = before ++ marker :: block ++ rest ->
     (forall l, l ∈ before -> lump_name l <> mapName) ->
     lump_name marker = mapName ->
     Forall (fun l => isMapName (lump_name l) = false) block ->
     match rest with [] => True | next :: _ => isMapName (lump_name next) = true end ->
     getMap w mapName =
       (m ← decodeMap (buffer w) mapName (marker :: block); Ok (Some m))).
Proof.
  assert (Hnull : getMap w mapName = Ok None <->
                  forall l, l ∈ lumps w -> lump_name l <> mapName).
  { rewrite <- findIndex_None. unfold getMap.
    destruct (findIndex mapName (lumps w)) as [i|]; [|tauto].
    split; [|discriminate].
    destruct (decodeMap _ _ _); simpl; discriminate. }
  split; [exact Hnull|]. split.
  - intros Hin Hnone. destruct Hnull as [Hnull _]. specialize (Hnull Hnone).
    rename Hnull into Habsent.
    unfold getMapNames in Hin. apply in_map_iff in Hin as (l & Hname & Hl).
    apply filter_In in Hl as (Hl & _). apply list_elem_of_In in Hl.
    exact (Habsent l Hl Hname).
  - intros before marker block rest Hlumps Hbefore Hmarker Hblock Hrest.
    unfold getMap, mapLumpsAt. rewrite Hlumps.
    rewrite (findIndex_first _ _ _ _ Hbefore Hmarker).
    assert (Hafter : drop (S (length before)) (before ++ marker :: block ++ rest)
                     = block ++ rest).
    { replace (S (length before)) with (length before + 1)%nat by lia.
      rewrite drop_past. reflexivity. }
    assert (Hfrom : drop (length before) (before ++ marker :: block ++ rest)
                    = marker :: block ++ rest).
    { replace (length before) with (length before + 0)%nat at 1 by lia.
      rewrite drop_past. reflexivity. }
    rewrite Hafter, Hfrom, (lumpsBeforeNextMap_block _ _ Hblock Hrest).
    replace (S (length before) + length block - length before)%nat
      with (S (length block)) by lia.
    rewrite firstn_cons, (take_app_length block). reflexivity.
Qed.

Lemma getMap_block_witness :
  exists w, parse twoMapsWad = Ok w /\
    getMap w "E1M1" =
      (m ← decodeMap (buffer w) "E1M1" [mkLump "E1M1" 0 0; mkLump "VERTEXES" 12 4];
       Ok (Some m)).
Proof.
  assert (H : lumps <$> parse twoMapsWad
              = Ok [mkLump "E1M1" 0 0; mkLump "VERTEXES" 12 4;
                    mkLump "E1M2" 0 0; mkLump "VERTEXES" 12 8])
    by (vm_compute; reflexivity).
  destruct (parse twoMapsWad) as [w| |] eqn:E; [|discriminate H|discriminate H].
  simpl in H. injection H as Hlumps.
  exists w. split; [reflexivity|].
  destruct (getMap_block w "E1M1") as (_ & _ & Hblock).
  apply (Hblock [] (mkLump "E1M1" 0 0) [mkLump "VERTEXES" 12 4]
           [mkLump "E1M2" 0 0; mkLump "VERTEXES" 12 8]).
  - exact Hlumps.
  - intros l Hl. inversion Hl.
  - reflexivity.
  - repeat constructor.
  - reflexivity.
Defined.

End ContainerFacts.

(** ** Further properties of the game loop *)

Module PlayFacts.
Import WADParser MapRenderer Game Samples GameFacts.

Local Open Scope Q_scope.

(** *** Floor height *)

Lemma nearestFloorFrom_nearestFrom x y : forall rest nearestSector nearestFloor minDist2,
  nearestFloor = match nearestSector with Some s => floorHeight s | None => 0%Z end ->
  nearestFloorFrom x y rest nearestFloor minDist2 =
    match nearestFrom x y rest nearestSector minDist2 with
    | Some s => floorHeight s
    | None => 0%Z
    end.
Proof.
  induction rest as [|floorSector rest IH]; intros nearestSector nearestFloor minDist2 H.
  - exact H.
  - simpl. destruct (centre (polygon floorSector)) as [[cx cy]|]; [|apply IH; exact H].
    destruct (match minDist2 with None => true | Some m => Qltb (dist2 x y cx cy) m end).
    + apply IH. reflexivity.
    + apply IH. exact H.
Qed.

(** X8. [getFloorHeightAt] at the player's map position agrees with
    point location: it is the floor height of the sector that
    [getCurrentSector] returns, and 0 when that returns nothing. *)
Theorem getFloorHeightAt_current g :
  getFloorHeightAt g (px (position (player g))) (- pz (position (player g))) =
    match getCurrentSector g with
    | Some sector => floorHeight sector
    | None => 0%Z
    end.
Proof.
  unfold getFloorHeightAt, getCurrentSector.
  destruct (List.find _ (floorSectors g)) as [floorSector|]; [reflexivity|].
  apply nearestFloorFrom_nearestFrom. reflexivity.
Qed.

(** *** Collision *)







(** *** The ray-casting test on a rectangle *)

Lemma intersect_horizontal x y xa xb yv :
  intersect x y (mkVector2 xa yv) (mkVector2 xb yv) = false.
Proof.
  unfold intersect. simpl. destruct (Qltb y (inject_Z yv)); reflexivity.
Qed.

Lemma intersect_vertical x y xv yi yj :
  intersect x y (mkVector2 xv yi) (mkVector2 xv yj) =
    negb (eqb (Qltb y (inject_Z yi)) (Qltb y (inject_Z yj))) && Qltb x (inject_Z xv).
Proof.
  unfold intersect. simpl. f_equal.
  assert (H : (inject_Z xv - inject_Z xv) * (y - inject_Z yi)
              / (inject_Z yj - inject_Z yi) + inject_Z xv == inject_Z xv).
  { unfold Qdiv. ring. }
  unfold Qltb. f_equal. apply eq_true_iff_eq. rewrite !Qle_bool_iff, H. reflexivity.
Qed.

(** X10. On an axis-aligned rectangle given by its corners in the order
    (x0, y0), (x1, y0), (x1, y1), (x0, y1), the even-odd test is true exactly
    for the points with x0 <= x < x1 and y0 <= y < y1: the left and lower
    edges belong to the rectangle, the right and upper edges do not. *)
Theorem pointInPolygon_rectangle x0 y0 x1 y1 x y :
  (x0 < x1)%Z -> (y0 < y1)%Z ->
  pointInPolygon x y (rectangle x0 y0 x1 y1) = true <->
  (inject_Z x0 <= x /\ x < inject_Z x1) /\ (inject_Z y0 <= y /\ y < inject_Z y1).
Proof.
  intros Hx Hy. rewrite Zlt_Qlt in Hx, Hy.
  unfold pointInPolygon, rectangle. cbn [last pointInPolygonFrom].
  rewrite !intersect_horizontal, !intersect_vertical.
  destruct (Qltb y (inject_Z y0)) eqn:Ea; destruct (Qltb y (inject_Z y1)) eqn:Eb;
  destruct (Qltb x (inject_Z x0)) eqn:Ec; destruct (Qltb x (inject_Z x1)) eqn:Ed;
  simpl;
  repeat match goal with
         | H : Qltb _ _ = true |- _ => apply Qltb_true in H
         | H : Qltb _ _ = false |- _ => apply Qltb_false in H
         end;
  split; try discriminate; try (intros _; lra); try (intros; exfalso; lra);
  try reflexivity.
Qed.

Lemma pointInPolygon_rectangle_witness :
  pointInPolygon 32 32 (rectangle 0 0 64 64) = true /\
  pointInPolygon 64 32 (rectangle 0 0 64 64) <> true.
Proof.
  split.
  - apply (pointInPolygon_rectangle 0 0 64 64 32 32); [lia | lia |].
    unfold Qle, Qlt. simpl. lia.
  - intros H. apply (pointInPolygon_rectangle 0 0 64 64 64 32) in H; [| lia | lia].
    unfold Qle, Qlt in H. simpl in H. lia.
Defined.

(** *** Walls are never entered *)

Lemma checkCollision_same g g' p q :
  collisionLines g' = collisionLines g -> px p = px q -> pz p = pz q ->
  checkCollision g' p = checkCollision g q.
Proof. unfold checkCollision. intros -> -> ->. reflexivity. Qed.

Lemma slide_lines g moveVector : collisionLines (slide g moveVector) = collisionLines g.
Proof.
  unfold slide.
  repeat match goal with |- context [if ?c then _ else _] => destruct c end; reflexivity.
Qed.

Lemma slide_free_position g moveVector :
  let pos := position (player g) in
  let newPosition :=
    mkVector3 (px pos + px moveVector) (py pos + py moveVector) (pz pos + pz moveVector) in
  checkCollision g newPosition = false ->
  position (player (slide g moveVector)) = newPosition.
Proof. intros pos newPosition H. unfold slide. fold pos newPosition. rewrite H. reflexivity. Qed.

Lemma slide_clear g moveVector : clear g -> clear (slide g moveVector).
Proof.
  unfold clear. intros Hclear.
  rewrite (checkCollision_same g (slide g moveVector) _
             (position (player (slide g moveVector))))
    by (apply slide_lines || reflexivity).
  pose proof (slide_blocked_position g moveVector) as Hblocked.
  pose proof (slide_free_position g moveVector) as Hfree.
  cbv zeta in Hblocked, Hfree.
  set (pos := position (player g)) in *.
  set (newPosition := mkVector3 (px pos + px moveVector) (py pos + py moveVector)
                        (pz pos + pz moveVector)) in *.
  set (xOnly := mkVector3 (px pos + px moveVector) (py pos) (pz pos)) in *.
  set (zOnly := mkVector3 (px pos) (py pos) (pz pos + pz moveVector)) in *.
  destruct (checkCollision g newPosition) eqn:Efull.
  - rewrite (Hblocked eq_refl).
    destruct (checkCollision g xOnly) eqn:Ex; [|exact Ex].
    destruct (checkCollision g zOnly) eqn:Ez; [exact Hclear | exact Ez].
  - rewrite (Hfree eq_refl). exact Efull.
Qed.

Lemma updatePlayerHeight_lines g :
  collisionLines (updatePlayerHeight g) = collisionLines g.
Proof.
  unfold updatePlayerHeight.
  destruct (mapData g); [|reflexivity].
  destruct (getCurrentSector g) as [sector|].
  - repeat match goal with |- context [if ?c then _ else _] => destruct c end; reflexivity.
  - unfold findNearestSector. destruct (getCurrentSector g); [|reflexivity].
    destruct (Qltb _ _); reflexivity.
Qed.

Lemma movePlayer_clear g moveVector : clear g -> clear (movePlayer g moveVector).
Proof.
  intros Hclear. apply (slide_clear g moveVector) in Hclear.
  unfold clear, movePlayer in *. rewrite <- Hclear.
  destruct (updatePlayerHeight_xz (slide g moveVector)) as [Hx Hz].
  apply checkCollision_same; [apply updatePlayerHeight_lines | exact Hx | exact Hz].
Qed.

Lemma applyVerticalMovement_xz g delta :
  px (position (player (applyVerticalMovement g delta))) = px (position (player g)) /\
  pz (position (player (applyVerticalMovement g delta))) = pz (position (player g)) /\
  collisionLines (applyVerticalMovement g delta) = collisionLines g.
Proof.
  unfold applyVerticalMovement.
  repeat match goal with |- context [if ?c then _ else _] => destruct c end;
    simpl; auto.
Qed.

Lemma removeFirst_incl line lines l : l ∈ removeFirst line lines -> l ∈ lines.
Proof.
  induction lines as [|l' lines IH]; simpl; [auto|].
  destruct (bool_decide (l' = line)).
  - intros H. right. exact H.
  - intros H. inversion H; subst; [left | right; auto].
Qed.

Lemma checkCollision_fewer g g' p :
  (forall l, l ∈ collisionLines g' -> l ∈ collisionLines g) ->
  checkCollision g p = false -> checkCollision g' p = false.
Proof.
  unfold checkCollision. intros Hincl H.
  destruct (existsb _ (collisionLines g')) eqn:E; [|reflexivity].
  apply existsb_exists in E as (line & Hin & Hhit).
  rewrite <- H. symmetry. apply existsb_exists. exists line. split; [|exact Hhit].
  apply list_elem_of_In, Hincl, list_elem_of_In. exact Hin.
Qed.

Lemma tryOpenDoor_clear dirX dirY g : clear g -> clear (tryOpenDoor dirX dirY g).
Proof.
  unfold clear, tryOpenDoor. intros Hclear.
  destruct (mapData g); [|exact Hclear].
  destruct (closestDoorFrom _ _ _ _ _ _ _) as [door|]; [|exact Hclear].
  simpl. eapply checkCollision_fewer; [|exact Hclear].
  simpl. intros l. apply removeFirst_incl.
Qed.

(** X11. A frame never moves the player into a wall: if the disc of
    the player overlaps no collision line before [update], it overlaps none
    after it, whatever the keys, the facing, the move vector and the time
    step are: [movePlayer] only ever takes a position that it has tested,
    opening a door only removes a line, and gravity does not change x and
    z. *)
Theorem update_clear isPaused openDoor dirX dirY moveVector delta g :
  clear g -> clear (update isPaused openDoor dirX dirY moveVector delta g).
Proof.
  intros Hclear. unfold update. destruct isPaused; [exact Hclear|].
  set (g1 := if openDoor then tryOpenDoor dirX dirY g else g).
  assert (H1 : clear g1) by (unfold g1; destruct openDoor; [apply tryOpenDoor_clear|]; auto).
  set (g2 := applyGravity g1 delta).
  assert (H2 : clear g2) by exact H1.
  set (g3 := match moveVector with Some mv => movePlayer g2 mv | None => g2 end).
  assert (H3 : clear g3) by (unfold g3; destruct moveVector; [apply movePlayer_clear|]; auto).
  unfold clear in *. rewrite <- H3.
  destruct (applyVerticalMovement_xz g3 delta) as (Hx & Hz & Hl).
  apply checkCollision_same; assumption.
Qed.

Lemma update_clear_witness :
  clear cornerGame /\
  clear (update false false 0 (-(1)) (Some cornerMove) (1 # 10) cornerGame).
Proof.
  assert (H : clear cornerGame) by (vm_compute; reflexivity).
  split; [exact H|]. apply update_clear. exact H.
Defined.

(** *** The floor under the player *)

(** X12. In a sector that passes the headroom check, [updatePlayerHeight]
    never leaves the player below the height at which he stands on the
    sector's floor. A rise of more than the step height of 24 is therefore
    not refused: the player is put on the higher floor at once, grounded and
    with no vertical velocity, as for a small step. *)
Theorem updatePlayerHeight_climbs g m sector :
  mapData g = Some m ->
  getCurrentSector g = Some sector ->
  let floor := inject_Z (floorHeight sector) in
  let ceiling := inject_Z (ceilingHeight sector) in
  let heightDiff := floor - (py (position (player g)) - height) in
  let p' := player (updatePlayerHeight g) in
  56 <= ceiling - floor ->
  floor + height <= py (position p') /\
  (24 < heightDiff ->
   py (position p') = floor + height /\ onGround p' = true /\ verticalVelocity p' = 0).
Proof.
  intros Hmap Hsector floor ceiling heightDiff p' Hroom.
  unfold p', updatePlayerHeight. rewrite Hmap, Hsector. cbv zeta.
  fold floor ceiling heightDiff.
  destruct (Qltb (ceiling - floor) 56) eqn:Eroom; [apply Qltb_true in Eroom; lra|].
  split.
  - match goal with |- context [Qltb (py (position ?P)) (floor + height)] =>
      destruct (Qltb (py (position P)) (floor + height)) eqn:Elow end.
    + simpl. lra.
    + apply Qltb_false in Elow. exact Elow.
  - intros Hhigh.
    assert (Habs : Qle_bool (Qabs heightDiff) 24 = false).
    { apply Qle_bool_false. pose proof (Qle_Qabs heightDiff). lra. }
    assert (Hneg : Qltb heightDiff 0 = false) by (apply Qltb_false; lra).
    rewrite Habs, Hneg.
    assert (Hlow : Qltb (py (position (player g))) (floor + height) = true).
    { apply Qltb_true. unfold heightDiff, height in *. lra. }
    rewrite Hlow. simpl. auto.
Qed.

Lemma updatePlayerHeight_climbs_witness :
  py (position (player (updatePlayerHeight sunkGame))) = inject_Z 0 + height /\
  onGround (player (updatePlayerHeight sunkGame)) = true.
Proof.
  destruct (updatePlayerHeight_climbs sunkGame squareMap (mkSectorInfo 0 128 0))
    as (_ & Hclimb).
  - reflexivity.
  - vm_compute. reflexivity.
  - vm_compute. discriminate.
  - destruct Hclimb as (Hy & Hg & _).
    + vm_compute. reflexivity.
    + auto.
Defined.

(** X13. After [applyVerticalMovement] the player is never below the
    height at which he stands on the floor found by point location before
    the call, and never below 41, the standing height over a floor at 0; x,
    z and the collision lines are as before. *)
Theorem applyVerticalMovement_floor g delta :
  let p' := position (player (applyVerticalMovement g delta)) in
  floorUnder g + height <= py p' /\ height <= py p' /\
  px p' = px (position (player g)) /\ pz p' = pz (position (player g)) /\
  collisionLines (applyVerticalMovement g delta) = collisionLines g.
Proof.
  intros p'. destruct (applyVerticalMovement_xz g delta) as (Hx & Hz & Hl).
  split; [|split; [|auto]]; unfold p', applyVerticalMovement, floorUnder.
  - destruct (match mapData g with None => true | Some _ => false end
              && (length (floorSectors g) =? 0)%nat) eqn:Enone.
    + apply andb_prop in Enone as [_ Hlen]. apply Nat.eqb_eq in Hlen.
      unfold getCurrentSector.
      destruct (floorSectors g); [|discriminate]. simpl.
      destruct (Qltb (py (position (player g))) height) eqn:E; simpl.
      * lra.
      * apply Qltb_false in E. lra.
    + cbv zeta.
      set (floor := match getCurrentSector g with
                    | Some s => inject_Z (floorHeight s) | None => 0 end).
      repeat match goal with
             | |- context [Qltb ?a ?b] => destruct (Qltb a b) eqn:?
             | |- context [Qle_bool ?a ?b] => destruct (Qle_bool a b) eqn:?
             end;
      repeat match goal with
             | H : Qltb _ _ = true |- _ => apply Qltb_true in H
             | H : Qltb _ _ = false |- _ => apply Qltb_false in H
             | H : Qle_bool _ _ = true |- _ => apply Qle_bool_iff in H
             | H : Qle_bool _ _ = false |- _ => apply Qle_bool_false in H
             end;
      simpl in *; try lra;
      try (pose proof (Q.le_max_l (floor + height) (0 + height)); lra).
  - destruct (match mapData g with None => true | Some _ => false end
              && (length (floorSectors g) =? 0)%nat) eqn:Enone.
    + destruct (Qltb (py (position (player g))) height) eqn:E; simpl.
      * lra.
      * apply Qltb_false in E. lra.
    + cbv zeta.
      set (floor := match getCurrentSector g with
                    | Some s => inject_Z (floorHeight s) | None => 0 end).
      repeat match goal with
             | |- context [Qltb ?a ?b] => destruct (Qltb a b) eqn:?
             | |- context [Qle_bool ?a ?b] => destruct (Qle_bool a b) eqn:?
             end;
      repeat match goal with
             | H : Qltb _ _ = true |- _ => apply Qltb_true in H
             | H : Qltb _ _ = false |- _ => apply Qltb_false in H
             | H : Qle_bool _ _ = true |- _ => apply Qle_bool_iff in H
             | H : Qle_bool _ _ = false |- _ => apply Qle_bool_false in H
             end;
      simpl in *; try lra;
      try (pose proof (Q.le_max_r (floor + height) (0 + height)); unfold height in *; lra).
Qed.

Lemma applyVerticalMovement_lands g m delta :
  mapData g = Some m ->
  py (position (player g)) + verticalVelocity (player g) * delta <= floorUnder g + height ->
  let p' := player (applyVerticalMovement g delta) in
  py (position p') == Qmax (floorUnder g + height) height /\
  onGround p' = true /\ verticalVelocity p' = 0.
Proof.
  intros Hmap Hy p'. unfold p', applyVerticalMovement. rewrite Hmap. cbn [andb].
  unfold floorUnder in *. cbv zeta.
  set (floor := match getCurrentSector g with
                | Some s => inject_Z (floorHeight s) | None => 0 end) in *.
  cbn [position py withY verticalVelocity onGround].
  apply Qle_bool_iff in Hy. rewrite Hy.
  pose proof (Q.max_spec (floor + height) height) as Hmax.
  pose proof (Q.max_spec (floor + height) (0 + height)) as Hmax'.
  repeat match goal with
         | |- context [Qltb ?a ?b] => destruct (Qltb a b) eqn:?
         | |- context [Qle_bool ?a ?b] => destruct (Qle_bool a b) eqn:?
         end;
  repeat match goal with
         | H : Qltb _ _ = true |- _ => apply Qltb_true in H
         | H : Qltb _ _ = false |- _ => apply Qltb_false in H
         | H : Qle_bool _ _ = true |- _ => apply Qle_bool_iff in H
         | H : Qle_bool _ _ = false |- _ => apply Qle_bool_false in H
         end;
  cbn [setPlayer player position verticalVelocity onGround withY py land] in *;
  (split; [|split; reflexivity]);
  revert Hmax Hmax';
  generalize (Qmax (floor + height) height) (Qmax (floor + height) (0 + height));
  intros M M' Hmax Hmax'; unfold height in *; lra.
Qed.

(** X14. A frame without a move or a door, for a player of a loaded
    map who is at or below his standing height over the floor found by point
    location and is not moving up: afterwards he is grounded with no vertical
    velocity, at the larger of that standing height and 41. Over a floor at
    or above 0 he stands on the floor; over a floor below 0 he is held at
    height 41, above the floor. *)
Theorem update_lands g m dirX dirY delta :
  mapData g = Some m ->
  0 <= delta ->
  verticalVelocity (player g) <= 0 ->
  py (position (player g)) <= floorUnder g + height ->
  let p' := player (update false false dirX dirY None delta g) in
  py (position p') == Qmax (floorUnder g + height) height /\
  onGround p' = true /\ verticalVelocity p' = 0.
Proof.
  intros Hmap Hdelta Hv Hy p'.
  apply (applyVerticalMovement_lands (applyGravity g delta) m delta); [exact Hmap|].
  change (floorUnder (applyGravity g delta)) with (floorUnder g).
  cbn [applyGravity setPlayer player position verticalVelocity].
  set (v := verticalVelocity (player g) - gravity * delta).
  assert (Hv' : v <= 0).
  { unfold v, gravity.
    assert (0 <= 800 * delta) by (apply Qmult_le_0_compat; lra). lra. }
  assert (0 <= (- v) * delta) by (apply Qmult_le_0_compat; lra). lra.
Qed.

Lemma update_lands_witness :
  py (position (player (update false false 0 (-(1)) None (1 # 10) cornerGame)))
    == Qmax (floorUnder cornerGame + height) height /\
  onGround (player (update false false 0 (-(1)) None (1 # 10) cornerGame)) = true.
Proof.
  destruct (update_lands cornerGame cornerMap 0 (-(1)) (1 # 10)) as (Hy & Hg & _).
  - reflexivity.
  - vm_compute. discriminate.
  - vm_compute. discriminate.
  - vm_compute. discriminate.
  - split; [exact Hy | exact Hg].
Defined.

(** *** Doors *)





Lemma closestDoorFrom_no_door x y dirX dirY : forall rest closestDoor closestDist2,
  Forall (fun line => isDoor line = false) rest ->
  closestDoorFrom x y dirX dirY rest closestDoor closestDist2 = closestDoor.
Proof.
  induction rest as [|line rest IH]; intros closestDoor closestDist2 H; [reflexivity|].
  inversion H as [|? ? Hline Hrest]; subst.
  cbn [closestDoorFrom]. rewrite Hline. cbn [negb]. apply IH. exact Hrest.
Qed.

(** X16. On the collision lines that [buildWalls] returns, [tryOpenDoor]
    never changes the game, whatever the position and the facing of the
    player: none of those lines is flagged as a door, so there is nothing for
    it to open. *)
Theorem tryOpenDoor_after_buildWalls m lines dirX dirY g :
  MapRenderer.buildWalls m = Ok lines ->
  collisionLines g = lines ->
  tryOpenDoor dirX dirY g = g.
Proof.
  intros Hwalls Hlines. apply MapRendererFacts.buildWalls_no_door in Hwalls.
  unfold tryOpenDoor. destruct (mapData g); [|reflexivity].
  rewrite Hlines, closestDoorFrom_no_door by exact Hwalls. reflexivity.
Qed.

Lemma tryOpenDoor_after_buildWalls_witness :
  exists lines, MapRenderer.buildWalls cornerMap = Ok lines /\
    tryOpenDoor 0 1 cornerGame = cornerGame.
Proof.
  destruct (MapRenderer.buildWalls cornerMap) as [lines| |] eqn:E.
  - exists lines. split; [reflexivity|].
    apply (tryOpenDoor_after_buildWalls cornerMap lines 0 1 cornerGame E).
    unfold cornerGame, loaded. cbn [collisionLines]. rewrite E. reflexivity.
  - vm_compute in E. discriminate.
  - vm_compute in E. discriminate.
Defined.

(** *** The spawn *)




End PlayFacts.

(** ** Further properties of the map renderer *)

Module SceneFacts.
Import WADParser MapRenderer Samples MapRendererFacts.

(** *** Collision lines *)





(** *** Sector polygons *)

Lemma findNext_in : forall rest i used currentEndVertex j line,
  findNext rest i used currentEndVertex = Some (j, line) ->
  line ∈ rest /\ lineStartV line = currentEndVertex /\ (j ∉ used) /\
  (i <= j < i + length rest)%nat.
Proof.
  induction rest as [|l rest IH]; intros i used cur j line H; [discriminate|].
  cbn [findNext] in H. cbn [length].
  destruct (bool_decide (i ∈ used)) eqn:Eu.
  - apply IH in H as (Hin & Hs & Hj & Hr). split; [right; exact Hin|]. repeat split; auto; lia.
  - destruct (Z.eqb_spec (lineStartV l) cur) as [Heq|Hne].
    + injection H as <- <-. apply bool_decide_eq_false in Eu.
      split; [left|]. repeat split; auto; lia.
    + apply IH in H as (Hin & Hs & Hj & Hr). split; [right; exact Hin|].
      repeat split; auto; lia.
Qed.

Lemma lineStartV_end m sectorLines line v :
  line ∈ sectorLines ->
  array_get (vertexes m) (lineStartV line) = Some v ->
  endOfLines m sectorLines (toVector2 v).
Proof.
  intros Hin Hv. exists line, v. split; [exact Hin|]. split; [|reflexivity].
  unfold lineStartV in Hv. destruct (forward line); auto.
Qed.

Lemma chainBody_points m sectorLines c c' :
  chainBody m sectorLines c = Some c' ->
  Forall (endOfLines m sectorLines) (points c) ->
  Forall (endOfLines m sectorLines) (points c').
Proof.
  unfold chainBody. intros H Hpts.
  destruct (findNext sectorLines 0 (used c) (currentEndVertex c)) as [[i line]|] eqn:Ef;
    [|discriminate].
  injection H as <-. cbn [points]. apply findNext_in in Ef as (Hin & _).
  destruct (array_get (vertexes m) (lineStartV line)) as [v|] eqn:Ev; [|exact Hpts].
  apply Forall_app. split; [exact Hpts|]. constructor; [|constructor].
  eapply lineStartV_end; eauto.
Qed.

Lemma chainLoop_points m sectorLines : forall fuel c c',
  chainLoop fuel m sectorLines c = Ok c' ->
  Forall (endOfLines m sectorLines) (points c) ->
  Forall (endOfLines m sectorLines) (points c').
Proof.
  induction fuel as [|fuel IH]; intros c c' H Hpts; [discriminate|].
  cbn [chainLoop] in H. destruct (chainGuard sectorLines c).
  - destruct (chainBody m sectorLines (tick c)) as [c2|] eqn:Eb.
    + eapply IH; [exact H|]. eapply chainBody_points; [exact Eb | exact Hpts].
    + injection H as <-. exact Hpts.
  - injection H as <-. exact Hpts.
Qed.

Lemma uniqueVertices_points m sectorLines : forall rest acc,
  (forall line, line ∈ rest -> line ∈ sectorLines) ->
  Forall (endOfLines m sectorLines) acc ->
  Forall (endOfLines m sectorLines) (uniqueVertices m rest acc).
Proof.
  induction rest as [|line rest IH]; intros acc Hsub Hacc; [exact Hacc|].
  cbn [uniqueVertices]. apply IH; [intros l Hl; apply Hsub; right; exact Hl|].
  assert (Hline : line ∈ sectorLines) by (apply Hsub; left).
  assert (Hadd : forall o acc0,
            (forall v, o = Some v -> endOfLines m sectorLines (toVector2 v)) ->
            Forall (endOfLines m sectorLines) acc0 ->
            Forall (endOfLines m sectorLines)
              match o with
              | Some v => if bool_decide (toVector2 v ∈ acc0) then acc0
                          else acc0 ++ [toVector2 v]
              | None => acc0
              end).
  { intros [v|] acc0 Ho Hacc0; [|exact Hacc0].
    destruct (bool_decide (toVector2 v ∈ acc0)); [exact Hacc0|].
    apply Forall_app. split; [exact Hacc0|]. constructor; [|constructor]. auto. }
  apply Hadd.
  - intros v Hv. exists line, v. auto.
  - apply Hadd; [|exact Hacc]. intros v Hv. exists line, v. auto.
Qed.

(** X19. Every point of the polygon that [getSectorPolygon] returns for
    a sector is an end point of a linedef that has a side in that sector,
    whether the polygon was chained from the lines or comes from the
    fallback, whose sort by angle only permutes the points. *)
Theorem getSectorPolygon_points sortByAngle m sectorIndex polygon :
  (forall points, sortByAngle points ≡ₚ points) ->
  getSectorPolygon sortByAngle m sectorIndex = Ok polygon ->
  Forall (endOfLines m (collectSectorLines m sectorIndex 0 (linedefs m))) polygon.
Proof.
  intros Hsort. unfold getSectorPolygon, getSectorPolygonWith.
  set (sectorLines := collectSectorLines m sectorIndex 0 (linedefs m)).
  destruct sectorLines as [|currentLine rest] eqn:El.
  { intros H. injection H as <-. constructor. }
  rewrite <- El.
  destruct (array_get (vertexes m) (lineStartV currentLine)) as [startV|] eqn:Ev.
  2: { intros H. injection H as <-. constructor. }
  intros H. apply bind_Ok_inv in H as (c & Hloop & H).
  assert (Hfirst : currentLine ∈ sectorLines) by (rewrite El; left).
  destruct (length (points c) <? 3)%nat.
  - injection H as <-. unfold getSectorPolygonFallback.
    assert (Hu : Forall (endOfLines m sectorLines) (uniqueVertices m sectorLines []))
      by (apply uniqueVertices_points; [auto | constructor]).
    destruct (2 <? length (uniqueVertices m sectorLines []))%nat; [|exact Hu].
    rewrite Forall_forall in Hu |- *. intros p Hp. apply Hu.
    rewrite <- (Hsort _). exact Hp.
  - injection H as <-. eapply chainLoop_points; [exact Hloop|].
    constructor; [|constructor]. eapply lineStartV_end; eauto.
Qed.

Lemma getSectorPolygon_points_witness :
  exists polygon,
    getSectorPolygon (fun points => points) squareMap 0 = Ok polygon /\
    Forall (endOfLines squareMap (collectSectorLines squareMap 0 0 (linedefs squareMap)))
      polygon.
Proof.
  destruct (getSectorPolygon (fun points => points) squareMap 0) as [polygon| |] eqn:E.
  - exists polygon. split; [reflexivity|].
    apply (getSectorPolygon_points (fun points => points) squareMap 0 polygon);
      [reflexivity | exact E].
  - vm_compute in E. discriminate.
  - vm_compute in E. discriminate.
Defined.

(** *** Floor sectors *)



End SceneFacts.

(** ** Textures *)

Module TextureFacts.
Import WADParser Samples WADParserFacts PictureFacts ContainerFacts.

Lemma upto_elem n z : z ∈ upto n <-> 0 <= z < Z.of_nat n.
Proof.
  unfold upto. rewrite list_elem_of_In, in_map_iff. split.
  - intros (k & <- & Hk). apply in_seq in Hk. lia.
  - intros H. exists (Z.to_nat z). split; [lia|]. apply in_seq. lia.
Qed.

Lemma upto_NoDup n : NoDup (upto n).
Proof.
  unfold upto. apply NoDup_ListNoDup, Finite.Injective_map_NoDup.
  - intros a b H. lia.
  - apply seq_NoDup.
Qed.

Section Fold.
Context {K : Type} (f : list Z -> K -> list Z) (pixelOffset : Z).
Hypothesis f_length : forall d k, length (f d k) = length d.

Lemma fold_left_length ks : forall d, length (fold_left f ks d) = length d.
Proof. induction ks as [|k ks IH]; intros d; simpl; [reflexivity|]. rewrite IH. apply f_length. Qed.

Lemma fold_left_unchanged ks : forall d,
  (forall k d, k ∈ ks -> rgbaAt (f d k) pixelOffset = rgbaAt d pixelOffset) ->
  rgbaAt (fold_left f ks d) pixelOffset = rgbaAt d pixelOffset.
Proof.
  induction ks as [|k ks IH]; intros d H; simpl; [reflexivity|].
  rewrite IH; [apply H; left|]. intros k' d' Hk'. apply H. right. exact Hk'.
Qed.

Lemma fold_left_once n ks k0 v : forall d,
  NoDup ks -> k0 ∈ ks ->
  (forall k d, k ∈ ks -> k <> k0 -> rgbaAt (f d k) pixelOffset = rgbaAt d pixelOffset) ->
  (forall d, length d = n -> rgbaAt (f d k0) pixelOffset = v) ->
  length d = n ->
  rgbaAt (fold_left f ks d) pixelOffset = v.
Proof.
  induction ks as [|k ks IH]; intros d Hnd Hin Hother Hsame Hlen; [inversion Hin|].
  apply NoDup_cons in Hnd as [Hk Hnd]. simpl.
  apply elem_of_cons in Hin as [<-|Hin'].
  - rewrite fold_left_unchanged; [apply Hsame; exact Hlen|].
    intros k' d' Hk'. apply Hother; [right; exact Hk'|]. intros ->. contradiction.
  - apply IH; auto.
    + intros k' d' Hk' Hne. apply Hother; [right; exact Hk' | exact Hne].
    + rewrite f_length. exact Hlen.
Qed.

End Fold.

(** One step of the compositing loops, seen from the pixel [(X, Y)] of the
    texture. *)
Section Blit.
Context (src : Picture) (w h : Z) (ref : PatchRef) (X Y : Z).
Hypothesis HX : 0 <= X < w.
Hypothesis HY : 0 <= Y < h.

Lemma blitPixel_length x y dest : length (blitPixel src w h ref x y dest) = length dest.
Proof.
  unfold blitPixel.
  repeat match goal with |- context [if ?c then _ else _] => destruct c end;
    rewrite ?u8_store_length; reflexivity.
Qed.

Lemma blitPixel_other x y dest :
  0 <= x -> 0 <= y ->
  ~ (originX ref + x = X /\ originY ref + y = Y) ->
  rgbaAt (blitPixel src w h ref x y dest) (pixelOffset w X Y) =
    rgbaAt dest (pixelOffset w X Y).
Proof.
  intros Hx Hy Hne. unfold blitPixel. cbv zeta.
  destruct ((0 <=? originX ref + x) && (originX ref + x <? w)
            && (0 <=? originY ref + y) && (originY ref + y <? h)) eqn:Ein; [|reflexivity].
  destruct (0 <? u8_read (pixels src) ((y * pic_width src + x) * 4 + 3)); [|reflexivity].
  apply andb_prop in Ein as [Ein H4]. apply andb_prop in Ein as [Ein H3].
  apply andb_prop in Ein as [H1 H2].
  apply Z.leb_le in H1, H3. apply Z.ltb_lt in H2, H4.
  pose proof (pixelOffset_apart w X Y (originX ref + x) (originY ref + y)) as Hapart.
  unfold pixelOffset in *.
  assert (0 <= Y * w) by (apply Z.mul_nonneg_nonneg; lia).
  unfold rgbaAt. rewrite !u8_store_other by lia. reflexivity.
Qed.

Lemma blitPixel_same x y dest r g b a :
  originX ref + x = X -> originY ref + y = Y ->
  0 <= x -> 0 <= y -> 0 <= pic_width src ->
  Z.of_nat (length dest) = w * h * 4 ->
  rgba src x y = Some (r, g, b, a) ->
  isByte r -> isByte g -> isByte b -> isByte a ->
  rgbaAt (blitPixel src w h ref x y dest) (pixelOffset w X Y) =
    if 0 <? a then Some (r, g, b, a) else rgbaAt dest (pixelOffset w X Y).
Proof.
  intros HeX HeY Hx Hy Hpw Hlen Hsrc Hr Hg Hb Ha. unfold blitPixel. cbv zeta.
  rewrite HeX, HeY.
  destruct (Z.leb_spec 0 X); [|lia]. destruct (Z.ltb_spec X w); [|lia].
  destruct (Z.leb_spec 0 Y); [|lia]. destruct (Z.ltb_spec Y h); [|lia].
  cbn [andb].
  unfold rgba, rgbaAt, pixelOffset in Hsrc.
  set (srcOffset := (y * pic_width src + x) * 4) in *.
  assert (Hs0 : 0 <= srcOffset).
  { unfold srcOffset. assert (0 <= y * pic_width src) by (apply Z.mul_nonneg_nonneg; lia).
    lia. }
  destruct (pixels src !! Z.to_nat srcOffset) as [r0|] eqn:E0; [|discriminate].
  destruct (pixels src !! Z.to_nat (srcOffset + 1)) as [g0|] eqn:E1; [|discriminate].
  destruct (pixels src !! Z.to_nat (srcOffset + 2)) as [b0|] eqn:E2; [|discriminate].
  destruct (pixels src !! Z.to_nat (srcOffset + 3)) as [a0|] eqn:E3; [|discriminate].
  cbn in Hsrc. injection Hsrc as -> -> -> ->.
  assert (Hread : forall k v, 0 <= k -> pixels src !! Z.to_nat (srcOffset + k) = Some v ->
                              u8_read (pixels src) (srcOffset + k) = v).
  { intros k v Hk Hv. unfold u8_read. destruct (Z.leb_spec 0 (srcOffset + k)); [|lia].
    rewrite Hv. reflexivity. }
  rewrite (Hread 3 a), (Hread 1 g), (Hread 2 b) by (assumption || lia).
  replace (u8_read (pixels src) srcOffset) with r
    by (symmetry; rewrite <- (Z.add_0_r srcOffset); apply Hread;
        [lia | rewrite Z.add_0_r; exact E0]).
  destruct (0 <? a); [|reflexivity].
  pose proof (pixelOffset_inside w h X Y (length dest) HX HY Hlen) as [Ho Hend].
  unfold pixelOffset in *. set (o := (Y * w + X) * 4) in *.
  unfold isByte in *. unfold rgbaAt.
  rewrite (u8_store_other _ (o + 3) o), (u8_store_other _ (o + 2) o),
    (u8_store_other _ (o + 1) o), u8_store_same by (rewrite ?u8_store_length; lia).
  rewrite (u8_store_other _ (o + 3) (o + 1)), (u8_store_other _ (o + 2) (o + 1)),
    u8_store_same by (rewrite ?u8_store_length; lia).
  rewrite (u8_store_other _ (o + 3) (o + 2)), u8_store_same
    by (rewrite ?u8_store_length; lia).
  rewrite u8_store_same by (rewrite ?u8_store_length; lia).
  rewrite !Z.mod_small by lia. reflexivity.
Qed.

Lemma blitPixel_transparent x y dest r g b a :
  0 <= x -> 0 <= y -> 0 <= pic_width src ->
  rgba src x y = Some (r, g, b, a) -> a <= 0 ->
  blitPixel src w h ref x y dest = dest.
Proof.
  intros Hx Hy Hpw Hsrc Ha. unfold blitPixel. cbv zeta.
  destruct ((0 <=? originX ref + x) && (originX ref + x <? w)
            && (0 <=? originY ref + y) && (originY ref + y <? h)); [|reflexivity].
  unfold rgba, rgbaAt, pixelOffset in Hsrc.
  set (srcOffset := (y * pic_width src + x) * 4) in *.
  assert (Hs0 : 0 <= srcOffset).
  { unfold srcOffset. assert (0 <= y * pic_width src) by (apply Z.mul_nonneg_nonneg; lia).
    lia. }
  destruct (pixels src !! Z.to_nat srcOffset) as [r0|]; [|discriminate].
  destruct (pixels src !! Z.to_nat (srcOffset + 1)) as [g0|]; [|discriminate].
  destruct (pixels src !! Z.to_nat (srcOffset + 2)) as [b0|]; [|discriminate].
  destruct (pixels src !! Z.to_nat (srcOffset + 3)) as [a0|] eqn:E3; [|discriminate].
  cbn in Hsrc. injection Hsrc as -> -> -> ->.
  unfold u8_read. destruct (Z.leb_spec 0 (srcOffset + 3)); [|lia]. rewrite E3. simpl.
  destruct (Z.ltb_spec 0 a); [lia | reflexivity].
Qed.

Lemma blitRow_length y dest : length (blitRow src w h ref y dest) = length dest.
Proof. apply fold_left_length. intros. apply blitPixel_length. Qed.

Lemma blit_rows dest :
  blit src w h ref dest =
    fold_left (fun dest y => blitRow src w h ref y dest)
      (upto (Z.to_nat (pic_height src))) dest.
Proof. reflexivity. Qed.

Lemma blit_length dest : length (blit src w h ref dest) = length dest.
Proof. rewrite blit_rows. apply fold_left_length. intros. apply blitRow_length. Qed.

Lemma src_pixel x y :
  Forall isByte (pixels src) ->
  Z.of_nat (length (pixels src)) = pic_width src * pic_height src * 4 ->
  0 <= x < pic_width src -> 0 <= y < pic_height src ->
  exists r g b a,
    rgba src x y = Some (r, g, b, a) /\ isByte r /\ isByte g /\ isByte b /\ isByte a.
Proof.
  intros Hbytes Hlen Hx Hy.
  destruct (pixelOffset_inside (pic_width src) (pic_height src) x y _ Hx Hy Hlen)
    as [Ho Hend].
  unfold rgba, rgbaAt. set (o := pixelOffset (pic_width src) x y) in *.
  assert (Hget : forall k, 0 <= k <= 3 ->
            exists v, pixels src !! Z.to_nat (o + k) = Some v /\ isByte v).
  { intros k Hk. destruct (lookup_lt_is_Some_2 (pixels src) (Z.to_nat (o + k))) as [v Hv];
      [lia|]. exists v. split; [exact Hv|].
    rewrite Forall_forall in Hbytes. apply Hbytes. eapply list_elem_of_lookup_2. exact Hv. }
  destruct (Hget 0) as (r & Hr & Hrb); [lia|]. rewrite Z.add_0_r in Hr.
  destruct (Hget 1) as (g & Hg & Hgb); [lia|].
  destruct (Hget 2) as (b & Hb & Hbb); [lia|].
  destruct (Hget 3) as (a & Ha & Hab); [lia|].
  exists r, g, b, a. rewrite Hr, Hg, Hb, Ha. auto.
Qed.

End Blit.

(** X21. Compositing a rendered patch into a texture: after [blit], the
    pixel [(X, Y)] of the texture is the pixel [(X - originX, Y - originY)]
    of the patch when that pixel lies in the patch and its alpha is not 0,
    and is what it was before otherwise. *)
Theorem blit_composites src w h ref dest X Y :
  Z.of_nat (length dest) = w * h * 4 ->
  Forall isByte (pixels src) ->
  Z.of_nat (length (pixels src)) = pic_width src * pic_height src * 4 ->
  0 <= X < w -> 0 <= Y < h ->
  let x := X - originX ref in
  let y := Y - originY ref in
  rgbaAt (blit src w h ref dest) (pixelOffset w X Y) =
    if (0 <=? x) && (x <? pic_width src) && (0 <=? y) && (y <? pic_height src)
    then match rgba src x y with
         | Some (r, g, b, a) =>
             if 0 <? a then Some (r, g, b, a) else rgbaAt dest (pixelOffset w X Y)
         | None => rgbaAt dest (pixelOffset w X Y)
         end
    else rgbaAt dest (pixelOffset w X Y).
Proof.
  intros Hlen Hbytes Hsrc HX HY x y.
  assert (Hunchanged :
    (forall x' y', 0 <= x' < pic_width src -> 0 <= y' < pic_height src ->
       forall d, rgbaAt (blitPixel src w h ref x' y' d) (pixelOffset w X Y)
                 = rgbaAt d (pixelOffset w X Y)) ->
    rgbaAt (blit src w h ref dest) (pixelOffset w X Y) = rgbaAt dest (pixelOffset w X Y)).
  { intros Hall. rewrite blit_rows. apply fold_left_unchanged.
    intros y' d Hy'. apply upto_elem in Hy'. unfold blitRow. apply fold_left_unchanged.
    intros x' d' Hx'. apply upto_elem in Hx'. apply Hall; lia. }
  destruct ((0 <=? x) && (x <? pic_width src) && (0 <=? y) && (y <? pic_height src))
    eqn:Ein.
  - apply andb_prop in Ein as [Ein H4]. apply andb_prop in Ein as [Ein H3].
    apply andb_prop in Ein as [H1 H2].
    apply Z.leb_le in H1, H3. apply Z.ltb_lt in H2, H4.
    destruct (src_pixel src x y Hbytes Hsrc) as (r & g & b & a & Hpix & Hr & Hg & Hb & Ha);
      [lia | lia|].
    rewrite Hpix. destruct (Z.ltb_spec 0 a) as [Hopaque|Htransparent].
    + rewrite blit_rows.
      apply (fold_left_once _ _ (fun d k => eq_sym (eq_sym (blitRow_length src w h ref k d)))
               (length dest) _ y).
      * apply upto_NoDup.
      * apply upto_elem. lia.
      * intros y' d Hy' Hne. apply upto_elem in Hy'. unfold blitRow.
        apply fold_left_unchanged. intros x' d' Hx'. apply upto_elem in Hx'.
        apply (blitPixel_other src w h ref X Y); lia.
      * intros d Hd. unfold blitRow.
        apply (fold_left_once _ _
                 (fun d k => eq_sym (eq_sym (blitPixel_length src w h ref k y d)))
                 (length dest) _ x).
        -- apply upto_NoDup.
        -- apply upto_elem. lia.
        -- intros x' d' Hx' Hne. apply upto_elem in Hx'.
           apply (blitPixel_other src w h ref X Y); lia.
        -- intros d' Hd'.
           rewrite (blitPixel_same src w h ref X Y HX HY x y d' r g b a);
             try assumption; try lia.
           destruct (Z.ltb_spec 0 a); [reflexivity | lia].
        -- exact Hd.
      * reflexivity.
    + apply Hunchanged. intros x' y' Hx' Hy' d.
      destruct (Z.eq_dec x' x) as [->|Hnx].
      * destruct (Z.eq_dec y' y) as [->|Hny].
        -- rewrite (blitPixel_transparent src w h ref x y d r g b a); auto; lia.
        -- apply (blitPixel_other src w h ref X Y); lia.
      * apply (blitPixel_other src w h ref X Y); lia.
  - apply Hunchanged. intros x' y' Hx' Hy' d.
    apply (blitPixel_other src w h ref X Y); lia.
Qed.

Lemma blit_composites_witness :
  rgbaAt (blit dotPicture 2 2 (mkPatchRef 1 1 None) (replicate 16 0)) (pixelOffset 2 1 1)
    = Some (7, 7, 7, 255) /\
  rgbaAt (blit dotPicture 2 2 (mkPatchRef 1 1 None) (replicate 16 0)) (pixelOffset 2 0 1)
    = Some (0, 0, 0, 0).
Proof.
  split.
  - rewrite (blit_composites dotPicture 2 2 (mkPatchRef 1 1 None) (replicate 16 0) 1 1).
    + reflexivity.
    + reflexivity.
    + repeat constructor; unfold isByte; lia.
    + reflexivity.
    + lia.
    + lia.
  - rewrite (blit_composites dotPicture 2 2 (mkPatchRef 1 1 None) (replicate 16 0) 0 1).
    + reflexivity.
    + reflexivity.
    + repeat constructor; unfold isByte; lia.
    + reflexivity.
    + lia.
    + lia.
Defined.

(** *** Rendering a texture *)

Lemma readColumnOffsets_rangeOnly v : forall n i acc,
  rangeOnly (readColumnOffsets v n i acc).
Proof.
  induction n as [|n IH]; intros i acc; simpl; [exact I|].
  apply rangeOnly_bind; [apply getInt32_rangeOnly | intros; apply IH].
Qed.

Lemma newUint8Array_rangeOnly buffer o n : rangeOnly (newUint8Array buffer o n).
Proof. unfold newUint8Array. destruct (_ && _); simpl; reflexivity. Qed.

Lemma getPatch_rangeOnly wad name : rangeOnly (getPatch wad name).
Proof.
  unfold getPatch. destruct (getLump wad name) as [lump|]; [|exact I].
  repeat (apply rangeOnly_bind;
          [first [apply newDataView_rangeOnly | apply getInt16_rangeOnly
                 | apply readColumnOffsets_rangeOnly | apply newUint8Array_rangeOnly]
          | intros ?]).
  exact I.
Qed.

Lemma renderPatch_columns_rangeOnly patch palette :
  length palette = 256%nat ->
  length (columnOffsets patch) = Z.to_nat (patch_width patch) ->
  rangeOnly (renderPatch (Some patch) palette).
Proof.
  intros Hfull Hcols. unfold renderPatch.
  destruct (patch_width patch * patch_height patch * 4 <? 0)%Z; [reflexivity|].
  pose proof (newDataView_rangeOnly (u8_buffer (data patch))
                (u8_byteOffset (data patch)) (u8_length (data patch))) as Hv.
  destruct (newDataView _ _ _) as [v|e|] eqn:Ev; try exact Hv.
  unfold mbind at 1, result_bind at 1.
  apply rangeOnly_bind; [|intros; exact I].
  apply drawColumns_rangeOnly; [exact Hfull | lia | simpl; lia].
Qed.

Lemma renderTextureFrom_spec wad palette w h :
  length palette = 256%nat ->
  forall rest pixels,
    rangeOnly (renderTextureFrom wad palette w h rest pixels) /\
    (forall pixels', renderTextureFrom wad palette w h rest pixels = Ok pixels' ->
                     length pixels' = length pixels) /\
    (Forall (fun ref => getPatchOf wad ref = Ok None) rest ->
     renderTextureFrom wad palette w h rest pixels = Ok pixels).
Proof.
  intros Hfull. induction rest as [|ref rest IH]; intros pixels.
  - simpl. split; [exact I|]. split; [intros ? H; congruence | reflexivity].
  - cbn [renderTextureFrom].
    assert (Hget : rangeOnly (getPatchOf wad ref)).
    { unfold getPatchOf. destruct (patch ref); [apply getPatch_rangeOnly | exact I]. }
    destruct (getPatchOf wad ref) as [[p|]|e|] eqn:Ep; simpl in Hget; try contradiction;
      unfold mbind, result_bind; cbv beta iota.
    + assert (Hcols : length (columnOffsets p) = Z.to_nat (patch_width p)).
      { unfold getPatchOf in Ep. destruct (patch ref) as [name|]; [|discriminate].
        eapply getPatch_columns. exact Ep. }
      pose proof (renderPatch_columns_rangeOnly p palette Hfull Hcols) as Hrender.
      destruct (renderPatch (Some p) palette) as [[src|]|e|]; simpl in Hrender;
        try contradiction.
      * destruct (IH (blit src w h ref pixels)) as (Hr & Hl & _).
        split; [exact Hr|]. split.
        -- intros pixels' H. rewrite (Hl _ H). apply blit_length.
        -- intros H. apply Forall_cons in H as [H1 H2]. cbv beta in H1. congruence.
      * destruct (IH pixels) as (Hr & Hl & _).
        split; [exact Hr|]. split; [exact Hl|]. intros H. apply Forall_cons in H as [H1 H2]. cbv beta in H1. congruence.
      * subst e. split; [reflexivity|]. split; [discriminate|].
        intros H. apply Forall_cons in H as [H1 H2]. cbv beta in H1. congruence.
    + destruct (IH pixels) as (Hr & Hl & Hnone).
      split; [exact Hr|]. split; [exact Hl|]. intros H. apply Forall_cons in H as [H1 H2].
        apply Hnone. exact H2.
    + subst e. split; [reflexivity|]. split; [discriminate|].
      intros H. apply Forall_cons in H as [H1 H2]. cbv beta in H1. congruence.
Qed.

(** X22. With a palette of 256 entries, [renderTexture] on a texture
    definition either throws a [RangeError] or returns a picture of the
    texture's width and height with four bytes per pixel: it never ends in a
    [TypeError] and never loops. Patch references that name no lump are
    skipped, and when none of them names a lump the picture is fully
    transparent. *)
Theorem renderTexture_picture wad textureDef palette :
  length palette = 256%nat ->
  let w := tex_width textureDef in
  let h := tex_height textureDef in
  rangeOnly (renderTexture wad (Some textureDef) palette) /\
  (forall pic, renderTexture wad (Some textureDef) palette = Ok pic ->
     exists pixels,
       pic = Some (mkPicture w h pixels) /\ Z.of_nat (length pixels) = w * h * 4) /\
  (Forall (fun ref => getPatchOf wad ref = Ok None) (patches textureDef) ->
   0 <= w * h * 4 ->
   renderTexture wad (Some textureDef) palette =
     Ok (Some (mkPicture w h (replicate (Z.to_nat (w * h * 4)) 0)))).
Proof.
  intros Hfull w h. unfold renderTexture. fold w h.
  destruct (Z.ltb_spec (w * h * 4) 0) as [Hneg|Hsize].
  { split; [reflexivity|]. split; [discriminate | lia]. }
  destruct (renderTextureFrom_spec wad palette w h Hfull (patches textureDef)
              (replicate (Z.to_nat (w * h * 4)) 0)) as (Hr & Hl & Hnone).
  split; [|split].
  - apply rangeOnly_bind; [exact Hr | intros; exact I].
  - intros pic H. apply bind_Ok_inv in H as (pixels & Hpix & H). injection H as <-.
    exists pixels. split; [reflexivity|]. rewrite (Hl _ Hpix), length_replicate. lia.
  - intros Hall _. rewrite (Hnone Hall). reflexivity.
Qed.

Lemma renderTexture_picture_witness :
  exists pixels,
    (parse patchWad ≫= fun w => renderTexture w (Some cornerTexture) getDefaultPalette)
      = Ok (Some (mkPicture 2 2 pixels)) /\
    Z.of_nat (length pixels) = 16.
Proof.
  assert (H : (parse patchWad ≫= fun w =>
                 p ← renderTexture w (Some cornerTexture) getDefaultPalette;
                 Ok (is_Some_b p)) = Ok true) by (vm_compute; reflexivity).
  destruct (parse patchWad) as [w| |] eqn:E; [|discriminate H|discriminate H].
  change ((p ← renderTexture w (Some cornerTexture) getDefaultPalette; Ok (is_Some_b p))
          = Ok true) in H.
  destruct (renderTexture w (Some cornerTexture) getDefaultPalette) as [pic| |] eqn:Er;
    try discriminate H.
  pose proof (renderTexture_picture w cornerTexture getDefaultPalette eq_refl) as Hthm.
  cbv zeta in Hthm. destruct Hthm as (_ & Hpic & _).
  destruct (Hpic pic Er) as (pixels & -> & Hlen).
  exists pixels. split; [exact Er | exact Hlen].
Defined.

End TextureFacts.

(** ** Marker ranges, music, patch names and texture definitions *)

Module LumpFacts.
Import WADParser Samples WADParserFacts ContainerFacts.

(** *** Lumps between two markers *)

Lemma findIndex_Some name : forall lumps i,
  findIndex name lumps = Some i ->
  (exists l, lumps !! i = Some l /\ lump_name l = name) /\
  forall j l, (j < i)%nat -> lumps !! j = Some l -> lump_name l <> name.
Proof.
  intros lumps. induction lumps as [|l0 lumps IH]; intros i H; [discriminate|].
  simpl in H. destruct (String.eqb_spec (lump_name l0) name) as [Heq|Hne].
  - injection H as <-. split; [exists l0; auto|]. intros j l Hj. lia.
  - destruct (findIndex name lumps) as [i'|] eqn:E; [|discriminate].
    simpl in H. injection H as <-. destruct (IH i' eq_refl) as [Hat Hbefore].
    split; [exact Hat|]. intros [|j] l Hj Hl.
    + simpl in Hl. injection Hl as <-. exact Hne.
    + simpl in Hl. apply (Hbefore j); [lia | exact Hl].
Qed.

(** X23. [findLumpsBetween] returns the directory entries that lie
    strictly between the first entry named [startName] and the first entry
    named [endName]: every entry it returns is an entry of the directory that
    is not named [endName], and when the directory reads
    [before], start marker, [mid], end marker, [rest], with no earlier
    marker of either name, the result is [mid]. *)
Theorem findLumpsBetween_block w startName endName :
  (forall l, l ∈ findLumpsBetween w startName endName ->
             l ∈ lumps w /\ lump_name l <> endName) /\
  (forall before s mid e rest,
     lumps w = before ++ s :: mid ++ e :: rest ->
     lump_name s = startName ->
     (forall l, l ∈ before -> lump_name l <> startName) ->
     lump_name e = endName ->
     (forall l, l ∈ before ++ s :: mid -> lump_name l <> endName) ->
     findLumpsBetween w startName endName = mid).
Proof.
  unfold findLumpsBetween. split.
  - destruct (findIndex startName (lumps w)) as [startIndex|]; [|intros l H; inversion H].
    destruct (findIndex endName (lumps w)) as [endIndex|] eqn:Ee; [|intros l H; inversion H].
    intros l Hl. apply list_elem_of_lookup_1 in Hl as [k Hk].
    apply lookup_take_Some in Hk as [Hk Hlt]. rewrite lookup_drop in Hk.
    split; [eapply list_elem_of_lookup_2; exact Hk|].
    apply findIndex_Some in Ee as [_ Hbefore]. apply (Hbefore _ l) in Hk; [exact Hk | lia].
  - intros before s mid e rest Hlumps Hs Hbefore He Hmid. rewrite Hlumps.
    rewrite (findIndex_first _ _ _ _ Hbefore Hs).
    replace (before ++ s :: mid ++ e :: rest) with ((before ++ s :: mid) ++ e :: rest)
      by (rewrite <- app_assoc; reflexivity).
    rewrite (findIndex_first _ _ _ _ Hmid He).
    rewrite <- app_assoc. cbn [app].
    replace (S (length before)) with (length before + 1)%nat by lia.
    rewrite drop_past. cbn [drop]. rewrite length_app. cbn [length].
    replace (length before + S (length mid) - (length before + 1))%nat
      with (length mid) by lia.
    apply take_app_length.
Qed.

Lemma findLumpsBetween_block_witness :
  exists w, parse flatsWad = Ok w /\
    findLumpsBetween w "F_START" "F_END" = [mkLump "FLOOR1" 0 0; mkLump "FLOOR2" 0 0].
Proof.
  assert (H : lumps <$> parse flatsWad
              = Ok [mkLump "F_START" 0 0; mkLump "FLOOR1" 0 0; mkLump "FLOOR2" 0 0;
                    mkLump "F_END" 0 0; mkLump "OTHER" 0 0])
    by (vm_compute; reflexivity).
  destruct (parse flatsWad) as [w| |] eqn:E; [|discriminate H|discriminate H].
  simpl in H. injection H as Hlumps.
  exists w. split; [reflexivity|].
  destruct (findLumpsBetween_block w "F_START" "F_END") as (_ & Hblock).
  apply (Hblock [] (mkLump "F_START" 0 0) [mkLump "FLOOR1" 0 0; mkLump "FLOOR2" 0 0]
           (mkLump "F_END" 0 0) [mkLump "OTHER" 0 0]).
  - exact Hlumps.
  - reflexivity.
  - intros l Hl. inversion Hl.
  - reflexivity.
  - intros l Hl. cbn [app] in Hl.
    repeat (apply elem_of_cons in Hl as [->|Hl]; [discriminate|]). inversion Hl.
Defined.

(** *** Music *)

Lemma property_In key : forall object v,
  property key object = Some v -> In (key, v) object.
Proof.
  induction object as [|[k v'] object IH]; intros v H; [discriminate|].
  simpl in H. destruct (String.eqb_spec k key) as [->|Hne].
  - injection H as <-. left. reflexivity.
  - right. apply IH. exact H.
Qed.

(** X24. [getMusicForMap] returns music only for the nine maps E1M1 to
    E1M9, and then the bytes of the lump named D_ followed by the map name:
    that lump is in the directory, is not empty and lies inside the file. For
    every other map name, and when that lump is missing or has size 0, the
    result is [null]. *)
Theorem getMusicForMap_sound w mapName musicData :
  getMusicForMap w mapName = Ok (Some musicData) ->
  In mapName ["E1M1"; "E1M2"; "E1M3"; "E1M4"; "E1M5"; "E1M6"; "E1M7"; "E1M8"; "E1M9"]%string /\
  exists lump,
    getLump w ("D_" ++ mapName) = Some lump /\
    0 < lump_size lump /\ inBuffer (buffer w) lump /\
    musicData = mkUint8Array (buffer w) (lump_offset lump) (lump_size lump).
Proof.
  unfold getMusicForMap. intros H.
  destruct (property mapName musicMap) as [musicName|] eqn:Ep; [|discriminate].
  apply property_In in Ep.
  assert (Hname : In mapName ["E1M1"; "E1M2"; "E1M3"; "E1M4"; "E1M5"; "E1M6"; "E1M7";
                              "E1M8"; "E1M9"]%string /\ musicName = ("D_" ++ mapName)%string).
  { unfold musicMap in Ep. simpl in Ep.
    repeat (destruct Ep as [Ep|Ep]; [injection Ep as <- <-; simpl; auto 20|]).
    destruct Ep. }
  destruct Hname as [Hin ->]. split; [exact Hin|].
  unfold getMusic in H. destruct (getLump w ("D_" ++ mapName)) as [lump|]; [|discriminate].
  exists lump. split; [reflexivity|].
  destruct (Z.eqb_spec (lump_size lump) 0) as [|Hsize]; [discriminate|].
  apply bind_Ok_inv in H as (a & Ha & H). injection H as <-.
  apply newUint8Array_Ok in Ha as (-> & Ho & Hs & Hr).
  unfold inBuffer. repeat split; auto; lia.
Qed.

Lemma getMusicForMap_sound_witness :
  exists musicData,
    (parse musicWad ≫= fun w => getMusicForMap w "E1M1") = Ok (Some musicData) /\
    u8_length musicData = 4.
Proof.
  assert (H : (parse musicWad ≫= fun w => m ← getMusicForMap w "E1M1";
                 Ok (match m with Some a => u8_length a | None => 0 end)) = Ok 4)
    by (vm_compute; reflexivity).
  destruct (parse musicWad) as [w| |] eqn:E; [|discriminate H|discriminate H].
  change ((m ← getMusicForMap w "E1M1";
           Ok (match m with Some a => u8_length a | None => 0 end)) = Ok 4) in H.
  destruct (getMusicForMap w "E1M1") as [[musicData|]| |] eqn:Em; try discriminate H.
  exists musicData. split; [exact Em|].
  destruct (getMusicForMap_sound w "E1M1" musicData Em) as (_ & lump & _ & _ & _ & ->).
  simpl in H. injection H as H. exact H.
Defined.

(** *** Patch names *)

Lemma readStringFromBuffer_length a : forall n offset,
  (String.length (readStringFromBuffer a offset n) <= n)%nat.
Proof.
  induction n as [|n IH]; intros offset; simpl; [lia|].
  destruct (u8_get a offset) as [c|].
  - destruct (c =? 0); simpl; [lia|]. specialize (IH (offset + 1)). lia.
  - simpl. specialize (IH (offset + 1)). lia.
Qed.

Lemma readStringFromBuffer_outside a : forall n offset,
  u8_length a <= offset ->
  readStringFromBuffer a offset n = nulString n.
Proof.
  induction n as [|n IH]; intros offset H; simpl; [reflexivity|].
  unfold u8_get. destruct (Z.ltb_spec offset (u8_length a)); [lia|].
  rewrite andb_false_r. rewrite IH by lia. reflexivity.
Qed.

Lemma trim_nulString n : trim (nulString n) = nulString n.
Proof.
  unfold trim.
  assert (Hstart : trimStart (nulString n) = nulString n) by (destruct n; reflexivity).
  rewrite Hstart. induction n as [|n IH]; [reflexivity|].
  assert (Hstart' : trimStart (nulString n) = nulString n) by (destruct n; reflexivity).
  specialize (IH Hstart'). cbn [nulString trimEnd]. rewrite IH.
  destruct n; reflexivity.
Qed.

Lemma readNames_spec pnames : forall n i names,
  length (readNames pnames n i names) = (length names + n)%nat /\
  (forall k, (k < length names)%nat -> readNames pnames n i names !! k = names !! k) /\
  (forall k, (k < n)%nat ->
     readNames pnames n i names !! (length names + k)%nat =
       Some (trim (readStringFromBuffer pnames (4 + (i + Z.of_nat k) * 8) 8))).
Proof.
  induction n as [|n IH]; intros i names; cbn [readNames].
  - split; [lia|]. split; [reflexivity | intros k Hk; lia].
  - destruct (IH (i + 1) (names ++ [trim (readStringFromBuffer pnames (4 + i * 8) 8)]))
      as (Hlen & Hold & Hnew).
    rewrite length_app in Hlen, Hold, Hnew. cbn [length] in Hlen, Hold, Hnew.
    split; [lia|]. split.
    + intros k Hk. rewrite Hold by lia. apply lookup_app_l. exact Hk.
    + intros [|k] Hk.
      * rewrite Nat.add_0_r, Hold by lia.
        rewrite lookup_app_r, Nat.sub_diag by lia.
        replace (i + Z.of_nat 0) with i by lia. reflexivity.
      * replace (length names + S k)%nat with (length names + 1 + k)%nat by lia.
        rewrite Hnew by lia.
        replace (i + 1 + Z.of_nat k) with (i + Z.of_nat (S k)) by lia. reflexivity.
Qed.

Lemma getLumpData_rangeOnly w name : rangeOnly (getLumpData w name).
Proof.
  unfold getLumpData. destruct (getLump w name); [|exact I].
  apply rangeOnly_bind; [apply TextureFacts.newUint8Array_rangeOnly | intros; exact I].
Qed.

Lemma getPNames_rangeOnly w : rangeOnly (getPNames w).
Proof.
  unfold getPNames. apply rangeOnly_bind; [apply getLumpData_rangeOnly|].
  intros [pnames|]; [|exact I].
  apply rangeOnly_bind; [apply newDataView_rangeOnly|]. intros v.
  apply rangeOnly_bind; [apply getInt32_rangeOnly | intros; exact I].
Qed.

(** X25. [getPNames] either throws a [RangeError] or returns a list of
    names of at most 8 characters each: the empty list when there is no
    PNAMES lump, and otherwise as many names as the count in the first four
    bytes of the lump says (none for a negative count). The count is not
    checked against the size of the lump: a name that lies past the end of
    the lump is read as eight characters of code 0, without an error. *)
Theorem getPNames_names w :
  rangeOnly (getPNames w) /\
  forall names, getPNames w = Ok names ->
    Forall (fun name => (String.length name <= 8)%nat) names /\
    (getLump w "PNAMES" = None -> names = []) /\
    (forall lump, getLump w "PNAMES" = Some lump ->
       inBuffer (buffer w) lump /\
       exists count,
         getInt32 (mkDataView (buffer w) (lump_offset lump) (lump_size lump)) 0 = Ok count /\
         length names = Z.to_nat count /\
         forall i, (i < Z.to_nat count)%nat ->
           lump_size lump <= 4 + Z.of_nat i * 8 ->
           names !! i = Some (nulString 8)).
Proof.
  split; [apply getPNames_rangeOnly|].
  intros names H. unfold getPNames, getLumpData in H.
  destruct (getLump w "PNAMES") as [lump|].
  - apply bind_Ok_inv in H as (pnames & Hp & H).
    apply bind_Ok_inv in Hp as (a & Ha & Hp). injection Hp as <-.
    apply newUint8Array_Ok in Ha as (-> & Ho & Hs & Hr).
    apply bind_Ok_inv in H as (v & Hv & H). apply newDataView_Ok in Hv as (-> & _).
    apply bind_Ok_inv in H as (count & Hcount & H). injection H as <-.
    cbn [u8_buffer u8_byteOffset u8_length] in Hcount.
    set (a := mkUint8Array (buffer w) (lump_offset lump) (lump_size lump)).
    destruct (readNames_spec a (Z.to_nat count) 0 []) as (Hlen & _ & Hnew).
    cbn [length] in Hlen, Hnew.
    assert (Hnew' : forall k, (k < Z.to_nat count)%nat ->
              readNames a (Z.to_nat count) 0 [] !! k =
                Some (trim (readStringFromBuffer a (4 + Z.of_nat k * 8) 8)))
      by (intros k Hk; apply (Hnew k Hk)).
    clear Hnew. rename Hnew' into Hnew.
    split; [|split; [discriminate|]].
    + apply Forall_forall. intros name Hname.
      apply list_elem_of_lookup_1 in Hname as [k Hk].
      assert (Hlt : (k < Z.to_nat count)%nat)
        by (apply lookup_lt_Some in Hk; lia).
      rewrite (Hnew k Hlt) in Hk.
      replace name with (trim (readStringFromBuffer a (4 + Z.of_nat k * 8) 8))
        by congruence.
      etransitivity; [apply trim_length | apply readStringFromBuffer_length].
    + intros lump' Hl. injection Hl as <-. split; [unfold inBuffer; lia|].
      exists count. split; [exact Hcount|]. split; [lia|].
      intros i Hi Hpast. rewrite (Hnew i Hi).
      rewrite readStringFromBuffer_outside by (cbn [a u8_length]; lia).
      rewrite trim_nulString. reflexivity.
  - simpl in H. injection H as <-. split; [constructor|]. split; [reflexivity | discriminate].
Qed.

Lemma getPNames_names_witness :
  (parse pnamesWad ≫= getPNames) = Ok ["P1"%string; nulString 8] /\
  rangeOnly (parse pnamesWad ≫= getPNames).
Proof.
  assert (H : (parse pnamesWad ≫= getPNames) = Ok ["P1"%string; nulString 8])
    by (vm_compute; reflexivity).
  split; [exact H|].
  destruct (parse pnamesWad) as [w| |] eqn:E; [|discriminate H|discriminate H].
  apply (getPNames_names w).
Defined.

(** *** Texture definitions *)

Lemma readPatches_spec view pnames offset : forall n p patches patches',
  readPatches view pnames offset n p patches = Ok patches' ->
  Forall (fun ref => forall name, patch ref = Some name -> name ∈ pnames) patches ->
  Forall (fun ref => forall name, patch ref = Some name -> name ∈ pnames) patches'.
Proof.
  induction n as [|n IH]; intros p patches patches' H Hp; cbn [readPatches] in H.
  - injection H as <-. exact Hp.
  - apply bind_Ok_inv in H as (ox & _ & H). apply bind_Ok_inv in H as (oy & _ & H).
    apply bind_Ok_inv in H as (index & _ & H).
    eapply IH; [exact H|]. apply Forall_app. split; [exact Hp|].
    constructor; [|constructor]. cbn [patch]. intros name Hname.
    unfold array_get in Hname. destruct (0 <=? index); [|discriminate].
    eapply list_elem_of_lookup_2. exact Hname.
Qed.

Lemma readPatches_rangeOnly view pnames offset : forall n p patches,
  rangeOnly (readPatches view pnames offset n p patches).
Proof.
  induction n as [|n IH]; intros p patches; cbn [readPatches]; [exact I|].
  repeat (apply rangeOnly_bind; [apply getInt16_rangeOnly | intros ?]). apply IH.
Qed.

(** What holds of every entry of the map of texture definitions. *)
Lemma parseTextures_spec data view pnames : forall n i textures textures',
  parseTextures data view pnames n i textures = Ok textures' ->
  map_Forall (fun key def => tex_name def = key /\ (String.length key <= 8)%nat /\
                             patchesFrom pnames def) textures ->
  map_Forall (fun key def => tex_name def = key /\ (String.length key <= 8)%nat /\
                             patchesFrom pnames def) textures'.
Proof.
  induction n as [|n IH]; intros i textures textures' H Ht; cbn [parseTextures] in H.
  - injection H as <-. exact Ht.
  - apply bind_Ok_inv in H as (offset & _ & H). apply bind_Ok_inv in H as (width & _ & H).
    apply bind_Ok_inv in H as (height & _ & H).
    apply bind_Ok_inv in H as (patchCount & _ & H).
    apply bind_Ok_inv in H as (patches & Hpatches & H).
    eapply IH; [exact H|]. apply map_Forall_insert_2; [|exact Ht].
    cbn [tex_name]. split; [reflexivity|]. split.
    + etransitivity; [apply trim_length | apply readStringFromBuffer_length].
    + unfold patchesFrom. cbn [WADParser.patches].
      eapply readPatches_spec; [exact Hpatches | constructor].
Qed.

Lemma parseTextures_rangeOnly data view pnames : forall n i textures,
  rangeOnly (parseTextures data view pnames n i textures).
Proof.
  induction n as [|n IH]; intros i textures; cbn [parseTextures]; [exact I|].
  apply rangeOnly_bind; [apply getInt32_rangeOnly | intros ?].
  repeat (apply rangeOnly_bind; [apply getInt16_rangeOnly | intros ?]).
  apply rangeOnly_bind; [apply readPatches_rangeOnly | intros ?]. apply IH.
Qed.

Lemma parseTextureData_rangeOnly data pnames textures :
  rangeOnly (parseTextureData data pnames textures).
Proof.
  unfold parseTextureData.
  apply rangeOnly_bind; [apply newDataView_rangeOnly | intros ?].
  apply rangeOnly_bind; [apply getInt32_rangeOnly | intros ?].
  apply parseTextures_rangeOnly.
Qed.

Lemma parseTextureData_spec data pnames textures textures' :
  parseTextureData data pnames textures = Ok textures' ->
  map_Forall (fun key def => tex_name def = key /\ (String.length key <= 8)%nat /\
                             patchesFrom pnames def) textures ->
  map_Forall (fun key def => tex_name def = key /\ (String.length key <= 8)%nat /\
                             patchesFrom pnames def) textures'.
Proof.
  unfold parseTextureData. intros H.
  apply bind_Ok_inv in H as (v & _ & H). apply bind_Ok_inv in H as (n & _ & H).
  eapply parseTextures_spec. exact H.
Qed.

(** X26. [getTextures] either throws a [RangeError] or returns a map in
    which every texture definition is stored under its own name, of at most 8
    characters, and in which every patch of a definition is either
    [undefined] or one of the names that [getPNames] returns; without a
    TEXTURE1 and a TEXTURE2 lump the map is empty. *)
Theorem getTextures_defs w :
  rangeOnly (getTextures w) /\
  forall textures, getTextures w = Ok textures ->
    exists pnames,
      getPNames w = Ok pnames /\
      (forall key def, textures !! key = Some def ->
         tex_name def = key /\ (String.length key <= 8)%nat /\ patchesFrom pnames def) /\
      (getLump w "TEXTURE1" = None -> getLump w "TEXTURE2" = None -> textures = ∅).
Proof.
  split.
  - unfold getTextures.
    apply rangeOnly_bind; [apply getPNames_rangeOnly | intros pnames].
    apply rangeOnly_bind; [apply getLumpData_rangeOnly | intros d1].
    apply rangeOnly_bind;
      [destruct d1; [apply parseTextureData_rangeOnly | exact I] | intros textures].
    apply rangeOnly_bind; [apply getLumpData_rangeOnly | intros d2].
    destruct d2; [apply parseTextureData_rangeOnly | exact I].
  - intros textures H. unfold getTextures in H.
    apply bind_Ok_inv in H as (pnames & Hpnames & H). exists pnames.
    split; [exact Hpnames|].
    apply bind_Ok_inv in H as (d1 & Hd1 & H). apply bind_Ok_inv in H as (t1 & Ht1 & H).
    apply bind_Ok_inv in H as (d2 & Hd2 & H).
    assert (H1 : map_Forall (fun key def => tex_name def = key /\
                   (String.length key <= 8)%nat /\ patchesFrom pnames def) t1).
    { destruct d1 as [data|].
      - eapply parseTextureData_spec; [exact Ht1 | apply map_Forall_empty].
      - injection Ht1 as <-. apply map_Forall_empty. }
    assert (H2 : map_Forall (fun key def => tex_name def = key /\
                   (String.length key <= 8)%nat /\ patchesFrom pnames def) textures).
    { destruct d2 as [data|].
      - eapply parseTextureData_spec; [exact H | exact H1].
      - injection H as <-. exact H1. }
    split; [intros key def Hk; exact (H2 key def Hk)|].
    intros Hno1 Hno2. unfold getLumpData in Hd1, Hd2. rewrite Hno1 in Hd1. rewrite Hno2 in Hd2.
    injection Hd1 as <-. injection Hd2 as <-. injection Ht1 as <-. injection H as <-.
    reflexivity.
Qed.

Lemma getTextures_defs_witness :
  exists def,
    (parse texturesWad ≫= fun w => textures ← getTextures w; Ok (textures !! "CORNER"))
      = Ok (Some def) /\
    tex_name def = "CORNER"%string /\
    map patch (patches def) = [Some "P1"%string; None].
Proof.
  assert (H : (parse texturesWad ≫= fun w =>
                 textures ← getTextures w; Ok (textures !! "CORNER"))
              = Ok (Some (mkTextureDef "CORNER" 2 2
                            [mkPatchRef 1 1 (Some "P1"%string); mkPatchRef 0 0 None])))
    by (vm_compute; reflexivity).
  eexists. split; [exact H|]. split; [|reflexivity].
  destruct (parse texturesWad) as [w| |] eqn:E; [|discriminate H|discriminate H].
  change ((textures ← getTextures w; Ok (textures !! "CORNER"))
          = Ok (Some (mkTextureDef "CORNER" 2 2
                        [mkPatchRef 1 1 (Some "P1"%string); mkPatchRef 0 0 None]))) in H.
  destruct (getTextures w) as [textures| |] eqn:Et; [|discriminate H|discriminate H].
  destruct (getTextures_defs w) as (_ & Hdefs).
  destruct (Hdefs textures Et) as (pnames & _ & Hall & _).
  apply (Hall "CORNER"%string). simpl in H. congruence.
Defined.

End LumpFacts.

(** ** The MUS to MIDI converter *)

Module MusicFacts.
Import MusicPlayer Samples.

Lemma int32_small z : 0 <= z < 2147483648 -> int32 z = z.
Proof.
  intros H. unfold int32, toSigned. rewrite Z.mod_small by lia.
  change (2 ^ (32 - 1)) with 2147483648. destruct (Z.ltb_spec z 2147483648); lia.
Qed.

Lemma int32_mod256 z : int32 z mod 256 = z mod 256.
Proof.
  unfold int32, toSigned. change (2 ^ (32 - 1)) with 2147483648.
  change (2 ^ 32) with 4294967296.
  assert (H : (z mod 4294967296) mod 256 = z mod 256)
    by (apply Z.mod_mod_divide; exists 16777216; reflexivity).
  destruct (z mod 4294967296 <? 2147483648); [exact H|].
  rewrite <- H.
  replace (z mod 4294967296 - 4294967296)
    with (z mod 4294967296 + (-16777216) * 256) by lia.
  apply Z_mod_plus_full.
Qed.

Lemma land_127 y : Z.land y 127 = y mod 128.
Proof. apply (Z.land_ones y 7). lia. Qed.

Lemma land_255 y : Z.land y 255 = y mod 256.
Proof. apply (Z.land_ones y 8). lia. Qed.

Lemma lor_128 y : 0 <= y < 128 -> Z.lor y 128 = y + 128.
Proof.
  intros H. pose proof (Z.add_lor_land y 128) as Hadd.
  assert (Hland : Z.land y 128 = 0).
  { rewrite <- (Z.mod_small y 128), <- land_127 by lia.
    rewrite <- Z.land_assoc. change (Z.land 127 128) with 0. apply Z.land_0_r. }
  lia.
Qed.

Lemma band_127 v : 0 <= v < 2147483648 -> band v 127 = v mod 128.
Proof. intros H. unfold band. rewrite (int32_small v H). apply land_127. Qed.

Lemma sar_7 v : 0 <= v < 2147483648 -> sar v 7 = v / 128.
Proof.
  intros H. unfold sar. rewrite (int32_small v H), Z.shiftr_div_pow2 by lia. reflexivity.
Qed.

(** *** Variable-length quantities *)

Lemma varLenValue_snoc bytes byte :
  varLenValue (bytes ++ [byte]) = varLenValue bytes * 128 + Z.land byte 127.
Proof. unfold varLenValue. rewrite fold_left_app. reflexivity. Qed.

Lemma varLen_snoc bytes byte :
  Forall (fun b => 128 <= b < 256) bytes -> 0 <= byte < 128 -> varLen (bytes ++ [byte]).
Proof.
  intros Hb Hlast. induction Hb as [|b bytes Hb0 _ IH]; [exact Hlast|].
  cbn [app varLen]. destruct (bytes ++ [byte]) eqn:E.
  - destruct bytes; discriminate.
  - split; [exact Hb0 | exact IH].
Qed.

Lemma varLenLoop_S fuel v bytes :
  varLenLoop (S fuel) v bytes =
    if 0 <? v then varLenLoop fuel (sar v 7) (bytes ++ [bor (band v 127) 128])
    else Ok bytes.
Proof. reflexivity. Qed.

Lemma varLenLoop_spec : forall fuel v bytes,
  0 <= v < 128 ^ Z.of_nat fuel -> v < 2147483648 ->
  exists more,
    varLenLoop (S fuel) v bytes = Ok (bytes ++ more) /\
    Forall (fun b => 128 <= b < 256) more /\
    varLenValue (rev more) = v /\
    (length more <= fuel)%nat.
Proof.
  induction fuel as [|fuel IH]; intros v bytes Hv H31.
  - exists []. simpl in Hv. assert (v = 0) by lia. subst v.
    rewrite app_nil_r. split; [reflexivity|]. split; [constructor|].
    split; [reflexivity | simpl; lia].
  - rewrite varLenLoop_S. destruct (Z.ltb_spec 0 v) as [Hpos|Hzero].
    + assert (Hdiv : 0 <= v / 128 < 128 ^ Z.of_nat fuel).
      { split; [apply Z.div_pos; lia|]. apply Z.div_lt_upper_bound; [lia|].
        rewrite Nat2Z.inj_succ, Z.pow_succ_r in Hv by lia. lia. }
      assert (Hle : v / 128 <= v) by (apply Z.div_le_upper_bound; lia).
      rewrite sar_7, band_127 by lia.
      destruct (IH (v / 128) (bytes ++ [bor (v mod 128) 128])) as (more & Hloop & Hb & Hval & Hlen);
        [exact Hdiv | lia|].
      pose proof (Z.mod_pos_bound v 128 ltac:(lia)) as Hmod.
      assert (Hbyte : bor (v mod 128) 128 = v mod 128 + 128).
      { unfold bor. rewrite !int32_small by lia. apply lor_128. exact Hmod. }
      exists (bor (v mod 128) 128 :: more). split; [|split; [|split]].
      * rewrite Hloop, <- app_assoc. reflexivity.
      * constructor; [lia | exact Hb].
      * cbn [rev]. rewrite varLenValue_snoc, Hval, Hbyte, land_127.
        replace ((v mod 128 + 128) mod 128) with (v mod 128)
          by (rewrite <- (Z.mod_mod v 128) at 1 by lia;
              rewrite <- (Z_mod_plus_full (v mod 128) 1 128); f_equal; lia).
        pose proof (Z.div_mod v 128 ltac:(lia)). lia.
      * simpl. lia.
    + exists []. assert (v = 0) by lia. subst v. rewrite app_nil_r.
      split; [reflexivity|]. split; [constructor|]. split; [reflexivity | simpl; lia].
Qed.

(** X27. [writeVarLen] appends to the buffer the MIDI variable-length
    quantity of a value below 2^31: at most five bytes, of which all but the
    last have bit 7 set, and which stand for the value, seven bits per byte,
    most significant first. *)
Theorem writeVarLen_value buffer value :
  0 <= value < 2147483648 ->
  exists bytes,
    writeVarLen buffer value = Ok (buffer ++ bytes) /\
    varLen bytes /\ varLenValue bytes = value /\ (length bytes <= 5)%nat.
Proof.
  intros Hv. unfold writeVarLen. destruct (Z.ltb_spec value 128) as [Hsmall|Hbig].
  - exists [value]. split; [reflexivity|]. split; [simpl; lia|]. split; [|simpl; lia].
    unfold varLenValue. simpl. rewrite land_127. apply Z.mod_small. lia.
  - rewrite sar_7, band_127 by lia.
    destruct (varLenLoop_spec 4 (value / 128) [value mod 128]) as (more & Hloop & Hb & Hval & Hlen).
    { split; [apply Z.div_pos; lia|]. apply Z.div_lt_upper_bound; [lia|].
      change (128 ^ Z.of_nat 4) with 268435456. lia. }
    { assert (value / 128 <= value) by (apply Z.div_le_upper_bound; lia). lia. }
    assert (Hfuel : varLenLoop 32 (value / 128) [value mod 128]
                    = Ok ([value mod 128] ++ more)).
    { clear - Hloop. revert Hloop.
      generalize (value / 128) ([value mod 128]) ([value mod 128] ++ more).
      assert (Hmono : forall fuel v bytes r,
                varLenLoop fuel v bytes = Ok r -> varLenLoop (S fuel) v bytes = Ok r).
      { induction fuel as [|fuel IH]; intros v bytes r H; [discriminate|].
        rewrite varLenLoop_S in H. rewrite varLenLoop_S.
        destruct (0 <? v); [|exact H]. apply IH. exact H. }
      intros v bytes r H. do 27 apply Hmono. exact H. }
    rewrite Hfuel. simpl. exists (rev more ++ [value mod 128]).
    pose proof (Z.mod_pos_bound value 128 ltac:(lia)) as Hmod.
    split; [reflexivity|]. split; [|split].
    + apply varLen_snoc; [|exact Hmod]. apply Forall_rev. exact Hb.
    + rewrite varLenValue_snoc, Hval, land_127, Z.mod_mod by lia.
      pose proof (Z.div_mod value 128 ltac:(lia)). lia.
    + rewrite length_app, length_rev. simpl. lia.
Qed.

Lemma writeVarLen_value_witness :
  writeVarLen [] 300 = Ok [130; 44] /\ varLenValue [130; 44] = 300.
Proof.
  destruct (writeVarLen_value [] 300) as (bytes & Hw & _ & Hval & _); [lia|].
  assert (Hb : writeVarLen [] 300 = Ok [130; 44]) by (vm_compute; reflexivity).
  split; [exact Hb|]. rewrite Hb in Hw. injection Hw as <-. exact Hval.
Defined.

(** *** The conversion *)

Lemma int32_range z : -2147483648 <= int32 z < 2147483648.
Proof.
  unfold int32, toSigned. change (2 ^ (32 - 1)) with 2147483648.
  change (2 ^ 32) with 4294967296.
  pose proof (Z.mod_pos_bound z 4294967296 ltac:(lia)).
  destruct (Z.ltb_spec (z mod 4294967296) 2147483648); lia.
Qed.

Lemma varLenLoop_total : forall fuel v bytes,
  v < 128 ^ Z.of_nat fuel -> v < 2147483648 ->
  exists more, varLenLoop (S fuel) v bytes = Ok (bytes ++ more).
Proof.
  intros fuel v bytes Hv H31. destruct (Z.ltb_spec 0 v) as [Hpos|Hneg].
  - destruct (varLenLoop_spec fuel v bytes) as (more & H & _); [lia | lia|]. eauto.
  - exists []. rewrite varLenLoop_S, app_nil_r. destruct (Z.ltb_spec 0 v); [lia | reflexivity].
Qed.

Lemma varLenLoop_more : forall fuel v bytes r,
  varLenLoop fuel v bytes = Ok r -> varLenLoop (S fuel) v bytes = Ok r.
Proof.
  induction fuel as [|fuel IH]; intros v bytes r H; [discriminate|].
  rewrite varLenLoop_S in H. rewrite varLenLoop_S.
  destruct (0 <? v); [|exact H]. apply IH. exact H.
Qed.

Lemma writeVarLen_extends buffer value :
  exists bytes, writeVarLen buffer value = Ok (buffer ++ bytes).
Proof.
  unfold writeVarLen. destruct (value <? 128); [eauto|].
  assert (Hsar : sar value 7 < 16777216).
  { unfold sar. rewrite Z.shiftr_div_pow2 by lia. pose proof (int32_range value).
    apply Z.div_lt_upper_bound; [lia|]. change (2 ^ 7) with 128. lia. }
  destruct (varLenLoop_total 4 (sar value 7) [band value 127]) as (more & H).
  { change (128 ^ Z.of_nat 4) with 268435456. lia. }
  { lia. }
  do 27 apply varLenLoop_more in H. rewrite H. simpl. eauto.
Qed.

Lemma event_extends musData eventDesc midi pos :
  pos <= u8_length musData ->
  exists more pos',
    event musData eventDesc midi pos = Ok (midi ++ more, pos') /\ pos <= pos'.
Proof.
  intros Hpos. unfold event. cbv zeta.
  repeat match goal with
         | |- context [if ?c =? ?d then _ else _] => destruct (c =? d)
         | |- context [if ?c <? ?d then _ else _] => destruct (Z.ltb_spec c d)
         | |- context [if negb ?c then _ else _] => destruct c; cbn [negb]
         end;
  try (eexists _, _; split; [reflexivity | lia]);
  try (exists [], pos; rewrite app_nil_r; split; [reflexivity | lia]).
  - exists [], (pos + 1). rewrite app_nil_r. split; [reflexivity | lia].
  - destruct (writeVarLen_extends midi 0) as (bytes & ->). simpl.
    exists (bytes ++ [255; 47; 0]), (u8_length musData).
    rewrite <- app_assoc. split; [reflexivity | lia].
Qed.

Lemma readDelay_total musData : forall fuel pos delay,
  pos < u8_length musData ->
  (Z.to_nat (u8_length musData - pos) <= fuel)%nat ->
  exists pos' delay', readDelay fuel musData pos delay = Ok (pos', delay') /\ pos < pos'.
Proof.
  induction fuel as [|fuel IH]; intros pos delay Hpos Hfuel; [lia|].
  cbn [readDelay].
  destruct ((pos + 1 <? u8_length musData)
            && negb (band (elem musData pos) 128 =? 0)) eqn:Emore.
  - apply andb_prop in Emore as [Hlt _]. apply Z.ltb_lt in Hlt.
    destruct (IH (pos + 1) (delay * 128 + band (elem musData pos) 127))
      as (pos' & delay' & H & Hp); [lia | lia|].
    exists pos', delay'. split; [exact H | lia].
  - eexists _, _. split; [reflexivity | lia].
Qed.

Lemma events_total musData : forall fuel midi pos deltaTime,
  (Z.to_nat (u8_length musData - pos) < fuel)%nat ->
  exists more, events fuel musData midi pos deltaTime = Ok (midi ++ more).
Proof.
  induction fuel as [|fuel IH]; intros midi pos deltaTime Hfuel; [lia|].
  cbn [events]. destruct (Z.ltb_spec pos (u8_length musData)) as [Hpos|Hend].
  2: { exists []. rewrite app_nil_r. reflexivity. }
  destruct (u8_get musData pos) as [eventDesc|] eqn:Eget.
  2: { exists []. rewrite app_nil_r. reflexivity. }
  assert (Hnonneg : 0 <= pos).
  { unfold u8_get in Eget. destruct (Z.leb_spec 0 pos); [assumption | discriminate]. }
  destruct (writeVarLen_extends midi deltaTime) as (bytes & ->).
  unfold mbind at 1, result_bind at 1. cbv beta iota.
  destruct (event_extends musData eventDesc (midi ++ bytes) (pos + 1))
    as (more & pos' & -> & Hpos'); [lia|].
  unfold mbind at 1, result_bind at 1. cbv beta iota.
  destruct (negb (band eventDesc 128 =? 0) && (pos' <? u8_length musData)) eqn:Elast.
  - apply andb_prop in Elast as [_ Hlt]. apply Z.ltb_lt in Hlt.
    destruct (readDelay_total musData (Z.to_nat (u8_length musData)) pos' 0)
      as (pos2 & delay & -> & Hpos2); [lia | lia|].
    unfold mbind at 1, result_bind at 1. cbv beta iota.
    destruct (IH ((midi ++ bytes) ++ more) pos2 delay) as (rest & ->); [lia|].
    exists (bytes ++ more ++ rest). rewrite <- !app_assoc. reflexivity.
  - destruct (IH ((midi ++ bytes) ++ more) pos' 0) as (rest & ->); [lia|].
    exists (bytes ++ more ++ rest). rewrite <- !app_assoc. reflexivity.
Qed.

Lemma band_255 x : band x 255 = x mod 256.
Proof.
  unfold band. rewrite (int32_small 255) by lia. rewrite land_255. apply int32_mod256.
Qed.

Lemma int32_div_mod256 K C n :
  0 < K -> K * (C * 256) = 4294967296 ->
  (int32 n / K) mod 256 = (n / K) mod 256.
Proof.
  intros HK HC. unfold int32, toSigned. change (2 ^ (32 - 1)) with 2147483648.
  change (2 ^ 32) with 4294967296.
  assert (Hm : (n mod 4294967296 / K) mod 256 = (n / K) mod 256).
  { rewrite (Z.div_mod n 4294967296) at 2 by lia. rewrite <- HC.
    replace (K * (C * 256) * (n / (K * (C * 256))) + n mod (K * (C * 256)))
      with (n mod (K * (C * 256)) + (C * 256 * (n / (K * (C * 256)))) * K) by lia.
    rewrite Z.div_add by lia.
    replace (C * 256 * (n / (K * (C * 256)))) with ((C * (n / (K * (C * 256)))) * 256) by lia.
    rewrite Z_mod_plus_full. reflexivity. }
  destruct (n mod 4294967296 <? 2147483648); [exact Hm|].
  rewrite <- Hm, <- HC.
  replace (n mod (K * (C * 256)) - K * (C * 256))
    with (n mod (K * (C * 256)) + (- (C * 256)) * K) by lia.
  rewrite Z.div_add by lia.
  replace (- (C * 256)) with ((- C) * 256) by lia.
  rewrite Z_mod_plus_full. reflexivity.
Qed.

Lemma band_sar_255 n k K C :
  0 <= k -> 2 ^ k = K -> 0 < K -> K * (C * 256) = 4294967296 ->
  band (sar n k) 255 = (n / K) mod 256.
Proof.
  intros Hk HK HKpos HC. rewrite band_255. unfold sar.
  rewrite Z.shiftr_div_pow2, HK by lia. apply (int32_div_mod256 K C); assumption.
Qed.

(** X28. [convertMusToMidi] always returns: its loops end on every
    input. It returns [null] exactly when the data does not begin with the
    four bytes "MUS" and 0x1A. Otherwise the result is a MIDI file of bytes:
    the 14-byte header chunk of a format 0 file with one track and 70 ticks
    per quarter note, then "MTrk", the length of the track data as a 32-bit
    number, most significant byte first, and that many bytes of track
    data. *)
Theorem convertMusToMidi_track musData :
  exists r,
    convertMusToMidi musData = Ok r /\
    (r = None <-> validHeader musData = false) /\
    forall midi, r = Some midi ->
      Forall (fun b => 0 <= b < 256) midi /\
      exists track,
        midi = midiHeader ++ [77; 84; 114; 107] ++ be32 (Z.of_nat (length track)) ++ track.
Proof.
  unfold convertMusToMidi. destruct (validHeader musData) eqn:Eh; cbn [negb].
  2: { exists None. split; [reflexivity|]. split; [tauto | discriminate]. }
  cbv zeta.
  assert (Hstart : 0 <= bor (elem musData 6) (shl (elem musData 7) 8)).
  { assert (Hbyte : forall i, 0 <= elem musData i < 256).
    { intros i. unfold elem, u8_get. destruct (_ && _); simpl; [apply byteAt_range | lia]. }
    pose proof (Hbyte 6) as H6. pose proof (Hbyte 7) as H7.
    unfold bor, shl. rewrite (int32_small (elem musData 6)), (int32_small (elem musData 7)) by lia.
    rewrite Z.shiftl_mul_pow2 by lia. change (2 ^ 8) with 256.
    rewrite !(int32_small (elem musData 7 * 256)) by lia.
    apply Z.lor_nonneg. lia. }
  destruct (events_total musData (S (Z.to_nat (u8_length musData)))
              (midiHeader ++ trackHeader)
              (bor (elem musData 6) (shl (elem musData 7) 8)) 0) as (track & Hevents).
  { lia. }
  rewrite Hevents. eexists. split; [reflexivity|]. split; [split; discriminate|].
  intros midi H.
  match type of H with Some ?t = _ => assert (Hmidi : midi = t) by congruence end.
  clear H. subst midi. split.
  - apply Forall_forall. intros b Hb. apply list_elem_of_In, in_map_iff in Hb as (z & <- & _).
    apply Z.mod_pos_bound. lia.
  - exists (map (fun z => z mod 256) track).
    rewrite length_map, length_app, length_app.
    replace (Z.of_nat (length midiHeader + length trackHeader + length track)
             - Z.of_nat (length midiHeader + length trackHeader))
      with (Z.of_nat (length track)) by lia.
    set (n := Z.of_nat (length track)).
    unfold midiHeader, trackHeader. cbn [app length Nat.add].
    cbn [insert list_insert map].
    unfold be32.
    rewrite (band_sar_255 n 24 16777216 1), (band_sar_255 n 16 65536 256),
      (band_sar_255 n 8 256 65536), band_255 by (reflexivity || lia).
    rewrite !Z.mod_mod by lia. reflexivity.
Qed.

Lemma convertMusToMidi_track_witness :
  convertMusToMidi scoreData =
    Ok (Some (midiHeader ++ [77; 84; 114; 107] ++ be32 9
              ++ [0; 144; 60; 127; 0; 0; 255; 47; 0])).
Proof.
  destruct (convertMusToMidi_track scoreData) as (r & Hr & _ & _).
  rewrite Hr. f_equal.
  assert (H : convertMusToMidi scoreData =
              Ok (Some (midiHeader ++ [77; 84; 114; 107] ++ be32 9
                        ++ [0; 144; 60; 127; 0; 0; 255; 47; 0])))
    by (vm_compute; reflexivity).
  congruence.
Defined.

End MusicFacts.

(** ** Things and the player on the same floor *)

Module ThingFacts.
Import WADParser MapRenderer Samples MapRendererFacts GameFacts.

Local Open Scope Q_scope.

Lemma floorHeightFrom_find sortByAngle m x y : forall rest i acc floorSectors first,
  buildFloorSectorsFrom sortByAngle m i rest acc = Ok floorSectors ->
  exists new,
    floorSectors = acc ++ new /\
    Things.floorHeightFrom sortByAngle m x y i rest first =
      Ok match List.find (fun f => Game.pointInPolygon x y (polygon f)) new with
         | Some f => fs_floorHeight f
         | None => floorHeight first
         end.
Proof.
  induction rest as [|sector rest IH]; intros i acc floorSectors first H;
    cbn [buildFloorSectorsFrom] in H; cbn [Things.floorHeightFrom].
  - injection H as <-. exists []. rewrite app_nil_r. auto.
  - apply bind_Ok_inv in H as (polygon & Hpoly & H). rewrite Hpoly.
    unfold mbind, result_bind. cbv beta iota.
    destruct (Nat.ltb_spec (length polygon) 3) as [Hlt|Hge].
    + destruct (Nat.leb_spec 3 (length polygon)); [lia|]. cbn [andb].
      apply (IH _ _ _ first) in H as (new & Hfs & Hfind). eauto.
    + destruct (Nat.leb_spec 3 (length polygon)); [|lia]. cbn [andb].
      apply (IH _ _ _ first) in H as (new & Hfs & Hfind).
      exists (mkFloorSector i polygon (floorHeight sector) (ceilingHeight sector) :: new).
      split; [rewrite Hfs, <- app_assoc; reflexivity|].
      cbn [List.find MapRenderer.polygon]. unfold Things.pointInPolygon.
      destruct (Game.pointInPolygon x y polygon); [reflexivity | exact Hfind].
Qed.

(** X29. Inside the floor polygons, things and the player stand on the
    same floor: for a point that lies in the polygon of some floor sector,
    [getFloorHeightAt] of the map renderer, which places the things, returns
    the height that [getFloorHeightAt] of the game returns on the floor
    sectors built for that map, the floor of the first sector, by number,
    whose polygon has three points or more and contains the point. *)
Theorem getFloorHeightAt_agree sortByAngle m floorSectors g x y :
  buildFloorSectors sortByAngle m = Ok floorSectors ->
  Game.floorSectors g = floorSectors ->
  (exists f, f ∈ floorSectors /\ Game.pointInPolygon x y (polygon f) = true) ->
  Things.getFloorHeightAt sortByAngle m x y = Ok (Game.getFloorHeightAt g x y).
Proof.
  intros Hbuild Hg (f & Hin & Hinside). unfold buildFloorSectors in Hbuild.
  unfold Things.getFloorHeightAt, Game.getFloorHeightAt. rewrite Hg.
  destruct (sectors m) as [|first rest] eqn:Es.
  { simpl in Hbuild. injection Hbuild as <-. inversion Hin. }
  destruct (floorHeightFrom_find sortByAngle m x y _ _ _ _ first Hbuild)
    as (new & Hfs & Hfind).
  rewrite app_nil_l in Hfs. subst new. rewrite Hfind.
  destruct (List.find _ floorSectors) as [f'|] eqn:Efind; [reflexivity|].
  exfalso. apply list_elem_of_In in Hin.
  pose proof (find_none _ _ Efind f Hin) as Hnone. cbv beta in Hnone. congruence.
Qed.

Lemma getFloorHeightAt_agree_witness :
  Things.getFloorHeightAt (fun points => points) squareMap 32 32
    = Ok (Game.getFloorHeightAt stepGame 32 32).
Proof.
  destruct (buildFloorSectors (fun points => points) squareMap) as [floorSectors| |] eqn:E.
  - apply (getFloorHeightAt_agree (fun points => points) squareMap floorSectors stepGame
             32 32 E).
    + unfold stepGame, loaded. cbn [Game.floorSectors]. rewrite E. reflexivity.
    + vm_compute in E. injection E as <-.
      eexists. split; [left|]. vm_compute. reflexivity.
  - vm_compute in E. discriminate.
  - vm_compute in E. discriminate.
Defined.

End ThingFacts.

(** ** The extent of the ray-casting test *)

Module ExtentFacts.
Import WADParser MapRenderer Game Samples GameFacts.

Local Open Scope Q_scope.

Lemma ratio_bounds a d :
  (0 <= a /\ a < d) \/ (d <= a /\ a < 0) -> 0 <= a / d /\ a / d <= 1.
Proof.
  intros H.
  assert (Hd : ~ d == 0) by (destruct H as [[? ?]|[? ?]]; lra).
  assert (Ht : (a / d) * d == a) by (field; exact Hd).
  set (t := a / d) in *. clearbody t.
  destruct H as [[H0 H1]|[H0 H1]].
  - split.
    + destruct (Qlt_le_dec t 0) as [Hneg|]; [|assumption]. exfalso.
      assert (0 < (- t) * d) by (apply Qmult_lt_0_compat; lra). nra.
    + destruct (Qlt_le_dec 1 t) as [Hbig|]; [|assumption]. exfalso.
      assert (0 < (t - 1) * d) by (apply Qmult_lt_0_compat; lra). nra.
  - split.
    + destruct (Qlt_le_dec t 0) as [Hneg|]; [|assumption]. exfalso.
      assert (0 < (- t) * (- d)) by (apply Qmult_lt_0_compat; lra). nra.
    + destruct (Qlt_le_dec 1 t) as [Hbig|]; [|assumption]. exfalso.
      assert (0 < (t - 1) * (- d)) by (apply Qmult_lt_0_compat; lra). nra.
Qed.

Lemma intersect_true x y pi pj :
  intersect x y pi pj = true ->
  ((inject_Z (v2_y pi) <= y /\ y < inject_Z (v2_y pj)) \/
   (inject_Z (v2_y pj) <= y /\ y < inject_Z (v2_y pi))) /\
  (x < inject_Z (v2_x pi) \/ x < inject_Z (v2_x pj)).
Proof.
  unfold intersect. cbv zeta.
  set (xi := inject_Z (v2_x pi)). set (yi := inject_Z (v2_y pi)).
  set (xj := inject_Z (v2_x pj)). set (yj := inject_Z (v2_y pj)).
  intros H. apply andb_prop in H as [Hy Hx]. apply Qltb_true in Hx.
  assert (Hside : (yi <= y /\ y < yj) \/ (yj <= y /\ y < yi)).
  { destruct (Qltb y yi) eqn:Ei; destruct (Qltb y yj) eqn:Ej; try discriminate;
      repeat match goal with
             | H : Qltb _ _ = true |- _ => apply Qltb_true in H
             | H : Qltb _ _ = false |- _ => apply Qltb_false in H
             end; [right | left]; lra. }
  split; [exact Hside|].
  destruct (ratio_bounds (y - yi) (yj - yi)) as [Ht0 Ht1];
    [destruct Hside as [[? ?]|[? ?]]; [left | right]; split; lra|].
  assert (Hd : ~ yj - yi == 0) by (destruct Hside as [[? ?]|[? ?]]; lra).
  assert (Hmul : (xj - xi) * (y - yi) / (yj - yi) == (xj - xi) * ((y - yi) / (yj - yi)))
    by (field; exact Hd).
  rewrite Hmul in Hx. set (t := (y - yi) / (yj - yi)) in *. clearbody t.
  destruct (Qlt_le_dec xj xi) as [Hlt|Hge].
  - left. assert (0 <= (xi - xj) * t) by (apply Qmult_le_0_compat; lra). nra.
  - right. assert (0 <= (xj - xi) * (1 - t)) by (apply Qmult_le_0_compat; lra). nra.
Qed.

Lemma pointInPolygonFrom_true x y : forall rest pj inside,
  pointInPolygonFrom x y rest pj inside = true ->
  inside = true \/
  exists pi pj', pi ∈ rest /\ pj' ∈ pj :: rest /\ intersect x y pi pj' = true.
Proof.
  induction rest as [|pi rest IH]; intros pj inside H; [left; exact H|].
  cbn [pointInPolygonFrom] in H. apply IH in H as [H|(p & q & Hp & Hq & Hpq)].
  - destruct (intersect x y pi pj) eqn:E.
    + right. exists pi, pj. split; [left|]. split; [left | exact E].
    + left. exact H.
  - right. exists p, q. split; [right; exact Hp|]. split; [right; exact Hq | exact Hpq].
Qed.

(** X30. A point that the even-odd test places inside a polygon lies
    within the vertical extent of the polygon and to the left of one of its
    points: some point of the polygon is at or below it, some point is
    strictly above it, and some point is strictly to its right. *)
Theorem pointInPolygon_extent x y polygon :
  pointInPolygon x y polygon = true ->
  (exists p, p ∈ polygon /\ inject_Z (v2_y p) <= y) /\
  (exists p, p ∈ polygon /\ y < inject_Z (v2_y p)) /\
  (exists p, p ∈ polygon /\ x < inject_Z (v2_x p)).
Proof.
  unfold pointInPolygon. destruct (last polygon) as [pl|] eqn:El; [|discriminate].
  intros H. apply pointInPolygonFrom_true in H as [H|(pi & pj & Hi & Hj & H)];
    [discriminate|].
  assert (Hj' : pj ∈ polygon).
  { apply elem_of_cons in Hj as [->|Hj]; [|exact Hj].
    apply last_Some in El as (l' & ->). apply elem_of_app. right. left. }
  apply intersect_true in H as [[[Hlow Hhigh]|[Hlow Hhigh]] [Hx|Hx]]; eauto 10.
Qed.

Lemma pointInPolygon_extent_witness :
  exists p, p ∈ rectangle 0 0 64 64 /\ (32 : Q) < inject_Z (v2_x p).
Proof.
  destruct (pointInPolygon_extent 32 32 (rectangle 0 0 64 64)) as (_ & _ & H).
  - vm_compute. reflexivity.
  - exact H.
Defined.

End ExtentFacts.

